(** * image-resizer: the two resize strategies of [handleConvert]

    A shallow embedding of [src/app/page.tsx] (and of the earlier,
    dimension-only revision of the same component) together with the
    properties stated for it.

    Modelling conventions.
    - A JavaScript [number] is kept by its exact value, a rational ([Q]);
      pixel counts that the code keeps integral ([img.width], the results
      of [Math.round]) are [Z].
    - In the dimension branch every quotient and every product is rounded
      to the nearest double, ties to even ([JS.round64], [JS.div],
      [JS.mul]), as the binary64 arithmetic of the language does.  Module
      [Binary64] repeats the branch on the machine's doubles, and section
      [Binary64Check] compares the two.
    - The file-size branch subtracts 0.05 and multiplies by 0.9 in exact
      arithmetic; [Binary64] repeats its adjustment too and the same
      section compares the two over a whole search.
    - The browser is a pair of functions: [toDataURL], the canvas encoder
      applied to the decoded image drawn at the canvas size, and [atob].
      Every call of [canvas.toDataURL] is appended to the canvas' list of
      encodes, so that the number, the order and the arguments of the
      renders can be stated.
    - [setMessage] calls are collected in a list, oldest first. *)

From Stdlib Require Import ZArith QArith Qround Qminmax Qabs Qpower Lqa Lia.
From Stdlib Require Import Bool String Ascii List.
From Stdlib Require Import PrimFloat SpecFloat FloatOps Uint63.
Import ListNotations.

Set Warnings "-inexact-float".

(** ** JavaScript primitives *)

Module JS.

Open Scope Q_scope.

(** [a > b] and [a < b] on numbers. *)
Definition gt (a b : Q) : bool := negb (Qle_bool a b).
Definition lt (a b : Q) : bool := negb (Qle_bool b a).
Definition le (a b : Q) : bool := Qle_bool a b.
Definition ge (a b : Q) : bool := Qle_bool b a.

(** [Math.round]: the nearest integer, ties towards plus infinity. *)
Definition Math_round (x : Q) : Z := Qfloor (x + (1 # 2)).

(** [Math.max] on two numbers. *)
Definition Math_max (a b : Q) : Q := Qmax a b.

(** *** Binary64 rounding

    [floor (log2 x)] for a positive [x]: the difference of the bit
    lengths of numerator and denominator, or one less. *)
Definition ilog2 (x : Q) : Z :=
  let k := (Z.log2 (Qnum x) - Z.log2 (Zpos (Qden x)))%Z in
  if Qle_bool (2 ^ k) x then k else (k - 1)%Z.

(** The exponent of the last place of the doubles around [x]: 53
    significant bits, and no place below [2^-1074], the last place of the
    subnormal doubles. *)
Definition lastPlace (x : Q) : Z := Z.max (ilog2 (Qabs x) - 52) (-1074).

(** The nearest integer, ties to the even one. *)
Definition roundHalfEven (y : Q) : Z :=
  let f := Qfloor y in
  match Qcompare (y - inject_Z f) (1 # 2) with
  | Lt => f
  | Gt => (f + 1)%Z
  | Eq => if Z.even f then f else (f + 1)%Z
  end.

(** The double nearest to [x], ties to the even significand: [x] in units
    of its last place, rounded to an integer.  Section [Rounding] shows
    that the result has a significand of at most 53 bits and that no
    double is nearer to [x].  There is no overflow to infinity here; the
    dimension branch only ever multiplies a bound by a quotient of at most
    1, so its results stay below the doubles it started from. *)
Definition round64 (x : Q) : Q :=
  let e := lastPlace x in
  inject_Z (roundHalfEven (x / 2 ^ e)) * 2 ^ e.

(** The finite doubles. *)
Definition double (x : Q) : Prop := round64 x == x /\ Qabs x < 2 ^ 1024.

(** [a / b] and [a * b] on doubles. *)
Definition div (a b : Q) : Q := round64 (a / b).
Definition mul (a b : Q) : Q := round64 (a * b).

Open Scope string_scope.

(** [s.split(sep)] for a one-character separator. *)
Fixpoint split (sep : ascii) (s : string) : list string :=
  match s with
  | EmptyString => [EmptyString]
  | String c rest =>
      if Ascii.eqb c sep then EmptyString :: split sep rest
      else match split sep rest with
           | piece :: pieces => String c piece :: pieces
           | [] => [String c EmptyString]
           end
  end.

(** [arr.slice(start, end)], negative indices counting from the end. *)
Definition slice {A : Type} (start final : Z) (arr : list A) : list A :=
  let len := Z.of_nat (List.length arr) in
  let k := if (start <? 0)%Z then Z.max (len + start) 0 else Z.min start len in
  let e := if (final <? 0)%Z then Z.max (len + final) 0 else Z.min final len in
  firstn (Z.to_nat (e - k)) (skipn (Z.to_nat k) arr).

(** [arr.join(sep)]. *)
Fixpoint join (sep : string) (arr : list string) : string :=
  match arr with
  | [] => EmptyString
  | [piece] => piece
  | piece :: pieces => piece ++ sep ++ join sep pieces
  end.

(** [s.includes(c)] for a one-character string [c]. *)
Fixpoint includes (c : ascii) (s : string) : bool :=
  match s with
  | EmptyString => false
  | String c' rest => Ascii.eqb c' c || includes c rest
  end.

(** [s.startsWith(p)]. *)
Definition startsWith (p s : string) : bool := String.prefix p s.

(** Truthiness of a string: only the empty string is falsy. *)
Definition truthy (s : string) : bool :=
  match s with EmptyString => false | String _ _ => true end.

End JS.

(** ** Dimension-based resizing *)

Module Dimension.

Import JS.
Open Scope Q_scope.

(** The guard of [handleConvert] on the pixel envelope: the conversion is
    refused when [minSize <= 0 || maxSize <= 0 || minSize > maxSize]. *)
Definition invalidEnvelope (minSize maxSize : Q) : bool :=
  le minSize 0 || le maxSize 0 || gt minSize maxSize.

(** The conditions of the two outer [if]s. *)
Definition exceedsMax (maxSize : Q) (d : Q * Q) : bool :=
  let (newWidth, newHeight) := d in
  gt newWidth maxSize || gt newHeight maxSize.

Definition belowMin (minSize : Q) (d : Q * Q) : bool :=
  let (newWidth, newHeight) := d in
  lt newWidth minSize || lt newHeight minSize.

(** "Resize based on max dimension": [(newHeight / newWidth) * maxSize],
    the quotient rounded and then the product. *)
Definition maxPass (maxSize : Q) (d : Q * Q) : Q * Q :=
  let (newWidth, newHeight) := d in
  if exceedsMax maxSize d then
    if gt newWidth newHeight
    then (maxSize, mul (div newHeight newWidth) maxSize)
    else (mul (div newWidth newHeight) maxSize, maxSize)
  else (newWidth, newHeight).

(** "Resize based on min dimension". *)
Definition minPass (minSize : Q) (d : Q * Q) : Q * Q :=
  let (newWidth, newHeight) := d in
  if belowMin minSize d then
    if lt newWidth newHeight
    then (mul (div newWidth newHeight) minSize, minSize)
    else (minSize, mul (div newHeight newWidth) minSize)
  else (newWidth, newHeight).

(** The two passes, before rounding.  (The only quotient with a zero
    divisor is 0 / 0 in the min pass, for an image without pixels: it is
    [NaN] in the code and reaches the canvas as 0; [Qdiv] makes it 0 from
    the start.) *)
Definition clamp (imgWidth imgHeight : Z) (minSize maxSize : Q) : Q * Q :=
  minPass minSize (maxPass maxSize (inject_Z imgWidth, inject_Z imgHeight)).

(** The size given to the canvas: [(newWidth, newHeight)] after
    [Math.round], which is exact on the value of a double. *)
Definition resizeDimensions (imgWidth imgHeight : Z) (minSize maxSize : Q)
  : Z * Z :=
  let (newWidth, newHeight) := clamp imgWidth imgHeight minSize maxSize in
  (Math_round newWidth, Math_round newHeight).

(** An output pair lies in the envelope when both of its sides do. *)
Definition withinEnvelope (minSize maxSize : Z) (d : Z * Z) : Prop :=
  (minSize <= fst d <= maxSize)%Z /\ (minSize <= snd d <= maxSize)%Z.

End Dimension.

(** ** The canvas and the browser *)

Module Browser.

Import JS.
Open Scope string_scope.

(** One call of [canvas.toDataURL(type, quality)]: the canvas size at the
    time of the call (the image is drawn scaled to exactly that size),
    the requested MIME type and the quality argument, when given. *)
Record Encode : Type := {
  en_width : Z;
  en_height : Z;
  en_type : string;
  en_quality : option Q
}.

(** The shared canvas of [canvasRef]: its current size and the encodes
    made so far, oldest first. *)
Record Canvas : Type := {
  cv_width : Z;
  cv_height : Z;
  cv_encodes : list Encode
}.

Definition emptyCanvas : Canvas :=
  {| cv_width := 300; cv_height := 150; cv_encodes := [] |}.

(** [canvas.width = w; canvas.height = h]. *)
Definition setSize (w h : Z) (cv : Canvas) : Canvas :=
  {| cv_width := w; cv_height := h; cv_encodes := cv_encodes cv |}.

(** The encode that [canvas.toDataURL(type, quality)] performs now. *)
Definition encodeOf (type : string) (quality : option Q) (cv : Canvas) : Encode :=
  {| en_width := cv_width cv; en_height := cv_height cv;
     en_type := type; en_quality := quality |}.

Definition logEncode (e : Encode) (cv : Canvas) : Canvas :=
  {| cv_width := cv_width cv; cv_height := cv_height cv;
     cv_encodes := cv_encodes cv ++ [e] |}.

(** An input file and the decoded image. *)
Record File : Type := { file_name : string; file_type : string }.
Record Img : Type := { width : Z; height : Z }.

(** An entry of [newResizedImages]. *)
Record ResizedImage : Type := { dataUrl : string; name : string }.

(** The texts given to [setMessage] while one file is processed, with the
    values substituted into the template. *)
Inductive Message : Type :=
| SkippingNonImage (fileName : string)
| AlreadySmaller (fileName : string) (minFileSize currentFileSizeKB : Q)
| CouldNotResize (fileName : string) (closestSizeKB : Q).

End Browser.

(** ** File-size-based resizing *)

Module FileSize.

Import JS Browser.
Open Scope Q_scope.

Definition maxIterations : Z := 100.

(** The [let] variables of the file-size branch, and the canvas. *)
Record SearchState : Type := {
  currentQuality : Q;
  currentWidth : Z;
  currentHeight : Z;
  currentFileSizeKB : Q;
  iterations : Z;
  resizedDataUrl : string;
  lastValidDataUrl : string;
  lastValidFileSizeKB : Q;
  canvas : Canvas
}.

(** [lastValidDataUrl = resizedDataUrl; lastValidFileSizeKB = currentFileSizeKB]. *)
Definition recordValid (s : SearchState) : SearchState :=
  {| currentQuality := currentQuality s;
     currentWidth := currentWidth s;
     currentHeight := currentHeight s;
     currentFileSizeKB := currentFileSizeKB s;
     iterations := iterations s;
     resizedDataUrl := resizedDataUrl s;
     lastValidDataUrl := resizedDataUrl s;
     lastValidFileSizeKB := currentFileSizeKB s;
     canvas := canvas s |}.

(** [resizedDataUrl = lastValidDataUrl; currentFileSizeKB = lastValidFileSizeKB]. *)
Definition useLastValid (s : SearchState) : SearchState :=
  {| currentQuality := currentQuality s;
     currentWidth := currentWidth s;
     currentHeight := currentHeight s;
     currentFileSizeKB := lastValidFileSizeKB s;
     iterations := iterations s;
     resizedDataUrl := lastValidDataUrl s;
     lastValidDataUrl := lastValidDataUrl s;
     lastValidFileSizeKB := lastValidFileSizeKB s;
     canvas := canvas s |}.

Section Search.

(** The canvas encoder for the decoded image, and [window.atob]. *)
Variable toDataURL : Encode -> string.
Variable atob : string -> string.

Variables minFileSize maxFileSize : Q.

(** [dataURLtoBlob(dataurl).size]: the length of [atob(arr[1])], the
    decoded text between the first and the second comma ([atob] is given
    ["undefined"] when there is no comma).  The MIME type of the blob
    plays no part in its size. *)
Definition dataURLtoBlob_size (dataurl : string) : nat :=
  let arr := split "," dataurl in
  let bstr := atob (nth 1 arr "undefined"%string) in
  String.length bstr.

(** [dataURLtoBlob(dataUrl).size / 1024]. *)
Definition sizeKB (dataUrl : string) : Q :=
  inject_Z (Z.of_nat (dataURLtoBlob_size dataUrl)) / 1024.

(** [size >= minFileSize && size <= maxFileSize]. *)
Definition inEnvelope (size : Q) : bool :=
  ge size minFileSize && le size maxFileSize.

(** [updateCanvasAndGetSize(width, height, quality)]. *)
Definition updateCanvasAndGetSize (cv : Canvas) (width height : Z) (quality : Q)
  : Canvas * (string * Q) :=
  let cv := setSize width height cv in
  let e := encodeOf "image/jpeg" (Some quality) cv in
  let dataUrl := toDataURL e in
  (logEncode e cv, (dataUrl, sizeKB dataUrl)).

(** The first render: the image at its own size, quality 0.9. *)
Definition initialRender (img : Img) : Encode :=
  {| en_width := width img;
     en_height := height img;
     en_type := "image/jpeg";
     en_quality := Some 0.9 |}.

(** The state after "Initial check with current dimensions and quality". *)
Definition initialState (img : Img) (cv : Canvas) : SearchState :=
  let currentQuality := 0.9 in
  let currentWidth := width img in
  let currentHeight := height img in
  let '(cv, (initialDataUrl, initialSizeKB)) :=
    updateCanvasAndGetSize cv currentWidth currentHeight currentQuality in
  {| currentQuality := currentQuality;
     currentWidth := currentWidth;
     currentHeight := currentHeight;
     currentFileSizeKB := initialSizeKB;
     iterations := 0;
     resizedDataUrl := initialDataUrl;
     lastValidDataUrl := EmptyString;
     lastValidFileSizeKB := 0;
     canvas := cv |}.

(** The adjustment at the head of the loop body: the new quality, width
    and height. *)
Definition adjust (s : SearchState) : Q * Z * Z :=
  if gt (currentQuality s) 0.1 then
    (Math_max 0.1 (currentQuality s - 0.05), currentWidth s, currentHeight s)
  else
    let scaleFactor := 0.9 in
    let currentWidth := Math_round (inject_Z (currentWidth s) * scaleFactor) in
    let currentHeight := Math_round (inject_Z (currentHeight s) * scaleFactor) in
    (currentQuality s,
     if (currentWidth <? 1)%Z then 1%Z else currentWidth,
     if (currentHeight <? 1)%Z then 1%Z else currentHeight).

(** The first half of the loop body: count the pass, adjust, render
    again and measure. *)
Definition rerender (s : SearchState) : SearchState :=
  let '(quality, width, height) := adjust s in
  let '(cv, (newDataUrl, newSizeKB)) :=
    updateCanvasAndGetSize (canvas s) width height quality in
  {| currentQuality := quality;
     currentWidth := width;
     currentHeight := height;
     currentFileSizeKB := newSizeKB;
     iterations := iterations s + 1;
     resizedDataUrl := newDataUrl;
     lastValidDataUrl := lastValidDataUrl s;
     lastValidFileSizeKB := lastValidFileSizeKB s;
     canvas := cv |}.

(** The render made by that pass. *)
Definition renderOf (s : SearchState) : Encode :=
  {| en_width := currentWidth (rerender s);
     en_height := currentHeight (rerender s);
     en_type := "image/jpeg";
     en_quality := Some (currentQuality (rerender s)) |}.

(** One pass through the body of the [while] loop; the boolean tells
    whether the body left through [break]. *)
Definition iteration (s : SearchState) : SearchState * bool :=
  let s1 := rerender s in
  if le (currentFileSizeKB s1) maxFileSize then
    (recordValid s1, ge (currentFileSizeKB s1) minFileSize)
  else (s1, false).

(** The condition of the [while] loop. *)
Definition loopGuard (s : SearchState) : bool :=
  gt (currentFileSizeKB s) maxFileSize && (iterations s <? maxIterations)%Z.

(** The [while] loop.  [fuel] bounds the number of passes; the loop
    itself stops at [maxIterations], so [Z.to_nat maxIterations] passes
    are always enough (see [while_fuel]). *)
Fixpoint while (fuel : nat) (s : SearchState) : SearchState :=
  match fuel with
  | O => s
  | S fuel' =>
      if loopGuard s then
        let (s', break) := iteration s in
        if break then s' else while fuel' s'
      else s
  end.

(** The whole file-size branch for one decoded image: the final
    variables and the messages it set. *)
Definition resizeToFileSize (fileName : string) (img : Img) (cv : Canvas)
  : SearchState * list Message :=
  let s := initialState img cv in
  if inEnvelope (currentFileSizeKB s) then
    (recordValid s, [])
  else if lt (currentFileSizeKB s) minFileSize then
    (recordValid s, [AlreadySmaller fileName minFileSize (currentFileSizeKB s)])
  else
    let s := while (Z.to_nat maxIterations) s in
    if truthy (lastValidDataUrl s) then (useLastValid s, [])
    else (s, [CouldNotResize fileName (currentFileSizeKB s)]).

(** The states the loop passes through from [s0]: [runs s0 b s] when
    the loop started in [s0] reaches [s], having left the body through
    [break] iff [b]. *)
Inductive runs (s0 : SearchState) : bool -> SearchState -> Prop :=
| runs_start : runs s0 false s0
| runs_iteration s :
    runs s0 false s ->
    loopGuard s = true ->
    runs s0 (snd (iteration s)) (fst (iteration s)).

(** The current data URL and size are those of the latest render, and all
    renders so far asked for JPEG. *)
Definition tracked (cv : Canvas) (s : SearchState) : Prop :=
  exists encs e,
    cv_encodes (canvas s) = (cv_encodes cv ++ encs ++ [e])%list /\
    Forall (fun e' => en_type e' = "image/jpeg"%string) (encs ++ [e]) /\
    resizedDataUrl s = toDataURL e /\
    currentFileSizeKB s = sizeKB (toDataURL e).

(** Either nothing was recorded, the latest render being over the maximum
    or the initial one; or the latest render was recorded, being within
    the maximum. *)
Definition remembered (s : SearchState) : Prop :=
  (lastValidDataUrl s = EmptyString /\
   (maxFileSize < currentFileSizeKB s \/ iterations s = 0%Z)) \/
  (lastValidDataUrl s = resizedDataUrl s /\
   lastValidFileSizeKB s = currentFileSizeKB s /\
   currentFileSizeKB s <= maxFileSize).

End Search.

(** The bounds kept by every pass of the loop. *)
Definition bounded (s : SearchState) : Prop :=
  (0 <= iterations s <= maxIterations)%Z /\
  0.1 <= currentQuality s /\
  (1 <= currentWidth s)%Z /\ (1 <= currentHeight s)%Z.

(** "Ensure the output file name has a .jpeg extension". *)
Definition outputFileName (fileName : string) : string :=
  ("resized_filesize_" ++ join "." (slice 0 (-1) (split "." fileName)) ++ ".jpeg")%string.

(** The three statuses of a file-size outcome.  The source keeps no
    status field; a status names how the branch was left, read off the
    final variables: the returned size lies in the envelope; or the
    initial render, already below the minimum, was kept; or neither. *)
Inductive Status : Type := Satisfied | AcceptedBelowMin | BestEffort.

Definition statusOf (minFileSize maxFileSize : Q) (s : SearchState) : Status :=
  if inEnvelope minFileSize maxFileSize (currentFileSizeKB s)
  then Satisfied
  else if lt (currentFileSizeKB s) minFileSize && (iterations s =? 0)%Z
  then AcceptedBelowMin
  else BestEffort.

End FileSize.


(** ** One file of the batch *)

Module Convert.

Import JS Browser.
Open Scope string_scope.

Inductive ResizeMode : Type := dimensions | fileSize.

(** The inputs of the form. *)
Record Settings : Type := {
  minSize : Q;
  maxSize : Q;
  minFileSize : Q;
  maxFileSize : Q;
  resizeMode : ResizeMode
}.

(** What one pass of the [for] loop over [selectedFiles] leaves behind: the
    entry pushed to [newResizedImages] (none when the file is skipped), the
    messages set, and the canvas. *)
Record Processed : Type := {
  pushed : option ResizedImage;
  messages : list Message;
  canvasAfter : Canvas
}.

(** The MIME type each mode asks of the canvas. *)
Definition formatOf (mode : ResizeMode) : string :=
  match mode with
  | dimensions => "image/png"
  | fileSize => "image/jpeg"
  end.

Section PerFile.

Variable toDataURL : Encode -> string.
Variable atob : string -> string.

(** The body of the [for] loop, for a file whose image decodes to [img]. *)
Definition convertFile (cfg : Settings) (file : File) (img : Img) (cv : Canvas)
  : Processed :=
  if negb (startsWith "image/" (file_type file)) then
    {| pushed := None;
       messages := [SkippingNonImage (file_name file)];
       canvasAfter := cv |}
  else
    match resizeMode cfg with
    | dimensions =>
        let (newWidth, newHeight) :=
          Dimension.resizeDimensions (width img) (height img)
                                     (minSize cfg) (maxSize cfg) in
        let cv := setSize newWidth newHeight cv in
        let e := encodeOf "image/png" None cv in
        {| pushed := Some {| dataUrl := toDataURL e;
                             name := "resized_dim_" ++ file_name file |};
           messages := [];
           canvasAfter := logEncode e cv |}
    | fileSize =>
        let (s, msgs) :=
          FileSize.resizeToFileSize toDataURL atob
            (minFileSize cfg) (maxFileSize cfg) (file_name file) img cv in
        {| pushed := Some {| dataUrl := FileSize.resizedDataUrl s;
                             name := FileSize.outputFileName (file_name file) |};
           messages := msgs;
           canvasAfter := FileSize.canvas s |}
    end.

End PerFile.

End Convert.

(** ** A small codec for the examples

    Renders wider than [threshold] pixels decode to 3072 bytes (3 KB), all
    others to 512 bytes (0.5 KB). *)

Module Toy.

Import JS Browser.
Open Scope string_scope.

Definition payload (n : nat) : string :=
  string_of_list_ascii (List.repeat "x"%char n).

Definition toDataURL (threshold : Z) (e : Encode) : string :=
  "data:" ++ en_type e ++ ";base64,"
    ++ (if (en_width e <=? threshold)%Z then "S" else "L").

Definition atob (s : string) : string :=
  if String.eqb s "S" then payload 512 else payload 3072.

(** A wide banner, 60000 x 100 pixels. *)
Definition banner : Img := {| width := 60000; height := 100 |}.

Definition photo : File :=
  {| file_name := "photo.final.png"; file_type := "image/png" |}.

Definition scan : File := {| file_name := "scan"; file_type := "image/bmp" |}.

(** File-size mode with the envelope [1 KB, 4 KB]. *)
Definition bySize : Convert.Settings :=
  {| Convert.minSize := 100; Convert.maxSize := 800;
     Convert.minFileSize := 1; Convert.maxFileSize := 4;
     Convert.resizeMode := Convert.fileSize |}.

End Toy.

(** ** The same arithmetic on the machine's doubles

    The numbers of the two resizers as primitive floats, for pixel counts
    below 2^63.  [Math.round] is exact on the value of a double, so it is
    taken on that value. *)

Module Binary64.

(** An integer as a double, and the exact value of a finite double. *)
Definition ofZ (z : Z) : float := PrimFloat.of_uint63 (Uint63.of_Z z).

Definition valueOf (x : float) : Q :=
  match Prim2SF x with
  | S754_finite sign m e =>
      let magnitude :=
        if (0 <=? e)%Z then inject_Z (Zpos m * 2 ^ e)
        else Qmake (Zpos m) (Z.to_pos (2 ^ (- e))) in
      if sign then Qopp magnitude else magnitude
  | _ => 0%Q
  end.

Definition Math_round (x : float) : Z := JS.Math_round (valueOf x).

(** The dimension branch. *)
Definition resizeDimensions (imgWidth imgHeight : Z) (minSize maxSize : float)
  : Z * Z :=
  let newWidth := ofZ imgWidth in
  let newHeight := ofZ imgHeight in
  let '(newWidth, newHeight) :=
    if (maxSize <? newWidth)%float || (maxSize <? newHeight)%float then
      if (newHeight <? newWidth)%float
      then (maxSize, (newHeight / newWidth * maxSize)%float)
      else ((newWidth / newHeight * maxSize)%float, maxSize)
    else (newWidth, newHeight) in
  let '(newWidth, newHeight) :=
    if (newWidth <? minSize)%float || (newHeight <? minSize)%float then
      if (newWidth <? newHeight)%float
      then ((newWidth / newHeight * minSize)%float, minSize)
      else (minSize, (newHeight / newWidth * minSize)%float)
    else (newWidth, newHeight) in
  (Math_round newWidth, Math_round newHeight).

(** Whether [Dimension.resizeDimensions] gives the same size for every
    image with sides from [sides]. *)
Definition agreeOn (minSize maxSize : float) (sides : list Z) : bool :=
  forallb (fun imgWidth =>
    forallb (fun imgHeight =>
      let '(newWidth, newHeight) :=
        resizeDimensions imgWidth imgHeight minSize maxSize in
      let '(newWidth', newHeight') :=
        Dimension.resizeDimensions imgWidth imgHeight
          (valueOf minSize) (valueOf maxSize) in
      (newWidth =? newWidth')%Z && (newHeight =? newHeight')%Z) sides) sides.

(** The adjustment of the file-size loop on (quality, width, height). *)
Definition adjust (s : float * Z * Z) : float * Z * Z :=
  let '(currentQuality, currentWidth, currentHeight) := s in
  if (0.1 <? currentQuality)%float then
    (let lowered := (currentQuality - 0.05)%float in
     if (lowered <? 0.1)%float then 0.1%float else lowered,
     currentWidth, currentHeight)
  else
    let width := Math_round (ofZ currentWidth * 0.9)%float in
    let height := Math_round (ofZ currentHeight * 0.9)%float in
    (currentQuality,
     if (width <? 1)%Z then 1%Z else width,
     if (height <? 1)%Z then 1%Z else height).

(** The adjustment of the rational model on the same triple. *)
Definition adjustQ (s : Q * Z * Z) : Q * Z * Z :=
  let '(quality, width, height) := s in
  FileSize.adjust
    {| FileSize.currentQuality := quality;
       FileSize.currentWidth := width;
       FileSize.currentHeight := height;
       FileSize.currentFileSizeKB := 0;
       FileSize.iterations := 0;
       FileSize.resizedDataUrl := EmptyString;
       FileSize.lastValidDataUrl := EmptyString;
       FileSize.lastValidFileSizeKB := 0;
       FileSize.canvas := Browser.emptyCanvas |}.

(** Both adjustments side by side for [passes] passes: every pair of
    states has the same width and height, is in the same phase, and the
    two qualities differ by at most 10^-15. *)
Definition agree (s64 : float * Z * Z) (s : Q * Z * Z) : bool :=
  let '(quality64, width64, height64) := s64 in
  let '(quality, width, height) := s in
  (width64 =? width)%Z && (height64 =? height)%Z
  && Bool.eqb (0.1 <? quality64)%float (JS.gt quality 0.1)
  && Qle_bool (Qabs (valueOf quality64 - quality)) (1 # 1000000000000000).

Fixpoint agreeFor (passes : nat) (s64 : float * Z * Z) (s : Q * Z * Z) : bool :=
  agree s64 s &&
  match passes with
  | O => true
  | S passes' => agreeFor passes' (adjust s64) (adjustQ s)
  end.

End Binary64.

(** ** What the file-size search keeps true *)

Module SearchInvariants.

Import JS Browser FileSize.
Open Scope Q_scope.

Section Invariants.

Variable toDataURL : Encode -> string.
Variable atob : string -> string.
Variable maxFileSize : Q.

(** The render that the working variables of a state describe. *)
Definition specOf (s : SearchState) : Encode :=
  {| en_width := currentWidth s;
     en_height := currentHeight s;
     en_type := "image/jpeg";
     en_quality := Some (currentQuality s) |}.

(** The renders made so far: one per pass before the latest, each of them
    measured over the maximum, then the latest, which is the one the
    variables describe. *)
Definition history (cv : Canvas) (s : SearchState) : Prop :=
  exists encs,
    cv_encodes (canvas s) = (cv_encodes cv ++ encs ++ [specOf s])%list /\
    Forall (fun e => maxFileSize < sizeKB atob (toDataURL e)) encs /\
    Z.of_nat (List.length encs) = iterations s /\
    (iterations s <= maxIterations)%Z /\
    resizedDataUrl s = toDataURL (specOf s) /\
    currentFileSizeKB s = sizeKB atob (toDataURL (specOf s)).

End Invariants.

(** The quality after a number of passes, and the dimensions while the
    quality is still being lowered. *)
Definition scheduled (img : Img) (s : SearchState) : Prop :=
  (0 <= iterations s)%Z /\
  currentQuality s == Qmax 0.1 (0.9 - 0.05 * inject_Z (iterations s)) /\
  ((iterations s <= 16)%Z ->
   currentWidth s = width img /\ currentHeight s = height img).

(** A side never leaves the range between 5 pixels (or its own size, if
    smaller) and its own size. *)
Definition sideKept (original current : Z) : Prop :=
  (Z.min original 5 <= current <= original)%Z.

End SearchInvariants.

(** ** [dataURLtoBlob] in full

    Strings are sequences of 8-bit code units here (data URLs are ASCII
    and [atob] returns a binary string), so of the line terminators that
    [.] refuses only line feed and carriage return can occur. *)

Module DataUrl.

Import JS.
Open Scope string_scope.

Definition isLineTerminator (c : ascii) : bool :=
  Ascii.eqb c "010" || Ascii.eqb c "013".

(** [(.*?);] at the start of [s]: the text before the first [;], when no
    line terminator comes before it. *)
Fixpoint lazyUntilSemicolon (s : string) : option string :=
  match s with
  | EmptyString => None
  | String c rest =>
      if Ascii.eqb c ";" then Some EmptyString
      else if isLineTerminator c then None
      else option_map (String c) (lazyUntilSemicolon rest)
  end.

(** [s.match(/:(.*?);/)]: the first group of the leftmost match. *)
Fixpoint matchMime (s : string) : option string :=
  match s with
  | EmptyString => None
  | String c rest =>
      if Ascii.eqb c ":" then
        match lazyUntilSemicolon rest with
        | Some group => Some group
        | None => matchMime rest
        end
      else matchMime rest
  end.

(** [bstr.charCodeAt(i)]; none stands for NaN. *)
Definition charCodeAt (bstr : string) (i : nat) : option N :=
  option_map N_of_ascii (String.get i bstr).

(** [u8arr[i] = v] on a [Uint8Array]: the value is taken modulo 256 (NaN
    as 0), and a store outside the array is ignored. *)
Definition store (i : nat) (v : option N) (u8arr : list N) : list N :=
  if (i <? List.length u8arr)%nat then
    firstn i u8arr
      ++ [match v with Some code => (code mod 256)%N | None => 0%N end]
      ++ skipn (S i) u8arr
  else u8arr.

(** [while (n--) { u8arr[n] = bstr.charCodeAt(n); }]. *)
Fixpoint fill (n : nat) (bstr : string) (u8arr : list N) : list N :=
  match n with
  | O => u8arr
  | S n' => fill n' bstr (store n' (charCodeAt bstr n') u8arr)
  end.

(** What is handed to [new Blob([u8arr], { type: mime })]. *)
Record Blob : Type := { bytes : list N; type : string }.

Definition size (b : Blob) : nat := List.length (bytes b).

Section WithAtob.

Variable atob : string -> string.

Definition dataURLtoBlob (dataurl : string) : Blob :=
  let arr := split "," dataurl in
  let mimeMatch := matchMime (nth 0 arr EmptyString) in
  let mime := match mimeMatch with Some group => group | None => "image/png" end in
  let bstr := atob (nth 1 arr "undefined") in
  let n := String.length bstr in
  let u8arr := List.repeat 0%N n in
  {| bytes := fill n bstr u8arr; type := mime |}.

End WithAtob.

End DataUrl.

(** ** [handleConvert] over the selected files

    The component state, the validation at the head of [handleConvert],
    the [for] loop over [selectedFiles] with the one shared canvas, and
    the condition that disables the Convert button. *)

Module App.

Import JS Browser Convert.
Open Scope string_scope.

(** The texts given to [setMessage]: the fixed ones, and those made for
    one file. *)
Inductive Notice : Type :=
| NoNotice
| PleaseSelect
| InvalidDimensions
| InvalidFileSizes
| Resizing
| ForFile (m : Message)
| FailedToProcess (fileName : string)
| Success.

(** The [useState] variables; the four bounds and the mode are kept
    together as [settings]. *)
Record State : Type := {
  selectedFiles : list File;
  settings : Settings;
  resizedImages : list ResizedImage;
  loading : bool;
  message : Notice;
  downloadingAll : bool
}.

(** [minSize <= 0 || maxSize <= 0 || minSize > maxSize] for the bounds of
    the current mode. *)
Definition invalidBounds (cfg : Settings) : bool :=
  match resizeMode cfg with
  | dimensions =>
      le (minSize cfg) 0 || le (maxSize cfg) 0 || gt (minSize cfg) (maxSize cfg)
  | fileSize =>
      le (minFileSize cfg) 0 || le (maxFileSize cfg) 0
      || gt (minFileSize cfg) (maxFileSize cfg)
  end.

Definition invalidNotice (cfg : Settings) : Notice :=
  match resizeMode cfg with
  | dimensions => InvalidDimensions
  | fileSize => InvalidFileSizes
  end.

(** [resizeMode === mode]. *)
Definition modeIs (mode resizeMode : ResizeMode) : bool :=
  match mode, resizeMode with
  | dimensions, dimensions | fileSize, fileSize => true
  | _, _ => false
  end.

(** The [disabled] attribute of the Convert button. *)
Definition convertDisabled (st : State) : bool :=
  loading st
  || (List.length (selectedFiles st) =? 0)%nat
  || (modeIs dimensions (resizeMode (settings st))
      && (le (minSize (settings st)) 0 || le (maxSize (settings st)) 0
          || gt (minSize (settings st)) (maxSize (settings st))))
  || (modeIs fileSize (resizeMode (settings st))
      && (le (minFileSize (settings st)) 0 || le (maxFileSize (settings st)) 0
          || gt (minFileSize (settings st)) (maxFileSize (settings st)))).

(** What [handleConvert] leaves: the state after its updates, the
    messages it set in order, and the canvas. *)
Record Outcome : Type := {
  state : State;
  notices : list Notice;
  canvas : option Canvas
}.

Definition withMessage (n : Notice) (st : State) : State :=
  {| selectedFiles := selectedFiles st;
     settings := settings st;
     resizedImages := resizedImages st;
     loading := loading st;
     message := n;
     downloadingAll := downloadingAll st |}.

Section Batch.

(** Reading the file and loading it as an image (none when either
    rejects), the canvas encoder for the image of a file, [atob], and
    whether [canvas.getContext("2d")] gives a context. *)
Variable load : File -> option Img.
Variable toDataURL : File -> Encode -> string.
Variable atob : string -> string.
Variable hasContext : bool.

(** One pass of the [for] loop: the entry pushed, the messages set, the
    canvas afterwards. *)
Definition forFile (cfg : Settings) (file : File) (canvasRef : option Canvas)
  : option ResizedImage * list Notice * option Canvas :=
  if negb (startsWith "image/" (file_type file)) then
    (None, [ForFile (SkippingNonImage (file_name file))], canvasRef)
  else
    match load file with
    | None => (None, [FailedToProcess (file_name file)], canvasRef)
    | Some img =>
        match canvasRef with
        | None => (None, [], canvasRef)
        | Some cv =>
            if negb hasContext then (None, [], canvasRef)
            else
              let p := convertFile (toDataURL file) atob cfg file img cv in
              (pushed p, map ForFile (messages p), Some (canvasAfter p))
        end
    end.

(** The [for] loop: the entries pushed to [newResizedImages], the
    messages, the canvas. *)
Fixpoint forFiles (cfg : Settings) (files : list File) (canvasRef : option Canvas)
  : list ResizedImage * list Notice * option Canvas :=
  match files with
  | [] => ([], [], canvasRef)
  | file :: rest =>
      let '(entry, notes, canvasRef) := forFile cfg file canvasRef in
      let '(entries, notes', canvasRef) := forFiles cfg rest canvasRef in
      (match entry with Some e => e :: entries | None => entries end,
       (notes ++ notes')%list, canvasRef)
  end.

Definition handleConvert (st : State) (canvasRef : option Canvas) : Outcome :=
  if (List.length (selectedFiles st) =? 0)%nat then
    {| state := withMessage PleaseSelect st;
       notices := [PleaseSelect];
       canvas := canvasRef |}
  else if invalidBounds (settings st) then
    {| state := withMessage (invalidNotice (settings st)) st;
       notices := [invalidNotice (settings st)];
       canvas := canvasRef |}
  else
    let '(newResizedImages, notes, canvasRef) :=
      forFiles (settings st) (selectedFiles st) canvasRef in
    {| state :=
         {| selectedFiles := selectedFiles st;
            settings := settings st;
            resizedImages := newResizedImages;
            loading := false;
            message := Success;
            downloadingAll := downloadingAll st |};
       notices := ([Resizing] ++ notes ++ [Success])%list;
       canvas := canvasRef |}.

(** A file converted on its own, on a fresh canvas. *)
Definition alone (cfg : Settings) (available : bool) (file : File)
  : option ResizedImage :=
  if negb (startsWith "image/" (file_type file)) then None
  else
    match load file with
    | None => None
    | Some img =>
        if available
        then pushed (convertFile (toDataURL file) atob cfg file img emptyCanvas)
        else None
    end.

End Batch.

(** Whether the loop body gets a canvas and a context. *)
Definition available (hasContext : bool) (canvasRef : option Canvas) : bool :=
  match canvasRef with Some _ => hasContext | None => false end.

(** The most renders one file can take in a mode. *)
Definition rendersPerFile (mode : ResizeMode) : nat :=
  match mode with dimensions => 1 | fileSize => 101 end.

(** [handleFileChange]: nothing happens without a file list; otherwise the
    selection is replaced and the earlier results and message are
    cleared. *)
Definition handleFileChange (fileList : option (list File)) (st : State) : State :=
  match fileList with
  | None => st
  | Some files =>
      {| selectedFiles := files;
         settings := settings st;
         resizedImages := [];
         loading := loading st;
         message := NoNotice;
         downloadingAll := downloadingAll st |}
  end.

End App.

(** The working variables of a search state, without the canvas. *)
Definition variablesOf (s : FileSize.SearchState)
  : Q * Z * Z * Q * Z * string * string * Q :=
  (FileSize.currentQuality s, FileSize.currentWidth s, FileSize.currentHeight s,
   FileSize.currentFileSizeKB s, FileSize.iterations s,
   FileSize.resizedDataUrl s, FileSize.lastValidDataUrl s,
   FileSize.lastValidFileSizeKB s).

(** ** A small batch for the examples *)

Module ToyBatch.

Import Browser Convert App.
Open Scope string_scope.

(** A 4 x 3 icon. *)
Definition icon : Img := {| width := 4; height := 3 |}.

Definition notes : File := {| file_name := "notes.txt"; file_type := "text/plain" |}.
Definition broken : File := {| file_name := "broken.png"; file_type := "image/png" |}.
Definition photoJpg : File :=
  {| file_name := "photo.final.jpg"; file_type := "image/jpeg" |}.

(** Every file but ["broken.png"] loads as the banner; every render is
    3 KB. *)
Definition load (file : File) : option Img :=
  if String.eqb (file_name file) "broken.png" then None else Some Toy.banner.

Definition toDataURL (file : File) : Encode -> string := Toy.toDataURL 0.

Definition selection : State :=
  {| selectedFiles := [Toy.photo; notes; broken; Toy.scan];
     settings := Toy.bySize;
     resizedImages := [];
     loading := false;
     message := NoNotice;
     downloadingAll := false |}.

(** The search for the icon and for the banner after the sixteen passes
    that lower the quality, with the envelope [1 KB, 2 KB]. *)
Definition stalled : FileSize.SearchState :=
  FileSize.while (Toy.toDataURL 0) Toy.atob 1 2 16
    (FileSize.initialState (Toy.toDataURL 0) Toy.atob icon emptyCanvas).

Definition shrinking : FileSize.SearchState :=
  FileSize.while (Toy.toDataURL 0) Toy.atob 1 2 16
    (FileSize.initialState (Toy.toDataURL 0) Toy.atob Toy.banner emptyCanvas).

End ToyBatch.

(** * Properties *)

(** ** Numbers *)

Section NumberFacts.

Import JS.
Open Scope Q_scope.

Lemma gt_true a b : gt a b = true <-> b < a.
Proof.
  unfold gt. rewrite negb_true_iff, <- not_true_iff_false, Qle_bool_iff.
  split; [apply Qnot_le_lt | apply Qlt_not_le].
Qed.

Lemma gt_false a b : gt a b = false <-> a <= b.
Proof. unfold gt. rewrite negb_false_iff. apply Qle_bool_iff. Qed.

Lemma lt_true a b : lt a b = true <-> a < b.
Proof. apply (gt_true b a). Qed.

Lemma lt_false a b : lt a b = false <-> b <= a.
Proof. apply (gt_false b a). Qed.

Lemma le_true a b : le a b = true <-> a <= b.
Proof. apply Qle_bool_iff. Qed.

Lemma le_false a b : le a b = false <-> b < a.
Proof.
  unfold le. rewrite <- not_true_iff_false, Qle_bool_iff.
  split; [apply Qnot_le_lt | apply Qlt_not_le].
Qed.

Lemma ge_true a b : ge a b = true <-> b <= a.
Proof. apply Qle_bool_iff. Qed.

Lemma ge_false a b : ge a b = false <-> a < b.
Proof. apply (le_false b a). Qed.

(** [Math.round x] is the integer [n] with [n <= x + 1/2 < n + 1]. *)
Lemma Math_round_bounds x :
  inject_Z (Math_round x) - (1 # 2) <= x /\ x < inject_Z (Math_round x) + (1 # 2).
Proof.
  unfold Math_round.
  pose proof (Qfloor_le (x + (1 # 2))) as Hlo.
  pose proof (Qlt_floor (x + (1 # 2))) as Hhi.
  rewrite inject_Z_plus in Hhi. change (inject_Z 1) with 1 in Hhi.
  split; lra.
Qed.

Lemma Math_round_unique x (n : Z) :
  inject_Z n - (1 # 2) <= x -> x < inject_Z n + (1 # 2) -> Math_round x = n.
Proof.
  intros Hlo Hhi. destruct (Math_round_bounds x) as [Rlo Rhi].
  assert (inject_Z (Math_round x) < inject_Z (n + 1)) as H1
    by (rewrite inject_Z_plus; change (inject_Z 1) with 1; lra).
  assert (inject_Z n < inject_Z (Math_round x + 1)) as H2
    by (rewrite inject_Z_plus; change (inject_Z 1) with 1; lra).
  rewrite <- Zlt_Qlt in H1, H2. lia.
Qed.

Lemma Math_round_Z (n : Z) : Math_round (inject_Z n) = n.
Proof. apply Math_round_unique; lra. Qed.

Lemma Math_round_comp x y : x == y -> Math_round x = Math_round y.
Proof.
  intros E. destruct (Math_round_bounds y). apply Math_round_unique; lra.
Qed.

Lemma Math_round_le x (n : Z) : x <= inject_Z n -> (Math_round x <= n)%Z.
Proof.
  intros H. destruct (Math_round_bounds x) as [Rlo _].
  assert (inject_Z (Math_round x) < inject_Z (n + 1)) as H1
    by (rewrite inject_Z_plus; change (inject_Z 1) with 1; lra).
  rewrite <- Zlt_Qlt in H1. lia.
Qed.

Lemma Math_round_ge x (n : Z) : inject_Z n <= x -> (n <= Math_round x)%Z.
Proof.
  intros H. destruct (Math_round_bounds x) as [_ Rhi].
  assert (inject_Z n < inject_Z (Math_round x + 1)) as H1
    by (rewrite inject_Z_plus; change (inject_Z 1) with 1; lra).
  rewrite <- Zlt_Qlt in H1. lia.
Qed.

Lemma Math_round_below x (n : Z) : x < inject_Z n + (1 # 2) -> (Math_round x <= n)%Z.
Proof.
  intros H. destruct (Math_round_bounds x) as [Rlo _].
  assert (inject_Z (Math_round x) < inject_Z (n + 1)) as H1
    by (rewrite inject_Z_plus; change (inject_Z 1) with 1; lra).
  rewrite <- Zlt_Qlt in H1. lia.
Qed.

Lemma Math_round_above x (n : Z) : inject_Z n - (1 # 2) <= x -> (n <= Math_round x)%Z.
Proof.
  intros H. destruct (Math_round_bounds x) as [_ Rhi].
  assert (inject_Z n < inject_Z (Math_round x + 1)) as H1
    by (rewrite inject_Z_plus; change (inject_Z 1) with 1; lra).
  rewrite <- Zlt_Qlt in H1. lia.
Qed.

End NumberFacts.

(** ** Rounding to the nearest double *)

Section Rounding.

Import JS.
Open Scope Q_scope.

(** *** Powers of two *)

Lemma pow2_pos e : 0 < 2 ^ e.
Proof. apply Qpower_0_lt. reflexivity. Qed.

Lemma pow2_plus a b : 2 ^ (a + b) == 2 ^ a * 2 ^ b.
Proof. apply Qpower_plus. discriminate. Qed.

Lemma pow2_succ k : 2 ^ (k + 1) == 2 * 2 ^ k.
Proof. rewrite pow2_plus. change (2 ^ 1) with 2. ring. Qed.

Lemma pow2_le a b : (a <= b)%Z -> 2 ^ a <= 2 ^ b.
Proof. intros H. apply Qpower_le_compat_l; [exact H | discriminate]. Qed.

Lemma pow2_lt a b : (a < b)%Z -> 2 ^ a < 2 ^ b.
Proof. intros H. apply Qpower_lt_compat_l; [exact H | reflexivity]. Qed.

Lemma pow2_Z e : (0 <= e)%Z -> 2 ^ e == inject_Z (2 ^ e).
Proof. intros H. symmetry. apply (Zpower_Qpower 2 e H). Qed.

(** *** The binary logarithm *)

(** Comparing two fractions by cross-multiplication. *)
Lemma frac_lt a b c d : 0 < b -> 0 < d -> a * d < c * b -> a / b < c / d.
Proof.
  intros Hb Hd H. apply Qlt_shift_div_l; [exact Hd |].
  setoid_replace (a / b * d) with ((a * d) / b) by (field; lra).
  apply Qlt_shift_div_r; assumption.
Qed.

Lemma frac_le a b c d : 0 < b -> 0 < d -> a * d <= c * b -> a / b <= c / d.
Proof.
  intros Hb Hd H. apply Qle_shift_div_l; [exact Hd |].
  setoid_replace (a / b * d) with ((a * d) / b) by (field; lra).
  apply Qle_shift_div_r; assumption.
Qed.

(** [ilog2 x] is the exponent of the power of two at or below [x]. *)
Lemma ilog2_spec x : 0 < x -> 2 ^ ilog2 x <= x /\ x < 2 ^ (ilog2 x + 1).
Proof.
  intros Hx. destruct x as [n d].
  assert (0 < n)%Z as Hn by (unfold Qlt in Hx; cbn in Hx; lia).
  unfold ilog2. cbn [Qnum Qden].
  destruct (Z.log2_spec n Hn) as [Ln Un].
  destruct (Z.log2_spec (Zpos d)) as [Ld Ud]; [lia |].
  pose proof (Z.log2_nonneg n) as Pn. pose proof (Z.log2_nonneg (Zpos d)) as Pd.
  set (ln := Z.log2 n) in *. set (ld := Z.log2 (Zpos d)) in *.
  assert (2 ^ ln <= inject_Z n) as Ln'
    by (rewrite pow2_Z by exact Pn; rewrite <- Zle_Qle; exact Ln).
  assert (inject_Z n < 2 * 2 ^ ln) as Un'.
  { rewrite <- pow2_succ, pow2_Z by lia. rewrite <- Zlt_Qlt.
    replace (ln + 1)%Z with (Z.succ ln) by lia. exact Un. }
  assert (2 ^ ld <= inject_Z (Zpos d)) as Ld'
    by (rewrite pow2_Z by exact Pd; rewrite <- Zle_Qle; exact Ld).
  assert (inject_Z (Zpos d) < 2 * 2 ^ ld) as Ud'.
  { rewrite <- pow2_succ, pow2_Z by lia. rewrite <- Zlt_Qlt.
    replace (ld + 1)%Z with (Z.succ ld) by lia. exact Ud. }
  pose proof (pow2_pos ln) as PA. pose proof (pow2_pos ld) as PB.
  assert (2 ^ (ln - ld) == 2 ^ ln / 2 ^ ld) as Ek.
  { unfold Z.sub. rewrite pow2_plus, Qpower_opp. reflexivity. }
  assert (n # d == inject_Z n / inject_Z (Zpos d)) as Ex by apply Qmake_Qdiv.
  set (N := inject_Z n) in *. set (D := inject_Z (Zpos d)) in *.
  set (A := 2 ^ ln) in *. set (B := 2 ^ ld) in *.
  assert (0 < D) as PD by lra.
  destruct (Qle_bool (2 ^ (ln - ld)) (n # d)) eqn:Hcmp.
  - apply Qle_bool_iff in Hcmp. split; [exact Hcmp |].
    rewrite pow2_succ, Ek, Ex.
    setoid_replace (2 * (A / B)) with ((2 * A) / B) by (field; lra).
    apply frac_lt; try assumption. nra.
  - assert (n # d < 2 ^ (ln - ld)) as Hlt.
    { apply Qnot_le_lt. intros Hle. apply Qle_bool_iff in Hle. congruence. }
    replace (ln - ld - 1 + 1)%Z with (ln - ld)%Z by lia.
    split; [| exact Hlt].
    replace (ln - ld - 1)%Z with (ln - ld + - 1)%Z by lia.
    rewrite pow2_plus, Ek, Ex. change (2 ^ (-1)) with (1 # 2).
    setoid_replace (A / B * (1 # 2)) with (A / (2 * B)) by (field; lra).
    apply frac_le; try lra. nra.
Qed.

Lemma ilog2_unique x k : 2 ^ k <= x -> x < 2 ^ (k + 1) -> ilog2 x = k.
Proof.
  intros Lo Hi.
  assert (0 < x) as Hx by (pose proof (pow2_pos k); lra).
  destruct (ilog2_spec x Hx) as [Lo' Hi'].
  destruct (Z.lt_trichotomy (ilog2 x) k) as [H | [H | H]]; [| exact H |].
  - pose proof (pow2_le (ilog2 x + 1) k ltac:(lia)). lra.
  - pose proof (pow2_le (k + 1) (ilog2 x) ltac:(lia)). lra.
Qed.

Lemma ilog2_comp x y : 0 < x -> x == y -> ilog2 x = ilog2 y.
Proof.
  intros Hx E. assert (0 < y) as Hy by lra.
  destruct (ilog2_spec y Hy) as [Lo Hi].
  apply ilog2_unique; lra.
Qed.

Lemma ilog2_le x y : 0 < x -> x <= y -> (ilog2 x <= ilog2 y)%Z.
Proof.
  intros Hx Hxy. assert (0 < y) as Hy by lra.
  destruct (ilog2_spec x Hx) as [Lo _]. destruct (ilog2_spec y Hy) as [_ Hi].
  destruct (Z_le_gt_dec (ilog2 x) (ilog2 y)) as [H | H]; [exact H |].
  pose proof (pow2_le (ilog2 y + 1) (ilog2 x) ltac:(lia)). lra.
Qed.

(** *** The nearest integer *)

(** The nearest integer is within a half of [y]. *)
Lemma roundHalfEven_bounds y :
  inject_Z (roundHalfEven y) - (1 # 2) <= y /\
  y <= inject_Z (roundHalfEven y) + (1 # 2).
Proof.
  unfold roundHalfEven.
  pose proof (Qfloor_le y) as Hlo. pose proof (Qlt_floor y) as Hhi.
  rewrite inject_Z_plus in Hhi. change (inject_Z 1) with 1 in Hhi.
  destruct (Qcompare_spec (y - inject_Z (Qfloor y)) (1 # 2)) as [E | E | E].
  - destruct (Z.even (Qfloor y));
      rewrite ?inject_Z_plus; change (inject_Z 1) with 1; split; lra.
  - split; lra.
  - rewrite inject_Z_plus. change (inject_Z 1) with 1. split; lra.
Qed.

Lemma roundHalfEven_comp y y' : y == y' -> roundHalfEven y = roundHalfEven y'.
Proof.
  intros E. unfold roundHalfEven.
  rewrite <- (Qfloor_comp _ _ E).
  assert (y - inject_Z (Qfloor y) == y' - inject_Z (Qfloor y)) as E'
    by lra.
  rewrite (Qcompare_comp _ _ E' _ _ (Qeq_refl (1 # 2))). reflexivity.
Qed.

(** Integers are left alone, and the rounding is monotone. *)
Lemma roundHalfEven_Z n : roundHalfEven (inject_Z n) = n.
Proof.
  unfold roundHalfEven. rewrite Qfloor_Z.
  destruct (Qcompare_spec (inject_Z n - inject_Z n) (1 # 2)) as [E | E | E];
    [exfalso; lra | reflexivity | exfalso; lra].
Qed.

Lemma roundHalfEven_mono y y' : y <= y' -> (roundHalfEven y <= roundHalfEven y')%Z.
Proof.
  intros Hle.
  destruct (roundHalfEven_bounds y) as [Hy _].
  destruct (roundHalfEven_bounds y') as [_ Hy'].
  destruct (Z_le_gt_dec (roundHalfEven y) (roundHalfEven y')) as [H | H];
    [exact H | exfalso].
  assert (inject_Z (roundHalfEven y' + 1) <= inject_Z (roundHalfEven y)) as H1
    by (rewrite <- Zle_Qle; lia).
  rewrite inject_Z_plus in H1. change (inject_Z 1) with 1 in H1.
  assert (y == y') as E by lra.
  rewrite (roundHalfEven_comp _ _ E) in H. lia.
Qed.

Lemma roundHalfEven_le y n : y <= inject_Z n -> (roundHalfEven y <= n)%Z.
Proof.
  intros H. rewrite <- (roundHalfEven_Z n). apply roundHalfEven_mono. exact H.
Qed.

Lemma roundHalfEven_ge y n : inject_Z n <= y -> (n <= roundHalfEven y)%Z.
Proof.
  intros H. rewrite <- (roundHalfEven_Z n) at 1. apply roundHalfEven_mono. exact H.
Qed.

(** *** The nearest double *)

(** The last place of a positive number, and its growth with the number. *)
Lemma lastPlace_pos x : 0 < x -> lastPlace x = Z.max (ilog2 x - 52) (-1074).
Proof.
  intros Hx. unfold lastPlace.
  assert (Qabs x == x) as E by (apply Qabs_pos; lra).
  rewrite (ilog2_comp (Qabs x) x); [reflexivity | lra | exact E].
Qed.

Lemma lastPlace_le x y : 0 < x -> x <= y -> (lastPlace x <= lastPlace y)%Z.
Proof.
  intros Hx Hxy. rewrite !lastPlace_pos by lra.
  pose proof (ilog2_le x y Hx Hxy). lia.
Qed.

(** Scaling by the last place and back. *)
Lemma scaled x e : x / 2 ^ e * 2 ^ e == x.
Proof. pose proof (pow2_pos e). field. lra. Qed.

(** The rounding error is at most half a unit in the last place. *)
Lemma round64_near x :
  round64 x - 2 ^ lastPlace x * (1 # 2) <= x /\
  x <= round64 x + 2 ^ lastPlace x * (1 # 2).
Proof.
  unfold round64. set (e := lastPlace x).
  pose proof (pow2_pos e) as Hp.
  destruct (roundHalfEven_bounds (x / 2 ^ e)) as [Lo Hi].
  pose proof (scaled x e) as Ex.
  set (y := x / 2 ^ e) in *. set (r := inject_Z (roundHalfEven y)) in *.
  set (p := 2 ^ e) in *.
  split.
  - assert ((r - (1 # 2)) * p <= y * p) as H
      by (apply Qmult_le_compat_r; lra).
    lra.
  - assert (y * p <= (r + (1 # 2)) * p) as H
      by (apply Qmult_le_compat_r; lra).
    lra.
Qed.

(** A multiple of the last place that bounds [x] bounds its rounding. *)
Lemma round64_le_multiple x n e :
  lastPlace x = e -> x <= inject_Z n * 2 ^ e -> round64 x <= inject_Z n * 2 ^ e.
Proof.
  intros He Hx. unfold round64. rewrite He.
  pose proof (pow2_pos e) as Hp.
  apply Qmult_le_compat_r; [| lra].
  rewrite <- Zle_Qle. apply roundHalfEven_le.
  apply Qle_shift_div_r; assumption.
Qed.

Lemma round64_ge_multiple x n e :
  lastPlace x = e -> inject_Z n * 2 ^ e <= x -> inject_Z n * 2 ^ e <= round64 x.
Proof.
  intros He Hx. unfold round64. rewrite He.
  pose proof (pow2_pos e) as Hp.
  apply Qmult_le_compat_r; [| lra].
  rewrite <- Zle_Qle. apply roundHalfEven_ge.
  apply Qle_shift_div_l; assumption.
Qed.

(** Powers of two at or above the last place are multiples of it. *)
Lemma pow2_multiple k e : (e <= k)%Z -> 2 ^ k == inject_Z (2 ^ (k - e)) * 2 ^ e.
Proof.
  intros H. rewrite <- pow2_Z by lia. rewrite <- pow2_plus.
  replace (k - e + e)%Z with k by lia. reflexivity.
Qed.

Lemma round64_le_pow2 x k :
  (lastPlace x <= k)%Z -> x <= 2 ^ k -> round64 x <= 2 ^ k.
Proof.
  intros He Hx. rewrite (pow2_multiple k (lastPlace x) He) in *.
  apply round64_le_multiple; [reflexivity | exact Hx].
Qed.

Lemma round64_ge_pow2 x k :
  (lastPlace x <= k)%Z -> 2 ^ k <= x -> 2 ^ k <= round64 x.
Proof.
  intros He Hx. rewrite (pow2_multiple k (lastPlace x) He) in *.
  apply round64_ge_multiple; [reflexivity | exact Hx].
Qed.

(** Rounding is monotone on the positive numbers. *)
Lemma round64_mono_pos x y : 0 < x -> x <= y -> round64 x <= round64 y.
Proof.
  intros Hx Hxy. assert (0 < y) as Hy by lra.
  pose proof (lastPlace_le x y Hx Hxy) as He.
  destruct (Z.eq_dec (lastPlace x) (lastPlace y)) as [E | NE].
  - unfold round64. rewrite E. set (e := lastPlace y).
    pose proof (pow2_pos e) as Hp.
    apply Qmult_le_compat_r; [| lra].
    rewrite <- Zle_Qle. apply roundHalfEven_mono.
    apply Qmult_le_compat_r; [exact Hxy |].
    apply Qlt_le_weak, Qinv_lt_0_compat, Hp.
  - pose proof (lastPlace_pos x Hx) as Ex. pose proof (lastPlace_pos y Hy) as Ey.
    destruct (ilog2_spec x Hx) as [_ Ux]. destruct (ilog2_spec y Hy) as [Ly _].
    pose proof (pow2_le (ilog2 x + 1) (ilog2 y) ltac:(lia)) as Hk.
    apply Qle_trans with (2 ^ ilog2 y).
    + apply round64_le_pow2; [lia | lra].
    + apply round64_ge_pow2; [lia | lra].
Qed.

(** A positive number that is a multiple of its last place is a double. *)
Lemma round64_multiple x n :
  x == inject_Z n * 2 ^ lastPlace x -> round64 x == x.
Proof.
  intros E. unfold round64. set (e := lastPlace x) in *.
  pose proof (pow2_pos e) as Hp.
  rewrite (roundHalfEven_comp (x / 2 ^ e) (inject_Z n))
    by (rewrite E; field; lra).
  rewrite roundHalfEven_Z. symmetry. exact E.
Qed.

(** Integers up to [2^53] are doubles. *)
Lemma round64_Z z : (0 < z <= 2 ^ 53)%Z -> round64 (inject_Z z) == inject_Z z.
Proof.
  intros Hz.
  assert (0 < inject_Z z) as Hpos
    by (change 0 with (inject_Z 0); rewrite <- Zlt_Qlt; lia).
  destruct (Z.eq_dec z (2 ^ 53)) as [-> | NE]; [reflexivity |].
  destruct (ilog2_spec _ Hpos) as [Lo Hi].
  set (k := ilog2 (inject_Z z)) in *.
  assert (k < 53)%Z as Hk.
  { destruct (Z_lt_ge_dec k 53) as [H | H]; [exact H | exfalso].
    pose proof (pow2_le 53 k ltac:(lia)) as H1.
    assert (inject_Z (2 ^ 53) <= inject_Z z) as H2
      by (rewrite <- pow2_Z by lia; lra).
    rewrite <- Zle_Qle in H2. lia. }
  assert (0 <= k)%Z as Hk0.
  { destruct (Z_le_gt_dec 0 k) as [H | H]; [exact H | exfalso].
    pose proof (pow2_le (k + 1) 0 ltac:(lia)) as H1. change (2 ^ 0) with 1 in H1.
    assert (inject_Z z < inject_Z 1) as H2 by (change (inject_Z 1) with 1; lra).
    rewrite <- Zlt_Qlt in H2. lia. }
  assert (lastPlace (inject_Z z) = k - 52)%Z as He
    by (rewrite lastPlace_pos by exact Hpos; fold k; lia).
  apply (round64_multiple _ (z * 2 ^ (52 - k))).
  rewrite He, inject_Z_mult, <- pow2_Z by lia.
  rewrite <- Qmult_assoc, <- pow2_plus.
  replace (52 - k + (k - 52))%Z with 0%Z by lia. change (2 ^ 0) with 1. ring.
Qed.

(** In the normal range the relative error is at most [2^-53]. *)
Lemma round64_error x :
  2 ^ (-1022) <= x ->
  x * (1 - 2 ^ (-53)) <= round64 x /\ round64 x <= x * (1 + 2 ^ (-53)).
Proof.
  intros Hn.
  assert (0 < x) as Hx by (pose proof (pow2_pos (-1022)); lra).
  destruct (ilog2_spec x Hx) as [Lo Hi].
  assert (-1022 <= ilog2 x)%Z as Hk.
  { destruct (Z_le_gt_dec (-1022) (ilog2 x)) as [H | H]; [exact H | exfalso].
    pose proof (pow2_le (ilog2 x + 1) (-1022) ltac:(lia)). lra. }
  assert (lastPlace x = ilog2 x + - 53 + 1)%Z as He
    by (rewrite lastPlace_pos by exact Hx; lia).
  destruct (round64_near x) as [N1 N2]. rewrite He in N1, N2.
  rewrite pow2_succ, pow2_plus in N1, N2.
  set (p := 2 ^ ilog2 x) in *. set (u := 2 ^ (-53)) in *.
  assert (0 < u) as Hu by apply pow2_pos.
  assert (p * u <= x * u) as H by (apply Qmult_le_compat_r; lra).
  split; lra.
Qed.

(** Zero is a double, and rounding respects equality of rationals. *)
Lemma round64_zero x : x == 0 -> round64 x == 0.
Proof.
  intros E. unfold round64. generalize (2 ^ lastPlace x). intros p.
  rewrite (roundHalfEven_comp (x / p) (inject_Z 0)).
  - rewrite roundHalfEven_Z. ring.
  - rewrite E. unfold Qdiv. ring.
Qed.

Lemma round64_proper x y : x == y -> round64 x == round64 y.
Proof.
  intros E. destruct (Qeq_dec x 0) as [Z | NZ].
  - rewrite (round64_zero x Z), (round64_zero y); [reflexivity | lra].
  - assert (lastPlace x = lastPlace y) as He.
    { unfold lastPlace. rewrite (ilog2_comp (Qabs x) (Qabs y)); [reflexivity | |].
      - destruct (Qlt_le_dec 0 x) as [P | N].
        + rewrite Qabs_pos; lra.
        + rewrite Qabs_neg by exact N.
          destruct (Qeq_dec x 0); [contradiction | lra].
      - rewrite E. reflexivity. }
    unfold round64. rewrite <- He.
    rewrite (roundHalfEven_comp (x / 2 ^ lastPlace x) (y / 2 ^ lastPlace x));
      [reflexivity | generalize (2 ^ lastPlace x); intros p; rewrite E; reflexivity].
Qed.

Lemma round64_nonneg x : 0 <= x -> 0 <= round64 x.
Proof.
  intros Hx.
  setoid_replace 0 with (inject_Z 0 * 2 ^ lastPlace x) by ring.
  apply round64_ge_multiple; [reflexivity |].
  setoid_replace (inject_Z 0 * 2 ^ lastPlace x) with 0 by ring. exact Hx.
Qed.

Lemma round64_one : round64 1 == 1.
Proof. reflexivity. Qed.

(** Rounding is monotone. *)
Lemma round64_mono x y : 0 <= x -> x <= y -> round64 x <= round64 y.
Proof.
  intros Hx Hxy. destruct (Qlt_le_dec 0 x) as [P | N].
  - apply round64_mono_pos; assumption.
  - rewrite (round64_zero x) by lra. apply round64_nonneg. lra.
Qed.

(** *** [round64] rounds to a nearest double *)

(** No integer is nearer to [y] than [roundHalfEven y]. *)
Lemma roundHalfEven_nearest y j :
  Qabs (inject_Z (roundHalfEven y) - y) <= Qabs (inject_Z j - y).
Proof.
  destruct (roundHalfEven_bounds y) as [Lo Hi].
  apply Qabs_Qle_condition.
  destruct (Z.lt_trichotomy j (roundHalfEven y)) as [H | [H | H]].
  - assert (inject_Z j + 1 <= inject_Z (roundHalfEven y)) as H1
      by (change 1 with (inject_Z 1); rewrite <- inject_Z_plus, <- Zle_Qle; lia).
    rewrite Qabs_neg by lra. split; lra.
  - subst j. destruct (Qlt_le_dec (inject_Z (roundHalfEven y) - y) 0) as [N | P].
    + rewrite Qabs_neg by lra. split; lra.
    + rewrite Qabs_pos by lra. split; lra.
  - assert (inject_Z (roundHalfEven y) + 1 <= inject_Z j) as H1
      by (change 1 with (inject_Z 1); rewrite <- inject_Z_plus, <- Zle_Qle; lia).
    rewrite Qabs_pos by lra. split; lra.
Qed.

(** No multiple of the last place of [x] is nearer to [x] than
    [round64 x]. *)
Lemma round64_nearest_multiple x j :
  Qabs (round64 x - x) <= Qabs (inject_Z j * 2 ^ lastPlace x - x).
Proof.
  unfold round64. set (e := lastPlace x).
  pose proof (pow2_pos e) as Hp. pose proof (scaled x e) as Ex.
  pose proof (roundHalfEven_nearest (x / 2 ^ e) j) as H.
  set (t := x / 2 ^ e) in *. set (n := inject_Z (roundHalfEven t)) in *.
  setoid_replace (n * 2 ^ e - x) with ((n - t) * 2 ^ e) by (rewrite <- Ex; ring).
  setoid_replace (inject_Z j * 2 ^ e - x) with ((inject_Z j - t) * 2 ^ e)
    by (rewrite <- Ex; ring).
  rewrite !Qabs_Qmult, (Qabs_pos (2 ^ e)) by lra.
  apply Qmult_le_compat_r; lra.
Qed.

(** A double is a multiple of its last place, and of every place below. *)
Lemma double_multiple y e :
  round64 y == y -> (e <= lastPlace y)%Z ->
  exists j, y == inject_Z j * 2 ^ e.
Proof.
  intros D He. exists (roundHalfEven (y / 2 ^ lastPlace y) * 2 ^ (lastPlace y - e))%Z.
  rewrite inject_Z_mult, <- pow2_Z by lia.
  rewrite <- Qmult_assoc, <- pow2_plus.
  replace (lastPlace y - e + e)%Z with (lastPlace y) by lia.
  symmetry. exact D.
Qed.

(** [round64 x] is a double nearest to [x]: no double is nearer. *)
Lemma round64_nearest x y :
  0 <= x -> 0 <= y -> round64 y == y -> Qabs (round64 x - x) <= Qabs (y - x).
Proof.
  intros Hx Hy D.
  destruct (Qeq_dec y 0) as [Zy | NZy].
  { pose proof (round64_nearest_multiple x 0) as H.
    setoid_replace (y - x) with (inject_Z 0 * 2 ^ lastPlace x - x)
      by (rewrite Zy; ring). exact H. }
  destruct (Qeq_dec x 0) as [Zx | NZx].
  { rewrite (round64_zero x Zx). rewrite Zx.
    setoid_replace (0 - 0) with 0 by ring. apply Qabs_nonneg. }
  assert (0 < x) as Px by lra. assert (0 < y) as Py by lra.
  destruct (Z_le_gt_dec (lastPlace x) (lastPlace y)) as [Hle | Hgt].
  - destruct (double_multiple y (lastPlace x) D Hle) as [j Ej].
    rewrite Ej. apply round64_nearest_multiple.
  - (* [y] lies in a lower binade than [x] *)
    pose proof (lastPlace_pos x Px) as Ex. pose proof (lastPlace_pos y Py) as Ey.
    destruct (ilog2_spec x Px) as [Lx _]. destruct (ilog2_spec y Py) as [_ Uy].
    pose proof (pow2_le (ilog2 y + 1) (ilog2 x) ltac:(lia)) as Hk.
    pose proof (round64_nearest_multiple x (2 ^ 52)) as H.
    assert (inject_Z (2 ^ 52) * 2 ^ lastPlace x == 2 ^ ilog2 x) as E2.
    { rewrite <- pow2_Z by lia. rewrite <- pow2_plus.
      replace (52 + lastPlace x)%Z with (ilog2 x) by lia. reflexivity. }
    rewrite E2 in H.
    rewrite (Qabs_neg (2 ^ ilog2 x - x)) in H by lra.
    rewrite (Qabs_neg (y - x)) by lra. lra.
Qed.

(** [round64 x] is a double. *)
Lemma round64_idempotent x : 0 <= x -> round64 (round64 x) == round64 x.
Proof.
  intros Hx. destruct (Qeq_dec (round64 x) 0) as [Z | NZ].
  { rewrite (round64_zero _ Z). symmetry. exact Z. }
  pose proof (round64_nonneg x Hx) as Hr.
  assert (0 < round64 x) as Pr by lra.
  assert (0 < x) as Px.
  { destruct (Qlt_le_dec 0 x) as [P | N]; [exact P | exfalso].
    apply NZ. apply round64_zero. lra. }
  pose proof (lastPlace_pos x Px) as Ex. pose proof (lastPlace_pos _ Pr) as Er.
  destruct (ilog2_spec x Px) as [Lx Ux]. destruct (ilog2_spec _ Pr) as [Lr Ur].
  set (k := ilog2 x) in *. set (e := lastPlace x) in *.
  destruct (Z_lt_ge_dec (k - 52) (-1074)) as [Sub | Nor].
  - (* subnormal: the last place stays [-1074] *)
    assert (e = -1074)%Z as He by lia.
    assert (round64 x <= 2 ^ (-1022)) as Hb.
    { apply round64_le_pow2; [fold e; lia |].
      pose proof (pow2_le (k + 1) (-1022) ltac:(lia)). lra. }
    assert (ilog2 (round64 x) <= -1022)%Z as Hkr.
    { destruct (Z_le_gt_dec (ilog2 (round64 x)) (-1022)) as [H | H];
        [exact H | exfalso].
      pose proof (pow2_lt (-1022) (ilog2 (round64 x)) ltac:(lia)). lra. }
    apply (round64_multiple _ (roundHalfEven (x / 2 ^ e))).
    replace (lastPlace (round64 x)) with e by lia. reflexivity.
  - assert (e = k - 52)%Z as He by lia.
    assert (2 ^ k <= round64 x) as Hlo
      by (apply round64_ge_pow2; [fold e; lia | exact Lx]).
    assert (round64 x <= 2 ^ (k + 1)) as Hhi
      by (apply round64_le_pow2; [fold e; lia | lra]).
    destruct (Qlt_le_dec (round64 x) (2 ^ (k + 1))) as [In | Top].
    + assert (ilog2 (round64 x) = k) as Hkr by (apply ilog2_unique; assumption).
      apply (round64_multiple _ (roundHalfEven (x / 2 ^ e))).
      replace (lastPlace (round64 x)) with e by lia. reflexivity.
    + assert (round64 x == 2 ^ (k + 1)) as Et by lra.
      assert (ilog2 (round64 x) = k + 1)%Z as Hkr.
      { apply ilog2_unique; [lra |].
        pose proof (pow2_lt (k + 1) (k + 1 + 1) ltac:(lia)). lra. }
      apply (round64_multiple _ (2 ^ 52)).
      apply Qeq_trans with (2 ^ (k + 1)); [exact Et |].
      rewrite <- pow2_Z by lia. rewrite <- pow2_plus.
      replace (52 + lastPlace (round64 x))%Z with (k + 1)%Z by lia. reflexivity.
Qed.


(** The doubles are the numbers [m * 2^e] with a significand [m] of at
    most 53 bits and [e] no lower than [-1074]: each of them is left
    alone by [round64] ... *)
Lemma round64_representable m e :
  (0 < m < 2 ^ 53)%Z -> (-1074 <= e)%Z ->
  round64 (inject_Z m * 2 ^ e) == inject_Z m * 2 ^ e.
Proof.
  intros Hm He.
  assert (0 < inject_Z m) as Pm
    by (change 0 with (inject_Z 0); rewrite <- Zlt_Qlt; lia).
  pose proof (pow2_pos e) as Pe.
  assert (0 < inject_Z m * 2 ^ e) as Px by (apply Qmult_lt_0_compat; assumption).
  destruct (ilog2_spec _ Pm) as [Lo Hi].
  set (k := ilog2 (inject_Z m)) in *.
  assert (k < 53)%Z as Hk.
  { destruct (Z_lt_ge_dec k 53) as [H | H]; [exact H | exfalso].
    pose proof (pow2_le 53 k ltac:(lia)) as H1.
    assert (inject_Z (2 ^ 53) <= inject_Z m) as H2
      by (rewrite <- pow2_Z by lia; lra).
    rewrite <- Zle_Qle in H2. lia. }
  assert (ilog2 (inject_Z m * 2 ^ e) = k + e)%Z as Hx.
  { apply ilog2_unique.
    - rewrite pow2_plus. apply Qmult_le_compat_r; lra.
    - replace (k + e + 1)%Z with (k + 1 + e)%Z by lia. rewrite pow2_plus.
      apply Qmult_lt_compat_r; lra. }
  assert (lastPlace (inject_Z m * 2 ^ e) <= e)%Z as Hl
    by (rewrite lastPlace_pos by exact Px; lia).
  set (l := lastPlace (inject_Z m * 2 ^ e)) in *.
  apply (round64_multiple _ (m * 2 ^ (e - l))). fold l.
  rewrite inject_Z_mult, <- pow2_Z by lia.
  rewrite <- Qmult_assoc, <- pow2_plus.
  replace (e - l + l)%Z with e by lia. reflexivity.
Qed.

(** ... and [round64 x] is one of them. *)
Lemma round64_significand x :
  0 <= x ->
  (0 <= roundHalfEven (x / 2 ^ lastPlace x) <= 2 ^ 53)%Z /\
  (-1074 <= lastPlace x)%Z.
Proof.
  intros Hx. pose proof (pow2_pos (lastPlace x)) as Hp.
  split; [| unfold lastPlace; lia]. split.
  - apply roundHalfEven_ge. change (inject_Z 0) with 0.
    apply Qle_shift_div_l; [exact Hp | lra].
  - destruct (Qeq_dec x 0) as [Z | NZ].
    + rewrite (roundHalfEven_comp _ (inject_Z 0))
        by (generalize (2 ^ lastPlace x); intros p; rewrite Z; unfold Qdiv; ring).
      rewrite roundHalfEven_Z. lia.
    + assert (0 < x) as Px by lra.
      destruct (ilog2_spec x Px) as [_ Ux].
      pose proof (lastPlace_pos x Px) as El.
      apply roundHalfEven_le. rewrite <- pow2_Z by lia.
      apply Qle_shift_div_r; [exact Hp |]. rewrite <- pow2_plus.
      pose proof (pow2_le (ilog2 x + 1) (53 + lastPlace x) ltac:(lia)). lra.
Qed.

End Rounding.

(** ** The two clamp passes *)

Section DimensionFacts.

Import JS Dimension.
Open Scope Q_scope.

Lemma exceedsMax_false M w h : exceedsMax M (w, h) = false <-> w <= M /\ h <= M.
Proof. unfold exceedsMax. rewrite orb_false_iff, !gt_false. tauto. Qed.

Lemma exceedsMax_true M w h : exceedsMax M (w, h) = true <-> M < w \/ M < h.
Proof. unfold exceedsMax. rewrite orb_true_iff, !gt_true. tauto. Qed.

Lemma belowMin_false m w h : belowMin m (w, h) = false <-> m <= w /\ m <= h.
Proof. unfold belowMin. rewrite orb_false_iff, !lt_false. tauto. Qed.

Lemma belowMin_true m w h : belowMin m (w, h) = true <-> w < m \/ h < m.
Proof. unfold belowMin. rewrite orb_true_iff, !lt_true. tauto. Qed.

(** The envelopes that [handleConvert] accepts. *)
Lemma invalidEnvelope_false (minSize maxSize : Z) :
  invalidEnvelope (inject_Z minSize) (inject_Z maxSize) = false ->
  (0 < minSize)%Z /\ (minSize <= maxSize)%Z.
Proof.
  unfold invalidEnvelope. rewrite !orb_false_iff, !le_false, gt_false.
  change 0 with (inject_Z 0). rewrite <- !Zlt_Qlt, <- Zle_Qle. tauto.
Qed.

(** [(a / b) * m] for sides [a <= b]: the result is a double between 0
    and [m]. *)
Lemma scaled_side_le a b m :
  0 <= a -> a <= b -> 0 < b -> 0 < m -> round64 m == m ->
  0 <= mul (div a b) m /\ mul (div a b) m <= m.
Proof.
  intros Ha Hab Hb Hm Dm. unfold mul, div.
  assert (0 <= a / b) as Hq by (apply Qle_shift_div_l; lra).
  assert (a / b <= 1) as Hq1 by (apply Qle_shift_div_r; lra).
  pose proof (round64_mono _ _ Hq Hq1) as H1. rewrite round64_one in H1.
  pose proof (round64_nonneg (a / b) Hq) as H0.
  assert (0 <= round64 (a / b) * m) as Hp by (apply Qmult_le_0_compat; lra).
  split; [apply round64_nonneg; exact Hp |].
  rewrite <- Dm at 2. apply round64_mono; [exact Hp |].
  setoid_replace m with (1 * m) at 2 by ring.
  apply Qmult_le_compat_r; lra.
Qed.

(** The same product within two roundings of the exact one, for sides of
    at most [2^50] pixels and a bound of at least one pixel. *)
Lemma scaled_side_near a b m :
  1 <= a -> a <= b -> b <= 1125899906842624 -> 1 <= m ->
  a / b * m * (1 - (1 # 9007199254740992)) * (1 - (1 # 9007199254740992))
    <= mul (div a b) m /\
  mul (div a b) m
    <= a / b * m * (1 + (1 # 9007199254740992)) * (1 + (1 # 9007199254740992)).
Proof.
  intros Ha Hab Hb Hm. unfold mul, div.
  assert (1 # 1125899906842624 <= a / b) as Hq.
  { apply Qle_shift_div_l; [lra |]. lra. }
  pose proof (pow2_le (-1022) (-50) ltac:(lia)) as Hn1.
  change (2 ^ (-50)) with (1 # 1125899906842624) in Hn1.
  destruct (round64_error (a / b)) as [L1 U1]; [lra |].
  change (2 ^ (-53)) with (1 # 9007199254740992) in L1, U1.
  set (x := a / b) in *. set (q := round64 x) in *.
  assert (x * (1 - (1 # 9007199254740992)) * m <= q * m) as L2
    by (apply Qmult_le_compat_r; lra).
  assert (q * m <= x * (1 + (1 # 9007199254740992)) * m) as U2
    by (apply Qmult_le_compat_r; lra).
  assert ((1 # 1125899906842624) * (1 # 2) * 1 <= x * (1 - (1 # 9007199254740992)) * m) as L3.
  { apply Qle_trans with (x * (1 - (1 # 9007199254740992)) * 1).
    - apply Qmult_le_compat_r; [| lra]. lra.
    - apply Qmult_le_l; [| exact Hm].
      apply Qmult_lt_0_compat; lra. }
  pose proof (pow2_le (-1022) (-51) ltac:(lia)) as Hn2.
  change (2 ^ (-51)) with (1 # 2251799813685248) in Hn2.
  destruct (round64_error (q * m)) as [L4 U4]; [lra |].
  change (2 ^ (-53)) with (1 # 9007199254740992) in L4, U4.
  split; lra.
Qed.

Lemma resizeDimensions_eq W H m M :
  resizeDimensions W H m M =
  (Math_round (fst (clamp W H m M)), Math_round (snd (clamp W H m M))).
Proof. unfold resizeDimensions. destruct (clamp W H m M); reflexivity. Qed.

End DimensionFacts.

(** ** The dimension resizer *)

Section DimensionResults.

Import JS Dimension.
Open Scope Q_scope.

(** C1: a 50 x 100 image with the envelope [100, 800] is given a canvas
    of 50 x 100, its width below the minimum.  The min pass fires because
    the width is below [minSize], and then puts the longer side, the
    height, on [minSize], where it already is.  A size that meets the
    claim exists for this image: 100 x 200 lies in the envelope and has
    the same aspect ratio. *)
Theorem resizeDimensions_below_min :
  invalidEnvelope (inject_Z 100) (inject_Z 800) = false /\
  belowMin (inject_Z 100) (inject_Z 50, inject_Z 100) = true /\
  resizeDimensions 50 100 (inject_Z 100) (inject_Z 800) = (50, 100)%Z /\
  ~ withinEnvelope 100 800 (resizeDimensions 50 100 (inject_Z 100) (inject_Z 800)) /\
  withinEnvelope 100 800 (100, 200)%Z /\ (100 * 100 = 200 * 50)%Z.
Proof.
  split; [reflexivity |]. split; [reflexivity |]. split; [reflexivity |].
  split; [| split; [unfold withinEnvelope; cbn; lia | reflexivity]].
  unfold withinEnvelope.
  replace (resizeDimensions 50 100 (inject_Z 100) (inject_Z 800)) with (50, 100)%Z
    by reflexivity.
  cbn. lia.
Qed.

(** C7: with the envelope [100, 800.5] an 8000 x 1002 image is given a
    canvas of 801 x 100, and an 801 x 100 image with the same envelope one
    of 100 x 12.  [Math.round] is the last step, so the first output is
    over the maximum; on the second run the max pass fires and leaves the
    height just under [minSize], and the min pass then puts the longer
    side, the width, on [minSize].  With a whole-pixel envelope the output
    need not lie in the envelope either: for a 50 x 100 image and
    [100, 800] it is 50 x 100, and the min pass fires on it again. *)
Theorem resizeDimensions_not_idempotent :
  invalidEnvelope (inject_Z 100) (1601 # 2) = false /\
  double (1601 # 2) /\
  resizeDimensions 8000 1002 (inject_Z 100) (1601 # 2) = (801, 100)%Z /\
  resizeDimensions 801 100 (inject_Z 100) (1601 # 2) = (100, 12)%Z /\
  resizeDimensions 50 100 (inject_Z 100) (inject_Z 800) = (50, 100)%Z /\
  belowMin (inject_Z 100) (inject_Z 50, inject_Z 100) = true.
Proof.
  split; [reflexivity |].
  split; [split; vm_compute; reflexivity |].
  repeat split; vm_compute; reflexivity.
Qed.

(** C8: a 4000 x 10 image with the envelope [100, 800] is given a canvas
    of height 0; [Math.round] is the last step, nothing raises the result
    to 1. *)
Theorem resizeDimensions_zero_height :
  resizeDimensions 4000 10 (inject_Z 100) (inject_Z 800) = (100, 0)%Z.
Proof. vm_compute. reflexivity. Qed.

End DimensionResults.

(** ** The file-size search *)

Section SearchFacts.

Import JS Browser FileSize.
Open Scope Q_scope.

Variable toDataURL : Encode -> string.
Variable atob : string -> string.
Variables minFileSize maxFileSize : Q.

Local Abbreviation rerender := (rerender toDataURL atob).
Local Abbreviation renderOf := (renderOf toDataURL atob).
Local Abbreviation iteration := (iteration toDataURL atob minFileSize maxFileSize).
Local Abbreviation loopGuard := (loopGuard maxFileSize).
Local Abbreviation while := (while toDataURL atob minFileSize maxFileSize).
Local Abbreviation runs := (runs toDataURL atob minFileSize maxFileSize).
Local Abbreviation initialState := (initialState toDataURL atob).
Local Abbreviation sizeKB := (sizeKB atob).
Local Abbreviation tracked := (tracked toDataURL atob).
Local Abbreviation remembered := (remembered maxFileSize).
Local Abbreviation inEnvelope := (inEnvelope minFileSize maxFileSize).
Local Abbreviation resizeToFileSize := (resizeToFileSize toDataURL atob minFileSize maxFileSize).
Local Abbreviation statusOf := (statusOf minFileSize maxFileSize).

Lemma rerender_fields s :
  currentQuality (rerender s) = fst (fst (adjust s)) /\
  currentWidth (rerender s) = snd (fst (adjust s)) /\
  currentHeight (rerender s) = snd (adjust s) /\
  iterations (rerender s) = (iterations s + 1)%Z /\
  resizedDataUrl (rerender s) = toDataURL (renderOf s) /\
  currentFileSizeKB (rerender s) = sizeKB (toDataURL (renderOf s)) /\
  lastValidDataUrl (rerender s) = lastValidDataUrl s /\
  lastValidFileSizeKB (rerender s) = lastValidFileSizeKB s /\
  cv_encodes (canvas (rerender s)) = (cv_encodes (canvas s) ++ [renderOf s])%list.
Proof.
  unfold FileSize.renderOf, FileSize.rerender.
  destruct (adjust s) as [[q w] h]. cbn. repeat split; reflexivity.
Qed.

(** The second half of the body changes only the last-valid pair. *)
Lemma iteration_rerender s :
  let s' := fst (iteration s) in
  currentQuality s' = currentQuality (rerender s) /\
  currentWidth s' = currentWidth (rerender s) /\
  currentHeight s' = currentHeight (rerender s) /\
  iterations s' = iterations (rerender s) /\
  resizedDataUrl s' = resizedDataUrl (rerender s) /\
  currentFileSizeKB s' = currentFileSizeKB (rerender s) /\
  canvas s' = canvas (rerender s).
Proof.
  unfold FileSize.iteration.
  destruct (le (currentFileSizeKB (rerender s)) maxFileSize);
    cbn; repeat split; reflexivity.
Qed.

Lemma iteration_last_valid s :
  let s' := fst (iteration s) in
  (currentFileSizeKB s' <= maxFileSize /\
   lastValidDataUrl s' = resizedDataUrl s' /\
   lastValidFileSizeKB s' = currentFileSizeKB s') \/
  (maxFileSize < currentFileSizeKB s' /\
   lastValidDataUrl s' = lastValidDataUrl s /\
   lastValidFileSizeKB s' = lastValidFileSizeKB s).
Proof.
  unfold FileSize.iteration.
  destruct (le (currentFileSizeKB (rerender s)) maxFileSize) eqn:E; cbn.
  - left. apply le_true in E. repeat split; [exact E].
  - right. apply le_false in E.
    destruct (rerender_fields s) as (_ & _ & _ & _ & _ & _ & L1 & L2 & _).
    repeat split; assumption.
Qed.

Lemma loopGuard_true s :
  loopGuard s = true <->
  maxFileSize < currentFileSizeKB s /\ (iterations s < maxIterations)%Z.
Proof.
  unfold FileSize.loopGuard. rewrite andb_true_iff, gt_true, Z.ltb_lt. tauto.
Qed.

Lemma inEnvelope_true x :
  inEnvelope x = true <-> minFileSize <= x /\ x <= maxFileSize.
Proof. unfold FileSize.inEnvelope. rewrite andb_true_iff, ge_true, le_true. tauto. Qed.

(** *** The loop needs no more fuel than its own bound *)

Lemma while_runs fuel : forall s0 s,
  runs s0 false s ->
  (maxIterations - iterations s <= Z.of_nat fuel)%Z ->
  exists b, runs s0 b (while fuel s) /\
            (b = true \/ loopGuard (while fuel s) = false).
Proof.
  induction fuel as [| fuel IH]; intros s0 s Hruns Hfuel.
  - exists false. split; [exact Hruns |]. right.
    cbn [FileSize.while]. unfold FileSize.loopGuard.
    replace (iterations s <? maxIterations)%Z with false
      by (symmetry; apply Z.ltb_ge; lia).
    apply andb_false_r.
  - cbn [FileSize.while].
    destruct (loopGuard s) eqn:Hguard.
    + pose proof (FileSize.runs_iteration _ _ _ _ _ _ Hruns Hguard) as Hnext.
      destruct (iteration s) as [s' brk] eqn:Hit. cbn [fst snd] in Hnext.
      destruct brk.
      * exists true. split; [exact Hnext | left; reflexivity].
      * apply IH; [exact Hnext |].
        destruct (iteration_rerender s) as (_ & _ & _ & Hi & _).
        destruct (rerender_fields s) as (_ & _ & _ & Hi' & _).
        rewrite Hit in Hi. cbn [fst] in Hi. rewrite Hi, Hi'. lia.
    + exists false. split; [exact Hruns | right; exact Hguard].
Qed.


(** *** The two phases of the adjustment *)

Lemma floor_at_one r : (if (r <? 1)%Z then 1%Z else r) = Z.max 1 r.
Proof. destruct (Z.ltb_spec r 1); lia. Qed.

Lemma adjust_quality_phase s :
  0.1 < currentQuality s ->
  adjust s =
  (Math_max 0.1 (currentQuality s - 0.05), currentWidth s, currentHeight s).
Proof.
  intros Hq. unfold adjust.
  replace (gt (currentQuality s) 0.1) with true
    by (symmetry; apply gt_true; exact Hq).
  reflexivity.
Qed.

Lemma adjust_dimension_phase s :
  ~ 0.1 < currentQuality s ->
  adjust s =
  (currentQuality s,
   Z.max 1 (Math_round (inject_Z (currentWidth s) * 0.9)),
   Z.max 1 (Math_round (inject_Z (currentHeight s) * 0.9))).
Proof.
  intros Hq. unfold adjust.
  replace (gt (currentQuality s) 0.1) with false
    by (symmetry; apply gt_false; apply Qnot_lt_le; exact Hq).
  rewrite !floor_at_one. reflexivity.
Qed.

Lemma shrink_le (w : Z) :
  (1 <= w)%Z -> (1 <= Z.max 1 (Math_round (inject_Z w * 0.9)) <= w)%Z.
Proof.
  intros Hw. split; [lia |].
  apply Z.max_lub; [exact Hw |].
  apply Math_round_le.
  assert (0 <= inject_Z w) by (change 0 with (inject_Z 0); rewrite <- Zle_Qle; lia).
  lra.
Qed.

Lemma iteration_adjust s :
  currentQuality (fst (iteration s)) = fst (fst (adjust s)) /\
  currentWidth (fst (iteration s)) = snd (fst (adjust s)) /\
  currentHeight (fst (iteration s)) = snd (adjust s) /\
  iterations (fst (iteration s)) = (iterations s + 1)%Z.
Proof.
  destruct (iteration_rerender s) as (Q1 & W1 & H1 & I1 & _).
  destruct (rerender_fields s) as (Q2 & W2 & H2 & I2 & _).
  cbn zeta in *. rewrite Q1, W1, H1, I1. auto.
Qed.

Lemma bounded_initial img cv :
  (1 <= width img)%Z -> (1 <= height img)%Z -> bounded (initialState img cv).
Proof.
  intros HW HH. unfold bounded, FileSize.initialState. cbn.
  unfold maxIterations. repeat split; try lia; try assumption. lra.
Qed.

Lemma bounded_iteration s :
  bounded s -> loopGuard s = true -> bounded (fst (iteration s)).
Proof.
  intros (Hi & Hq & Hw & Hh) Hguard.
  apply loopGuard_true in Hguard. destruct Hguard as [_ Hlt].
  destruct (iteration_adjust s) as (Eq & Ew & Eh & Ei).
  unfold bounded. rewrite Eq, Ew, Eh, Ei.
  split; [lia |].
  destruct (Qlt_le_dec 0.1 (currentQuality s)) as [Habove | Hat].
  - rewrite (adjust_quality_phase s Habove). cbn [fst snd].
    split; [apply Q.le_max_l | split; assumption].
  - rewrite (adjust_dimension_phase s (Qle_not_lt _ _ Hat)). cbn [fst snd].
    split; [exact Hq |]. split; apply shrink_le; assumption.
Qed.

Lemma runs_bounded s0 b s : bounded s0 -> runs s0 b s -> bounded s.
Proof.
  intros H0 Hruns. induction Hruns as [| s Hruns IH Hguard].
  - exact H0.
  - apply bounded_iteration; assumption.
Qed.


(** C5.  In every state the file-size loop passes through, for an image
    of at least 1 x 1 pixels, the iteration count is at most 100, the
    quality at least 0.1, and the working width and height at least 1.
    ([while_runs] shows that the loop's final state is such a state.) *)
Theorem search_bounds img cv b s :
  (1 <= width img)%Z -> (1 <= height img)%Z ->
  runs (initialState img cv) b s ->
  (iterations s <= 100)%Z /\ 0.1 <= currentQuality s /\
  (1 <= currentWidth s)%Z /\ (1 <= currentHeight s)%Z.
Proof.
  intros HW HH Hruns.
  destruct (runs_bounded _ _ _ (bounded_initial img cv HW HH) Hruns)
    as ((_ & Hi) & Hq & Hw & Hh).
  repeat split; assumption.
Qed.

(** C6.  From any state the loop reaches, one pass of the body runs
    exactly one of two adjustments.  While the quality is above 0.1 it
    becomes [max(0.1, quality - 0.05)], strictly less than before, and the
    dimensions are unchanged.  Otherwise the quality is 0.1 and stays, and
    each dimension becomes its product with 0.9, rounded and floored at 1.
    In both cases neither the quality nor a dimension increases. *)
Theorem iteration_phases img cv s s' :
  (1 <= width img)%Z -> (1 <= height img)%Z ->
  runs (initialState img cv) false s ->
  s' = fst (iteration s) ->
  (0.1 < currentQuality s ->
     currentQuality s' = Math_max 0.1 (currentQuality s - 0.05) /\
     currentQuality s' < currentQuality s /\
     currentWidth s' = currentWidth s /\ currentHeight s' = currentHeight s) /\
  (~ 0.1 < currentQuality s ->
     currentQuality s == 0.1 /\
     currentQuality s' = currentQuality s /\
     currentWidth s' = Z.max 1 (Math_round (inject_Z (currentWidth s) * 0.9)) /\
     currentHeight s' = Z.max 1 (Math_round (inject_Z (currentHeight s) * 0.9))) /\
  (currentQuality s' <= currentQuality s /\
   (currentWidth s' <= currentWidth s)%Z /\
   (currentHeight s' <= currentHeight s)%Z).
Proof.
  intros HW HH Hruns ->.
  destruct (runs_bounded _ _ _ (bounded_initial img cv HW HH) Hruns)
    as (_ & Hq & Hw & Hh).
  destruct (iteration_adjust s) as (Eq & Ew & Eh & _).
  assert (0.1 < currentQuality s ->
          Math_max 0.1 (currentQuality s - 0.05) < currentQuality s) as Hstep.
  { intros Habove. unfold Math_max. apply Q.max_lub_lt; lra. }
  split; [| split].
  - intros Habove. rewrite (adjust_quality_phase s Habove) in Eq, Ew, Eh.
    cbn [fst snd] in Eq, Ew, Eh. rewrite Eq.
    repeat split; try assumption. apply Hstep; exact Habove.
  - intros Hat. rewrite (adjust_dimension_phase s Hat) in Eq, Ew, Eh.
    cbn [fst snd] in Eq, Ew, Eh.
    repeat split; try assumption.
    apply Qle_antisym; [apply Qnot_lt_le; exact Hat | exact Hq].
  - destruct (Qlt_le_dec 0.1 (currentQuality s)) as [Habove | Hat].
    + rewrite (adjust_quality_phase s Habove) in Eq, Ew, Eh.
      cbn [fst snd] in Eq, Ew, Eh. rewrite Eq, Ew, Eh.
      split; [apply Qlt_le_weak, Hstep; exact Habove | lia].
    + rewrite (adjust_dimension_phase s (Qle_not_lt _ _ Hat)) in Eq, Ew, Eh.
      cbn [fst snd] in Eq, Ew, Eh. rewrite Eq, Ew, Eh.
      split; [apply Qle_refl |]. split; apply shrink_le; assumption.
Qed.


(** *** What the loop remembers *)

Lemma initialState_fields img cv :
  let s0 := initialState img cv in
  currentQuality s0 = 0.9 /\
  currentWidth s0 = width img /\ currentHeight s0 = height img /\
  iterations s0 = 0%Z /\
  resizedDataUrl s0 = toDataURL (initialRender img) /\
  currentFileSizeKB s0 = sizeKB (toDataURL (initialRender img)) /\
  lastValidDataUrl s0 = EmptyString /\
  cv_encodes (canvas s0) = (cv_encodes cv ++ [initialRender img])%list.
Proof. cbn. repeat split; reflexivity. Qed.

Lemma tracked_initial img cv : tracked cv (initialState img cv).
Proof.
  exists [], (initialRender img). cbn. repeat split.
  constructor; [reflexivity | constructor].
Qed.

Lemma tracked_iteration cv s : tracked cv s -> tracked cv (fst (iteration s)).
Proof.
  intros (encs & e & Hlog & Hjpeg & _).
  destruct (iteration_rerender s) as (_ & _ & _ & _ & Eu & Es & Ec).
  destruct (rerender_fields s) as (_ & _ & _ & _ & Eu' & Es' & _ & _ & Elog).
  cbn zeta in *.
  exists (encs ++ [e])%list, (renderOf s).
  rewrite Ec, Elog, Hlog, Eu, Eu', Es, Es'.
  split; [rewrite <- !app_assoc; reflexivity |].
  split; [| split; reflexivity].
  apply Forall_app. split; [exact Hjpeg |].
  constructor; [reflexivity | constructor].
Qed.

Lemma remembered_iteration s :
  remembered s -> loopGuard s = true -> remembered (fst (iteration s)).
Proof.
  intros Hrem Hguard. apply loopGuard_true in Hguard. destruct Hguard as [Hover _].
  destruct (iteration_last_valid s) as [(Hle & Eu & Es) | (Hgt & Eu & _)];
    cbn zeta in *.
  - right. repeat split; assumption.
  - left. split; [| left; exact Hgt].
    rewrite Eu. destruct Hrem as [[Hnone _] | (_ & _ & Hle)]; [exact Hnone |].
    exfalso. lra.
Qed.

Lemma runs_tracked img cv b s :
  runs (initialState img cv) b s -> tracked cv s /\ remembered s.
Proof.
  intros Hruns. induction Hruns as [| s Hruns [IHt IHr] Hguard].
  - split; [apply tracked_initial | left; split; [| right]; reflexivity].
  - split; [apply tracked_iteration | apply remembered_iteration]; assumption.
Qed.


(** *** The three ways out of the file-size branch *)

Lemma resizeToFileSize_satisfied fileName img cv :
  inEnvelope (sizeKB (toDataURL (initialRender img))) = true ->
  resizeToFileSize fileName img cv = (recordValid (initialState img cv), []).
Proof.
  intros Hin. unfold FileSize.resizeToFileSize.
  destruct (initialState_fields img cv) as (_ & _ & _ & _ & _ & Es & _).
  cbn zeta in Es. rewrite Es, Hin. reflexivity.
Qed.

Lemma resizeToFileSize_below_min fileName img cv :
  sizeKB (toDataURL (initialRender img)) < minFileSize ->
  resizeToFileSize fileName img cv =
  (recordValid (initialState img cv),
   [AlreadySmaller fileName minFileSize (sizeKB (toDataURL (initialRender img)))]).
Proof.
  intros Hlt. unfold FileSize.resizeToFileSize.
  destruct (initialState_fields img cv) as (_ & _ & _ & _ & _ & Es & _).
  cbn zeta in Es. rewrite Es.
  replace (inEnvelope (sizeKB (toDataURL (initialRender img)))) with false.
  - replace (lt (sizeKB (toDataURL (initialRender img))) minFileSize) with true
      by (symmetry; apply lt_true; exact Hlt).
    reflexivity.
  - symmetry. unfold FileSize.inEnvelope. apply andb_false_iff. left.
    apply ge_false. exact Hlt.
Qed.

Lemma resizeToFileSize_search fileName img cv :
  inEnvelope (sizeKB (toDataURL (initialRender img))) = false ->
  minFileSize <= sizeKB (toDataURL (initialRender img)) ->
  resizeToFileSize fileName img cv =
  let s := while (Z.to_nat maxIterations) (initialState img cv) in
  if truthy (lastValidDataUrl s) then (useLastValid s, [])
  else (s, [CouldNotResize fileName (currentFileSizeKB s)]).
Proof.
  intros Hout Hge. unfold FileSize.resizeToFileSize.
  destruct (initialState_fields img cv) as (_ & _ & _ & _ & _ & Es & _).
  cbn zeta in Es. rewrite Es, Hout.
  replace (lt (sizeKB (toDataURL (initialRender img))) minFileSize) with false
    by (symmetry; apply lt_false; exact Hge).
  reflexivity.
Qed.

(** The loop as [resizeToFileSize] runs it ends in a state it passes
    through, by [break] or with its condition false. *)
Lemma search_runs img cv :
  let s0 := initialState img cv in
  exists b, runs s0 b (while (Z.to_nat maxIterations) s0) /\
            (b = true \/ loopGuard (while (Z.to_nat maxIterations) s0) = false).
Proof.
  intros s0. apply while_runs.
  - apply FileSize.runs_start.
  - subst s0. destruct (initialState_fields img cv) as (_ & _ & _ & Ei & _).
    cbn zeta in Ei. rewrite Ei. unfold maxIterations. lia.
Qed.

(** Whatever the way out, the variables describe the latest render. *)
Lemma resizeToFileSize_tracked fileName img cv :
  tracked cv (fst (resizeToFileSize fileName img cv)).
Proof.
  destruct (inEnvelope (sizeKB (toDataURL (initialRender img)))) eqn:Hin.
  - rewrite (resizeToFileSize_satisfied fileName img cv Hin).
    apply tracked_initial.
  - destruct (Qlt_le_dec (sizeKB (toDataURL (initialRender img))) minFileSize)
      as [Hlt | Hge].
    + rewrite (resizeToFileSize_below_min fileName img cv Hlt).
      apply tracked_initial.
    + rewrite (resizeToFileSize_search fileName img cv Hin Hge). cbn zeta.
      destruct (search_runs img cv) as (b & Hruns & _).
      destruct (runs_tracked img cv b _ Hruns) as [Ht Hr].
      destruct (truthy (lastValidDataUrl
                  (while (Z.to_nat maxIterations) (initialState img cv)))) eqn:Htr;
        [| exact Ht].
      destruct Hr as [[Hnone _] | (Eu & Es & _)];
        [rewrite Hnone in Htr; discriminate |].
      destruct Ht as (encs & e & Hlog & Hjpeg & Hu & Hs).
      exists encs, e. cbn [fst]. unfold useLastValid.
      cbn [canvas resizedDataUrl currentFileSizeKB].
      rewrite Eu, Es. repeat split; assumption.
Qed.


(** C3.  If the initial render (the image at its own size, quality 0.9)
    measures within [minFileSize, maxFileSize], the file-size branch makes
    that one render only, runs no iteration, and returns it; the outcome
    is [Satisfied] and no message is set. *)
Theorem initial_render_satisfied fileName img cv s msgs :
  minFileSize <= sizeKB (toDataURL (initialRender img)) ->
  sizeKB (toDataURL (initialRender img)) <= maxFileSize ->
  resizeToFileSize fileName img cv = (s, msgs) ->
  cv_encodes (canvas s) = (cv_encodes cv ++ [initialRender img])%list /\
  iterations s = 0%Z /\
  resizedDataUrl s = toDataURL (initialRender img) /\
  statusOf s = Satisfied /\
  msgs = [].
Proof.
  intros Hmin Hmax Hr.
  assert (inEnvelope (sizeKB (toDataURL (initialRender img))) = true) as Hin
    by (apply inEnvelope_true; split; assumption).
  rewrite (resizeToFileSize_satisfied fileName img cv Hin) in Hr.
  injection Hr as <- <-.
  destruct (initialState_fields img cv) as (_ & _ & _ & Ei & Eu & Es & _ & Elog).
  cbn zeta in Ei, Eu, Es, Elog.
  split; [exact Elog |]. split; [exact Ei |]. split; [exact Eu |].
  split; [| reflexivity].
  unfold FileSize.statusOf.
  change (currentFileSizeKB (recordValid (initialState img cv)))
    with (currentFileSizeKB (initialState img cv)).
  rewrite Es, Hin. reflexivity.
Qed.

(** C4.  If the initial render measures strictly below [minFileSize], the
    file-size branch returns that render as it is, having made no other
    render and run no iteration; the outcome is [AcceptedBelowMin], with
    the "already smaller" message. *)
Theorem initial_render_below_min fileName img cv s msgs :
  sizeKB (toDataURL (initialRender img)) < minFileSize ->
  resizeToFileSize fileName img cv = (s, msgs) ->
  cv_encodes (canvas s) = (cv_encodes cv ++ [initialRender img])%list /\
  iterations s = 0%Z /\
  resizedDataUrl s = toDataURL (initialRender img) /\
  statusOf s = AcceptedBelowMin /\
  msgs = [AlreadySmaller fileName minFileSize
            (sizeKB (toDataURL (initialRender img)))].
Proof.
  intros Hlt Hr.
  rewrite (resizeToFileSize_below_min fileName img cv Hlt) in Hr.
  injection Hr as <- <-.
  destruct (initialState_fields img cv) as (_ & _ & _ & Ei & Eu & Es & _ & Elog).
  cbn zeta in Ei, Eu, Es, Elog.
  split; [exact Elog |]. split; [exact Ei |]. split; [exact Eu |].
  split; [| reflexivity].
  unfold FileSize.statusOf.
  change (currentFileSizeKB (recordValid (initialState img cv)))
    with (currentFileSizeKB (initialState img cv)).
  change (iterations (recordValid (initialState img cv)))
    with (iterations (initialState img cv)).
  rewrite Es, Ei.
  replace (inEnvelope (sizeKB (toDataURL (initialRender img)))) with false
    by (symmetry; apply andb_false_iff; left; apply ge_false; exact Hlt).
  replace (lt (sizeKB (toDataURL (initialRender img))) minFileSize) with true
    by (symmetry; apply lt_true; exact Hlt).
  reflexivity.
Qed.

Lemma truthy_false s : truthy s = false -> s = EmptyString.
Proof. destruct s; [reflexivity | discriminate]. Qed.

(** C2 (as amended).  When the file-size branch ends with the iteration
    budget used up and its result outside the envelope, the result is the
    latest render and the outcome is [BestEffort].  If that render is
    within the maximum it is the recorded candidate and no message is
    set; if it is over the maximum nothing was recorded and the "could not
    perfectly resize" message carries its size.  ([toDataURL] never
    returns the empty string.) *)
Theorem search_exhausted fileName img cv r :
  (forall e, truthy (toDataURL e) = true) ->
  r = resizeToFileSize fileName img cv ->
  iterations (fst r) = maxIterations ->
  inEnvelope (currentFileSizeKB (fst r)) = false ->
  (exists encs e,
      cv_encodes (canvas (fst r)) = (cv_encodes cv ++ encs ++ [e])%list /\
      resizedDataUrl (fst r) = toDataURL e /\
      currentFileSizeKB (fst r) = sizeKB (toDataURL e)) /\
  statusOf (fst r) = BestEffort /\
  (currentFileSizeKB (fst r) <= maxFileSize ->
     lastValidDataUrl (fst r) = resizedDataUrl (fst r) /\ snd r = []) /\
  (maxFileSize < currentFileSizeKB (fst r) ->
     lastValidDataUrl (fst r) = EmptyString /\
     snd r = [CouldNotResize fileName (currentFileSizeKB (fst r))]).
Proof.
  intros Hurl Hr Hbudget Hout.
  split.
  { rewrite Hr.
    destruct (resizeToFileSize_tracked fileName img cv)
      as (encs & e & Hlog & _ & Hu & Hs).
    exists encs, e. repeat split; assumption. }
  split.
  { unfold FileSize.statusOf. rewrite Hout, Hbudget.
    rewrite andb_false_r. reflexivity. }
  destruct (initialState_fields img cv) as (_ & _ & _ & Ei & _).
  cbn zeta in Ei.
  destruct (inEnvelope (sizeKB (toDataURL (initialRender img)))) eqn:Hin.
  { exfalso. subst r.
    rewrite (resizeToFileSize_satisfied fileName img cv Hin) in Hbudget.
    cbn [fst] in Hbudget.
    change (iterations (recordValid (initialState img cv)))
      with (iterations (initialState img cv)) in Hbudget.
    rewrite Ei in Hbudget. discriminate. }
  destruct (Qlt_le_dec (sizeKB (toDataURL (initialRender img))) minFileSize)
    as [Hlt | Hge].
  { exfalso. subst r.
    rewrite (resizeToFileSize_below_min fileName img cv Hlt) in Hbudget.
    cbn [fst] in Hbudget.
    change (iterations (recordValid (initialState img cv)))
      with (iterations (initialState img cv)) in Hbudget.
    rewrite Ei in Hbudget. discriminate. }
  subst r. rewrite (resizeToFileSize_search fileName img cv Hin Hge) in *.
  cbn zeta in *.
  destruct (search_runs img cv) as (b & Hruns & _). cbn zeta in Hruns.
  destruct (runs_tracked img cv b _ Hruns) as [(encs & e & _ & _ & Hu & _) Hr].
  set (sL := while (Z.to_nat maxIterations) (initialState img cv)) in *.
  destruct (truthy (lastValidDataUrl sL)) eqn:Htr; cbn [fst snd] in *.
  - destruct Hr as [[Hnone _] | (Eu & Es & Hle)];
      [rewrite Hnone in Htr; discriminate |].
    change (currentFileSizeKB (useLastValid sL)) with (lastValidFileSizeKB sL).
    change (lastValidDataUrl (useLastValid sL)) with (lastValidDataUrl sL).
    change (resizedDataUrl (useLastValid sL)) with (lastValidDataUrl sL).
    rewrite Es. split.
    + intros _. split; reflexivity.
    + intros Hgt. exfalso. lra.
  - apply truthy_false in Htr.
    destruct Hr as [[_ [Hgt | Hzero]] | (Eu & _)].
    + split; [intros Hle; exfalso; lra |].
      intros _. split; [exact Htr | reflexivity].
    + exfalso. rewrite Hzero in Hbudget. discriminate.
    + exfalso. rewrite Htr in Eu. rewrite Hu in Eu.
      specialize (Hurl e). rewrite <- Eu in Hurl. discriminate.
Qed.

End SearchFacts.

(** ** Strings and the output name *)

Section StringFacts.

Import JS.
Open Scope string_scope.

Variable sep : ascii.

Lemma split_not_nil s : split sep s <> [].
Proof.
  destruct s as [| c rest]; cbn; [discriminate |].
  destruct (Ascii.eqb c sep); [discriminate |].
  destruct (split sep rest); discriminate.
Qed.

(** A string without the separator is a single piece. *)
Lemma split_without s : includes sep s = false -> split sep s = [s].
Proof.
  induction s as [| c rest IH]; cbn; [reflexivity |].
  intros H. apply orb_false_iff in H. destruct H as [Hc Hrest].
  rewrite Hc, (IH Hrest). reflexivity.
Qed.

(** Splitting at a separator splits the pieces. *)
Lemma split_app a b :
  split sep (a ++ String sep b) = (split sep a ++ split sep b)%list.
Proof.
  induction a as [| c rest IH]; cbn.
  - rewrite Ascii.eqb_refl. reflexivity.
  - destruct (Ascii.eqb c sep); rewrite IH; [reflexivity |].
    pose proof (split_not_nil rest) as Hne.
    destruct (split sep rest); [contradiction | reflexivity].
Qed.

(** Joining the pieces with the separator restores the string. *)
Lemma join_split s : join (String sep EmptyString) (split sep s) = s.
Proof.
  induction s as [| c rest IH]; cbn; [reflexivity |].
  destruct (Ascii.eqb_spec c sep) as [-> | Hne].
  - pose proof (split_not_nil rest) as Hnil.
    cbn [join]. destruct (split sep rest) eqn:E; [contradiction |].
    cbn. rewrite <- IH. reflexivity.
  - pose proof (split_not_nil rest) as Hnil.
    destruct (split sep rest) as [| piece pieces] eqn:E; [contradiction |].
    rewrite <- IH. destruct pieces; reflexivity.
Qed.

(** [slice(0, -1)] drops the last element. *)
Lemma slice_drop_last {A : Type} (l : list A) (x : A) :
  slice 0 (-1) (l ++ [x]) = l.
Proof.
  unfold slice. cbn [Z.ltb Z.compare].
  rewrite length_app. cbn [List.length].
  replace (Z.to_nat (Z.min 0 _)) with 0%nat by lia.
  replace (Z.to_nat _) with (List.length l) by lia.
  cbn [skipn]. rewrite firstn_app, firstn_all, Nat.sub_diag. cbn.
  apply app_nil_r.
Qed.

End StringFacts.

Section OutputName.

Import JS Browser FileSize.
Open Scope string_scope.

Lemma outputFileName_with_extension base ext :
  includes "." ext = false ->
  outputFileName (base ++ "." ++ ext) = "resized_filesize_" ++ base ++ ".jpeg".
Proof.
  intros Hext. unfold outputFileName.
  change (base ++ "." ++ ext) with (base ++ String "." ext).
  rewrite split_app, (split_without _ _ Hext), slice_drop_last, join_split.
  reflexivity.
Qed.

Lemma outputFileName_without_dot fileName :
  includes "." fileName = false ->
  outputFileName fileName = "resized_filesize_.jpeg".
Proof.
  intros Hname. unfold outputFileName.
  rewrite (split_without _ _ Hname). reflexivity.
Qed.

End OutputName.

(** ** One file of the batch *)

Section ConvertFacts.

Import JS Browser Convert.
Open Scope string_scope.

Variable toDataURL : Encode -> string.
Variable atob : string -> string.

Local Abbreviation convertFile := (convertFile toDataURL atob).

(** C9.  For a file accepted as an image, whatever its own type, every
    encode made for it asks for the format of the resize mode: PNG in
    dimension mode, JPEG in file-size mode (the initial render and every
    re-render), and the data URL pushed is that of the last encode. *)
Theorem output_format cfg file img cv p :
  startsWith "image/" (file_type file) = true ->
  p = convertFile cfg file img cv ->
  exists encs e r,
    cv_encodes (canvasAfter p) = (cv_encodes cv ++ encs ++ [e])%list /\
    Forall (fun e' => en_type e' = formatOf (resizeMode cfg)) (encs ++ [e]) /\
    pushed p = Some r /\ dataUrl r = toDataURL e.
Proof.
  intros Himg ->. unfold Convert.convertFile. rewrite Himg. cbn [negb].
  destruct (resizeMode cfg); cbn [formatOf].
  - destruct (Dimension.resizeDimensions (width img) (height img)
                (minSize cfg) (maxSize cfg)) as [newWidth newHeight].
    exists [], (encodeOf "image/png" None (setSize newWidth newHeight cv)).
    eexists. cbn. repeat split.
    constructor; [reflexivity | constructor].
  - pose proof (resizeToFileSize_tracked toDataURL atob
                  (minFileSize cfg) (maxFileSize cfg) (file_name file) img cv)
      as (encs & e & Hlog & Hjpeg & Hu & _).
    destruct (FileSize.resizeToFileSize toDataURL atob (minFileSize cfg)
                (maxFileSize cfg) (file_name file) img cv) as [s msgs].
    cbn [fst] in *. exists encs, e. eexists. cbn.
    repeat split; assumption.
Qed.

(** C10.  In file-size mode the name pushed for a file is
    ["resized_filesize_"], then the file name up to its last dot, then
    [".jpeg"]; for a file name without a dot it is
    ["resized_filesize_.jpeg"]. *)
Theorem fileSize_output_name cfg file img cv :
  resizeMode cfg = fileSize ->
  startsWith "image/" (file_type file) = true ->
  exists r,
    pushed (convertFile cfg file img cv) = Some r /\
    (forall base ext,
        file_name file = base ++ "." ++ ext ->
        includes "." ext = false ->
        name r = "resized_filesize_" ++ base ++ ".jpeg") /\
    (includes "." (file_name file) = false ->
     name r = "resized_filesize_.jpeg").
Proof.
  intros Hmode Himg. unfold Convert.convertFile. rewrite Himg, Hmode. cbn [negb].
  destruct (FileSize.resizeToFileSize toDataURL atob (minFileSize cfg)
              (maxFileSize cfg) (file_name file) img cv) as [s msgs].
  eexists. split; [reflexivity |]. cbn [name]. split.
  - intros base ext -> Hext. apply outputFileName_with_extension; exact Hext.
  - apply outputFileName_without_dot.
Qed.

End ConvertFacts.

(** ** Examples *)

Section Examples.

Import JS Browser FileSize Convert.
Open Scope Q_scope.

(** A 3 KB initial render and the envelope [1, 4]. *)
Lemma initial_render_satisfied_witness :
  cv_encodes (canvas (fst (resizeToFileSize (Toy.toDataURL 0) Toy.atob 1 4
                             "photo.final.png" Toy.banner emptyCanvas)))
    = [initialRender Toy.banner] /\
  statusOf 1 4 (fst (resizeToFileSize (Toy.toDataURL 0) Toy.atob 1 4
                       "photo.final.png" Toy.banner emptyCanvas)) = Satisfied.
Proof.
  destruct (initial_render_satisfied (Toy.toDataURL 0) Toy.atob 1 4
              "photo.final.png" Toy.banner emptyCanvas
              (fst (resizeToFileSize (Toy.toDataURL 0) Toy.atob 1 4
                      "photo.final.png" Toy.banner emptyCanvas))
              (snd (resizeToFileSize (Toy.toDataURL 0) Toy.atob 1 4
                      "photo.final.png" Toy.banner emptyCanvas)))
    as (Hlog & _ & _ & Hstatus & _).
  - vm_compute. discriminate.
  - vm_compute. discriminate.
  - vm_compute. reflexivity.
  - split; [exact Hlog | exact Hstatus].
Defined.

(** A 3 KB initial render and the envelope [5, 8]. *)
Lemma initial_render_below_min_witness :
  resizedDataUrl (fst (resizeToFileSize (Toy.toDataURL 0) Toy.atob 5 8
                         "photo.final.png" Toy.banner emptyCanvas))
    = Toy.toDataURL 0 (initialRender Toy.banner) /\
  statusOf 5 8 (fst (resizeToFileSize (Toy.toDataURL 0) Toy.atob 5 8
                       "photo.final.png" Toy.banner emptyCanvas))
    = AcceptedBelowMin.
Proof.
  destruct (initial_render_below_min (Toy.toDataURL 0) Toy.atob 5 8
              "photo.final.png" Toy.banner emptyCanvas
              (fst (resizeToFileSize (Toy.toDataURL 0) Toy.atob 5 8
                      "photo.final.png" Toy.banner emptyCanvas))
              (snd (resizeToFileSize (Toy.toDataURL 0) Toy.atob 5 8
                      "photo.final.png" Toy.banner emptyCanvas)))
    as (_ & _ & Hurl & Hstatus & _).
  - vm_compute. reflexivity.
  - vm_compute. reflexivity.
  - split; [exact Hurl | exact Hstatus].
Defined.

(** Every render of the banner is 3 KB; the envelope is [1, 2]. *)
Lemma search_exhausted_witness :
  statusOf 1 2 (fst (resizeToFileSize (Toy.toDataURL 0) Toy.atob 1 2
                       "photo.final.png" Toy.banner emptyCanvas)) = BestEffort /\
  snd (resizeToFileSize (Toy.toDataURL 0) Toy.atob 1 2
         "photo.final.png" Toy.banner emptyCanvas)
    = [CouldNotResize "photo.final.png"
         (currentFileSizeKB
            (fst (resizeToFileSize (Toy.toDataURL 0) Toy.atob 1 2
                    "photo.final.png" Toy.banner emptyCanvas)))].
Proof.
  destruct (search_exhausted (Toy.toDataURL 0) Toy.atob 1 2
              "photo.final.png" Toy.banner emptyCanvas
              (resizeToFileSize (Toy.toDataURL 0) Toy.atob 1 2
                 "photo.final.png" Toy.banner emptyCanvas))
    as (_ & Hstatus & _ & Hover).
  - intros e. reflexivity.
  - reflexivity.
  - vm_compute. reflexivity.
  - vm_compute. reflexivity.
  - split; [exact Hstatus |]. apply Hover. vm_compute. reflexivity.
Defined.

(** C2 (as stated) fails: renders of the banner wider than 10 pixels are
    3 KB, the others 0.5 KB, and the envelope is [1, 2].  Sixteen passes
    lower the quality, eighty-four shrink the width from 60000; the
    ninety-ninth pass renders at width 11 and the hundredth, the first
    within the maximum, at width 10.  The budget is used up, no render
    lies in the envelope, the last one is recorded and returned, and no
    message is set. *)
Lemma search_exhausted_without_message :
  map en_width
    (skipn 99 (cv_encodes
                 (canvas (fst (resizeToFileSize (Toy.toDataURL 10) Toy.atob 1 2
                                 "photo.final.png" Toy.banner emptyCanvas)))))
    = [11; 10]%Z /\
  iterations (fst (resizeToFileSize (Toy.toDataURL 10) Toy.atob 1 2
                     "photo.final.png" Toy.banner emptyCanvas)) = maxIterations /\
  forallb (fun e => negb (inEnvelope 1 2 (sizeKB Toy.atob (Toy.toDataURL 10 e))))
    (cv_encodes (canvas (fst (resizeToFileSize (Toy.toDataURL 10) Toy.atob 1 2
                                "photo.final.png" Toy.banner emptyCanvas))))
    = true /\
  truthy (lastValidDataUrl
            (fst (resizeToFileSize (Toy.toDataURL 10) Toy.atob 1 2
                    "photo.final.png" Toy.banner emptyCanvas))) = true /\
  snd (resizeToFileSize (Toy.toDataURL 10) Toy.atob 1 2
         "photo.final.png" Toy.banner emptyCanvas) = [].
Proof. vm_compute. repeat split. Qed.

(** The state after the first pass for the banner. *)
Lemma search_bounds_witness :
  (iterations (fst (iteration (Toy.toDataURL 0) Toy.atob 1 2
                      (initialState (Toy.toDataURL 0) Toy.atob
                         Toy.banner emptyCanvas))) <= 100)%Z /\
  0.1 <= currentQuality (fst (iteration (Toy.toDataURL 0) Toy.atob 1 2
                                (initialState (Toy.toDataURL 0) Toy.atob
                                   Toy.banner emptyCanvas))) /\
  (1 <= currentWidth (fst (iteration (Toy.toDataURL 0) Toy.atob 1 2
                             (initialState (Toy.toDataURL 0) Toy.atob
                                Toy.banner emptyCanvas))))%Z /\
  (1 <= currentHeight (fst (iteration (Toy.toDataURL 0) Toy.atob 1 2
                              (initialState (Toy.toDataURL 0) Toy.atob
                                 Toy.banner emptyCanvas))))%Z.
Proof.
  apply (search_bounds (Toy.toDataURL 0) Toy.atob 1 2 Toy.banner emptyCanvas
           (snd (iteration (Toy.toDataURL 0) Toy.atob 1 2
                   (initialState (Toy.toDataURL 0) Toy.atob
                      Toy.banner emptyCanvas)))).
  - vm_compute. discriminate.
  - vm_compute. discriminate.
  - apply runs_iteration; [apply runs_start | vm_compute; reflexivity].
Defined.

(** The first pass for the banner lowers the quality from 0.9. *)
Lemma iteration_phases_witness :
  currentQuality (fst (iteration (Toy.toDataURL 0) Toy.atob 1 2
                         (initialState (Toy.toDataURL 0) Toy.atob
                            Toy.banner emptyCanvas)))
    = Math_max 0.1 (0.9 - 0.05) /\
  currentWidth (fst (iteration (Toy.toDataURL 0) Toy.atob 1 2
                       (initialState (Toy.toDataURL 0) Toy.atob
                          Toy.banner emptyCanvas))) = 60000%Z.
Proof.
  destruct (iteration_phases (Toy.toDataURL 0) Toy.atob 1 2 Toy.banner emptyCanvas
              (initialState (Toy.toDataURL 0) Toy.atob Toy.banner emptyCanvas)
              (fst (iteration (Toy.toDataURL 0) Toy.atob 1 2
                      (initialState (Toy.toDataURL 0) Toy.atob
                         Toy.banner emptyCanvas))))
    as ((Hq & _ & Hw & _) & _).
  - vm_compute. discriminate.
  - vm_compute. discriminate.
  - apply runs_start.
  - reflexivity.
  - vm_compute. reflexivity.
  - split; [exact Hq | exact Hw].
Defined.

(** A PNG file in file-size mode: the one render asks for JPEG. *)
Lemma output_format_witness :
  exists encs e r,
    cv_encodes (canvasAfter (convertFile (Toy.toDataURL 0) Toy.atob Toy.bySize
                               Toy.photo Toy.banner emptyCanvas))
      = ([] ++ encs ++ [e])%list /\
    Forall (fun e' => en_type e' = "image/jpeg"%string) (encs ++ [e]) /\
    pushed (convertFile (Toy.toDataURL 0) Toy.atob Toy.bySize
              Toy.photo Toy.banner emptyCanvas) = Some r /\
    dataUrl r = Toy.toDataURL 0 e.
Proof.
  apply (output_format (Toy.toDataURL 0) Toy.atob Toy.bySize
           Toy.photo Toy.banner emptyCanvas
           (convertFile (Toy.toDataURL 0) Toy.atob Toy.bySize
              Toy.photo Toy.banner emptyCanvas));
    reflexivity.
Defined.

(** ["photo.final.png"] and ["scan"]. *)
Lemma fileSize_output_name_witness :
  (exists r,
      pushed (convertFile (Toy.toDataURL 0) Toy.atob Toy.bySize
                Toy.photo Toy.banner emptyCanvas) = Some r /\
      name r = "resized_filesize_photo.final.jpeg"%string) /\
  (exists r,
      pushed (convertFile (Toy.toDataURL 0) Toy.atob Toy.bySize
                Toy.scan Toy.banner emptyCanvas) = Some r /\
      name r = "resized_filesize_.jpeg"%string).
Proof.
  split.
  - destruct (fileSize_output_name (Toy.toDataURL 0) Toy.atob Toy.bySize
                Toy.photo Toy.banner emptyCanvas) as (r & Hr & Hext & _);
      [reflexivity | reflexivity |].
    exists r. split; [exact Hr |].
    apply (Hext "photo.final"%string "png"%string); reflexivity.
  - destruct (fileSize_output_name (Toy.toDataURL 0) Toy.atob Toy.bySize
                Toy.scan Toy.banner emptyCanvas) as (r & Hr & _ & Hnone);
      [reflexivity | reflexivity |].
    exists r. split; [exact Hr |].
    apply Hnone. reflexivity.
Defined.

End Examples.

(** ** Binary64 cross-check *)

Section Binary64Check.

Import JS.
Open Scope Z_scope.

(** The dimension branch gives the same sizes on the machine's doubles as
    with [round64]: on the inputs of the examples of this file, with
    whole and fractional bounds, small and large, ... *)
Lemma binary64_resizeDimensions_agree :
  Forall (fun i : (Z * Z) * (float * float) =>
            Binary64.resizeDimensions (fst (fst i)) (snd (fst i))
              (fst (snd i)) (snd (snd i))
            = Dimension.resizeDimensions (fst (fst i)) (snd (fst i))
                (Binary64.valueOf (fst (snd i))) (Binary64.valueOf (snd (snd i))))
    [((4000, 2000), (100, 800)%float); ((50, 50), (100, 800)%float);
     ((50, 100), (100, 800)%float); ((50, 80), (100, 800)%float);
     ((63, 100), (100, 800)%float); ((4000, 10), (100, 800)%float);
     ((10, 4000), (100, 800)%float); ((300, 200), (100, 800)%float);
     ((1000, 2), (100, 2000)%float); ((23, 40), (100, 800)%float);
     ((10, 7), (5, 6)%float); ((9800, 200), (100, 4900)%float);
     ((9800, 201), (100, 4900)%float);
     ((8000, 1002), (100, 800.5)%float); ((801, 100), (100, 800.5)%float);
     ((13, 22), (5000000000000000, 5000000000000000)%float);
     ((2954545454545455, 5000000000000000),
      (5000000000000000, 5000000000000000)%float);
     ((10, 13), (4503599627370497, 4503599627370497)%float);
     ((4394419763815951, 7647318868360753),
      (7647318868360753, 7647318868360753)%float);
     ((3, 7), (0.3, 0.7)%float); ((1, 3), (1e-320, 2e-320)%float);
     ((7, 3), (1e300, 1e308)%float)].
Proof. repeat constructor. Qed.

(** ... and on every image of up to 40 x 40 pixels for four envelopes. *)
Lemma binary64_resizeDimensions_agree_grid :
  forallb (fun e : float * float =>
             Binary64.agreeOn (fst e) (snd e) (map Z.of_nat (seq 1 40)))
    [(100, 800); (5, 6); (17, 23); (12.5, 30.1)]%float = true.
Proof. vm_cast_no_check (eq_refl true). Qed.

(** For the banner, the hundred passes of the loop adjust quality, width
    and height alike in binary64 and in exact arithmetic: sixteen passes
    lower the quality to 0.1, the others shrink the dimensions. *)
Lemma binary64_adjust_agree :
  Binary64.agreeFor 100 (0.9%float, 60000, 100) (0.9%Q, 60000, 100) = true.
Proof. vm_compute. reflexivity. Qed.

End Binary64Check.

(** * Further properties *)

(** ** The file-size search: history, schedule, and how far it shrinks *)

Section SearchMore.

Import JS Browser FileSize SearchInvariants.
Open Scope Q_scope.

Variable toDataURL : Encode -> string.
Variable atob : string -> string.
Variables minFileSize maxFileSize : Q.

Local Abbreviation rerender := (rerender toDataURL atob).
Local Abbreviation iteration := (iteration toDataURL atob minFileSize maxFileSize).
Local Abbreviation loopGuard := (loopGuard maxFileSize).
Local Abbreviation while := (while toDataURL atob minFileSize maxFileSize).
Local Abbreviation runs := (runs toDataURL atob minFileSize maxFileSize).
Local Abbreviation initialState := (initialState toDataURL atob).
Local Abbreviation sizeKB := (sizeKB atob).
Local Abbreviation history := (history toDataURL atob maxFileSize).
Local Abbreviation resizeToFileSize :=
  (resizeToFileSize toDataURL atob minFileSize maxFileSize).

Lemma specOf_iteration s : specOf (fst (iteration s)) = renderOf toDataURL atob s.
Proof.
  destruct (iteration_rerender toDataURL atob minFileSize maxFileSize s)
    as (Eq & Ew & Eh & _).
  cbn zeta in Eq, Ew, Eh. unfold specOf, FileSize.renderOf.
  rewrite Eq, Ew, Eh. reflexivity.
Qed.

Lemma history_initial img cv : history cv (initialState img cv).
Proof.
  exists []. cbn. unfold maxIterations. repeat split; try reflexivity.
  - constructor.
  - lia.
Qed.

Lemma history_iteration cv s :
  history cv s -> loopGuard s = true -> history cv (fst (iteration s)).
Proof.
  intros (encs & Hlog & Hover & Hlen & Hmax & Hu & Hs) Hguard.
  apply loopGuard_true in Hguard. destruct Hguard as [Hgt Hlt].
  destruct (iteration_rerender toDataURL atob minFileSize maxFileSize s)
    as (_ & _ & _ & Ei & Eu & Es & Ec).
  destruct (rerender_fields toDataURL atob s)
    as (_ & _ & _ & Ei' & Eu' & Es' & _ & _ & Elog).
  cbn zeta in Ei, Eu, Es, Ec.
  exists (encs ++ [specOf s])%list.
  rewrite specOf_iteration, Ec, Elog, Hlog, Ei, Ei', Eu, Eu', Es, Es'.
  split; [rewrite <- !app_assoc; reflexivity |].
  split.
  { apply Forall_app. split; [exact Hover |].
    constructor; [rewrite <- Hs; exact Hgt | constructor]. }
  split; [rewrite length_app; cbn [List.length]; lia |].
  split; [lia |]. split; reflexivity.
Qed.

Lemma runs_history img cv b s :
  runs (initialState img cv) b s -> history cv s.
Proof.
  intros Hruns. induction Hruns as [| s Hruns IH Hguard].
  - apply history_initial.
  - apply history_iteration; assumption.
Qed.


Lemma iteration_break s :
  snd (iteration s) = true ->
  inEnvelope minFileSize maxFileSize (currentFileSizeKB (fst (iteration s))) = true.
Proof.
  unfold FileSize.iteration, inEnvelope.
  destruct (le (currentFileSizeKB (rerender s)) maxFileSize) eqn:E; cbn.
  - intros ->. exact E.
  - discriminate.
Qed.

Lemma runs_break s0 b s :
  runs s0 b s -> b = true ->
  inEnvelope minFileSize maxFileSize (currentFileSizeKB s) = true.
Proof.
  intros Hruns. destruct Hruns as [| p Hp Hguard].
  - discriminate.
  - apply iteration_break.
Qed.

(** The history holds of the final variables, whichever way the branch
    ends. *)
Lemma resizeToFileSize_history fileName img cv :
  history cv (fst (resizeToFileSize fileName img cv)).
Proof.
  destruct (inEnvelope minFileSize maxFileSize
              (sizeKB (toDataURL (initialRender img)))) eqn:Hin.
  - rewrite (resizeToFileSize_satisfied toDataURL atob minFileSize maxFileSize
               fileName img cv Hin).
    exact (history_initial img cv).
  - destruct (Qlt_le_dec (sizeKB (toDataURL (initialRender img))) minFileSize)
      as [Hlt | Hge].
    + rewrite (resizeToFileSize_below_min toDataURL atob minFileSize maxFileSize
                 fileName img cv Hlt).
      exact (history_initial img cv).
    + rewrite (resizeToFileSize_search toDataURL atob minFileSize maxFileSize
                 fileName img cv Hin Hge).
      cbn zeta.
      destruct (search_runs toDataURL atob minFileSize maxFileSize img cv)
        as (b & Hruns & _).
      cbn zeta in Hruns.
      pose proof (runs_history img cv b _ Hruns) as Hh.
      destruct (runs_tracked toDataURL atob minFileSize maxFileSize img cv b _ Hruns)
        as [_ Hr].
      set (sL := while (Z.to_nat maxIterations) (initialState img cv)) in *.
      destruct (truthy (lastValidDataUrl sL)) eqn:Htr; [| exact Hh].
      destruct Hr as [[Hnone _] | (Eu & Es & _)];
        [rewrite Hnone in Htr; discriminate |].
      destruct Hh as (encs & Hlog & Hover & Hlen & Hmax & Hu & Hs).
      exists encs. cbn [fst]. unfold useLastValid.
      cbn [canvas resizedDataUrl currentFileSizeKB iterations specOf
           currentWidth currentHeight currentQuality].
      fold (specOf sL). rewrite Eu, Es. repeat split; assumption.
Qed.

(** X1.  Whichever way the file-size branch ends, it has rendered once
    more than it has made passes, at most 101 times; every render but the
    last measured over the maximum, and what it returns is the last
    render, made at the quality, width and height it ends with.  So the
    result is the first render of the schedule that is not over the
    maximum, when there is one. *)
Theorem search_returns_first_fit fileName img cv :
  exists encs,
    cv_encodes (canvas (fst (resizeToFileSize fileName img cv)))
    = (cv_encodes cv ++ encs
         ++ [specOf (fst (resizeToFileSize fileName img cv))])%list /\
    Z.of_nat (List.length encs)
    = iterations (fst (resizeToFileSize fileName img cv)) /\
    (List.length encs <= 100)%nat /\
    Forall (fun e => maxFileSize < sizeKB (toDataURL e)) encs /\
    resizedDataUrl (fst (resizeToFileSize fileName img cv))
    = toDataURL (specOf (fst (resizeToFileSize fileName img cv))).
Proof.
  destruct (resizeToFileSize_history fileName img cv)
    as (encs & Hlog & Hover & Hlen & Hmax & Hu & _).
  exists encs. split; [exact Hlog |]. split; [exact Hlen |].
  split; [unfold maxIterations in Hmax; lia |].
  split; assumption.
Qed.

(** X2.  With [minFileSize <= maxFileSize], a result over the maximum is
    returned only after all 100 passes, every one of the 101 renders
    having measured over the maximum, and always with the "could not
    perfectly resize" message. *)
Theorem over_max_only_after_budget fileName img cv r :
  minFileSize <= maxFileSize ->
  r = resizeToFileSize fileName img cv ->
  maxFileSize < currentFileSizeKB (fst r) ->
  iterations (fst r) = maxIterations /\
  snd r = [CouldNotResize fileName (currentFileSizeKB (fst r))] /\
  exists encs,
    cv_encodes (canvas (fst r)) = (cv_encodes cv ++ encs)%list /\
    List.length encs = 101%nat /\
    Forall (fun e => maxFileSize < sizeKB (toDataURL e)) encs.
Proof.
  intros Henv -> Hover.
  pose proof (resizeToFileSize_history fileName img cv) as Hh.
  assert (iterations (fst (resizeToFileSize fileName img cv)) = maxIterations /\
          snd (resizeToFileSize fileName img cv)
          = [CouldNotResize fileName
               (currentFileSizeKB (fst (resizeToFileSize fileName img cv)))])
    as [Hit Hmsg].
  { destruct (initialState_fields toDataURL atob img cv)
      as (_ & _ & _ & _ & _ & Es0 & _).
    cbn zeta in Es0.
    destruct (inEnvelope minFileSize maxFileSize
                (sizeKB (toDataURL (initialRender img)))) eqn:Hin.
    { exfalso.
      rewrite (resizeToFileSize_satisfied toDataURL atob minFileSize maxFileSize
                 fileName img cv Hin) in Hover.
      cbn [fst] in Hover.
      change (currentFileSizeKB (recordValid (initialState img cv)))
        with (currentFileSizeKB (initialState img cv)) in Hover.
      rewrite Es0 in Hover.
      apply (inEnvelope_true minFileSize maxFileSize) in Hin. lra. }
    destruct (Qlt_le_dec (sizeKB (toDataURL (initialRender img))) minFileSize)
      as [Hlt | Hge].
    { exfalso.
      rewrite (resizeToFileSize_below_min toDataURL atob minFileSize maxFileSize
                 fileName img cv Hlt) in Hover.
      cbn [fst] in Hover.
      change (currentFileSizeKB (recordValid (initialState img cv)))
        with (currentFileSizeKB (initialState img cv)) in Hover.
      rewrite Es0 in Hover. lra. }
    rewrite (resizeToFileSize_search toDataURL atob minFileSize maxFileSize
               fileName img cv Hin Hge) in *.
    cbn zeta in *.
    destruct (search_runs toDataURL atob minFileSize maxFileSize img cv)
      as (b & Hruns & Hexit).
    cbn zeta in Hruns, Hexit.
    destruct (runs_tracked toDataURL atob minFileSize maxFileSize img cv b _ Hruns)
      as [_ Hr].
    pose proof (runs_history img cv b _ Hruns) as (_ & _ & _ & _ & HmaxL & _).
    set (sL := while (Z.to_nat maxIterations) (initialState img cv)) in *.
    destruct (truthy (lastValidDataUrl sL)) eqn:Htr; cbn [fst snd] in *.
    - exfalso.
      destruct Hr as [[Hnone _] | (_ & Es & Hle)];
        [rewrite Hnone in Htr; discriminate |].
      change (currentFileSizeKB (useLastValid sL))
        with (lastValidFileSizeKB sL) in Hover.
      rewrite Es in Hover. lra.
    - split; [| reflexivity].
      destruct Hexit as [-> | Hguard].
      + exfalso. pose proof (runs_break _ _ _ Hruns eq_refl) as Hin'.
        apply (inEnvelope_true minFileSize maxFileSize) in Hin'. lra.
      + unfold FileSize.loopGuard in Hguard.
        apply andb_false_iff in Hguard. destruct Hguard as [Hgt | Hlt].
        * exfalso. apply gt_false in Hgt. lra.
        * apply Z.ltb_ge in Hlt. lia. }
  split; [exact Hit |]. split; [exact Hmsg |].
  destruct Hh as (encs & Hlog & Hall & Hlen & _ & _ & Hs).
  exists (encs ++ [specOf (fst (resizeToFileSize fileName img cv))])%list.
  split; [exact Hlog |]. split.
  - rewrite length_app. cbn [List.length].
    rewrite Hit in Hlen. unfold maxIterations in Hlen. lia.
  - apply Forall_app. split; [exact Hall |].
    constructor; [rewrite <- Hs; exact Hover | constructor].
Qed.


(** *** The quality schedule *)

Lemma scheduled_initial img cv : scheduled img (initialState img cv).
Proof.
  destruct (initialState_fields toDataURL atob img cv)
    as (Eq & Ew & Eh & Ei & _).
  cbn zeta in Eq, Ew, Eh, Ei.
  unfold scheduled. rewrite Eq, Ew, Eh, Ei.
  split; [lia |]. split; [| intros _; split; reflexivity].
  change (inject_Z 0) with 0. rewrite Q.max_r; [ring | lra].
Qed.

Lemma scheduled_iteration img s :
  scheduled img s -> scheduled img (fst (iteration s)).
Proof.
  intros (Hi & Hq & Hd).
  destruct (iteration_adjust toDataURL atob minFileSize maxFileSize s)
    as (Eq & Ew & Eh & Ei).
  unfold scheduled. rewrite Eq, Ew, Eh, Ei. split; [lia |].
  rewrite inject_Z_plus. change (inject_Z 1) with 1.
  destruct (Q.max_spec 0.1 (0.9 - 0.05 * inject_Z (iterations s)))
    as [[Hlt Hmax] | [Hle Hmax]]; rewrite Hmax in Hq.
  - (* still above 0.1 *)
    assert (0.1 < currentQuality s) as Habove by (rewrite Hq; exact Hlt).
    rewrite (adjust_quality_phase s Habove). cbn [fst snd]. split.
    + unfold Math_max. rewrite Hq. apply Q.max_compat; [reflexivity | ring].
    + intros Hsmall. apply Hd. lia.
  - (* at 0.1 *)
    assert (~ 0.1 < currentQuality s) as Hat by (rewrite Hq; apply Qlt_irrefl).
    rewrite (adjust_dimension_phase s Hat). cbn [fst snd]. split.
    + rewrite Hq. symmetry. apply Q.max_l. lra.
    + intros Hsmall. exfalso.
      assert (inject_Z 16 <= inject_Z (iterations s)) as H16
        by (change (inject_Z 16) with 16; lra).
      rewrite <- Zle_Qle in H16. lia.
Qed.

Lemma runs_scheduled img cv b s :
  runs (initialState img cv) b s -> scheduled img s.
Proof.
  intros Hruns. induction Hruns as [| s Hruns IH Hguard].
  - apply scheduled_initial.
  - apply scheduled_iteration; assumption.
Qed.

(** X3.  The quality the file-size branch ends with is
    [max(0.1, 0.9 - 0.05 * passes)], and when it ends within 16 passes the
    width and height are still those of the image: the dimensions are
    touched only from the seventeenth pass on. *)
Theorem search_schedule fileName img cv :
  currentQuality (fst (resizeToFileSize fileName img cv))
  == Qmax 0.1
       (0.9 - 0.05 * inject_Z (iterations (fst (resizeToFileSize fileName img cv)))) /\
  ((iterations (fst (resizeToFileSize fileName img cv)) <= 16)%Z ->
   currentWidth (fst (resizeToFileSize fileName img cv)) = width img /\
   currentHeight (fst (resizeToFileSize fileName img cv)) = height img).
Proof.
  apply (proj2 (A := (0 <= iterations (fst (resizeToFileSize fileName img cv)))%Z)).
  change (scheduled img (fst (resizeToFileSize fileName img cv))).
  destruct (inEnvelope minFileSize maxFileSize
              (sizeKB (toDataURL (initialRender img)))) eqn:Hin.
  - rewrite (resizeToFileSize_satisfied toDataURL atob minFileSize maxFileSize
               fileName img cv Hin).
    exact (scheduled_initial img cv).
  - destruct (Qlt_le_dec (sizeKB (toDataURL (initialRender img))) minFileSize)
      as [Hlt | Hge].
    + rewrite (resizeToFileSize_below_min toDataURL atob minFileSize maxFileSize
                 fileName img cv Hlt).
      exact (scheduled_initial img cv).
    + rewrite (resizeToFileSize_search toDataURL atob minFileSize maxFileSize
                 fileName img cv Hin Hge).
      cbn zeta.
      destruct (search_runs toDataURL atob minFileSize maxFileSize img cv)
        as (b & Hruns & _).
      cbn zeta in Hruns.
      pose proof (runs_scheduled img cv b _ Hruns) as Hs.
      destruct (truthy _); exact Hs.
Qed.


(** *** How far the dimensions shrink *)

Lemma round_nine_tenths_small (w : Z) :
  (1 <= w <= 5)%Z -> Math_round (inject_Z w * 0.9) = w.
Proof.
  intros Hw.
  assert (w = 1 \/ w = 2 \/ w = 3 \/ w = 4 \/ w = 5)%Z
    as [-> | [-> | [-> | [-> | ->]]]] by lia;
    reflexivity.
Qed.

Lemma round_nine_tenths_large (w : Z) :
  (6 <= w)%Z -> (5 <= Math_round (inject_Z w * 0.9) < w)%Z.
Proof.
  intros Hw.
  assert (inject_Z 6 <= inject_Z w) as Hq by (rewrite <- Zle_Qle; exact Hw).
  change (inject_Z 6) with 6 in Hq.
  destruct (Math_round_bounds (inject_Z w * 0.9)) as [Hlo Hhi].
  split.
  - apply Math_round_ge. change (inject_Z 5) with 5. lra.
  - assert (inject_Z (Math_round (inject_Z w * 0.9)) < inject_Z w) as Hlt by lra.
    rewrite <- Zlt_Qlt in Hlt. exact Hlt.
Qed.

(** X4.  A pass that shrinks the dimensions (quality not above 0.1)
    turns a side of at least 6 pixels into a strictly smaller one of at
    least 5, and leaves a side of 1 to 5 pixels as it is: 0.9 times such a
    side rounds back to it.  The guard against sides below 1 is never
    taken for a side of at least 1. *)
Theorem shrink_pass s :
  ~ 0.1 < currentQuality s ->
  (1 <= currentWidth s)%Z -> (1 <= currentHeight s)%Z ->
  adjust s =
  (currentQuality s,
   Math_round (inject_Z (currentWidth s) * 0.9),
   Math_round (inject_Z (currentHeight s) * 0.9)) /\
  ((currentWidth s <= 5)%Z ->
   Math_round (inject_Z (currentWidth s) * 0.9) = currentWidth s) /\
  ((6 <= currentWidth s)%Z ->
   (5 <= Math_round (inject_Z (currentWidth s) * 0.9) < currentWidth s)%Z) /\
  ((currentHeight s <= 5)%Z ->
   Math_round (inject_Z (currentHeight s) * 0.9) = currentHeight s) /\
  ((6 <= currentHeight s)%Z ->
   (5 <= Math_round (inject_Z (currentHeight s) * 0.9) < currentHeight s)%Z).
Proof.
  intros Hq Hw Hh.
  assert (forall w, (1 <= w)%Z -> (1 <= Math_round (inject_Z w * 0.9))%Z) as Hpos.
  { intros w H1. destruct (Z_le_gt_dec w 5) as [Hsmall | Hlarge].
    - rewrite round_nine_tenths_small; lia.
    - pose proof (round_nine_tenths_large w). lia. }
  split.
  - rewrite (adjust_dimension_phase s Hq).
    rewrite !Z.max_r by (apply Hpos; assumption). reflexivity.
  - split; [intros H5; apply round_nine_tenths_small; lia |].
    split; [apply round_nine_tenths_large |].
    split; [intros H5; apply round_nine_tenths_small; lia |].
    apply round_nine_tenths_large.
Qed.

Lemma sideKept_shrink (original w : Z) :
  (1 <= original)%Z -> sideKept original w ->
  sideKept original (Z.max 1 (Math_round (inject_Z w * 0.9))).
Proof.
  unfold sideKept. intros H1 Hk.
  destruct (Z_le_gt_dec w 5) as [Hsmall | Hlarge].
  - rewrite round_nine_tenths_small by lia. lia.
  - pose proof (round_nine_tenths_large w). lia.
Qed.

Lemma runs_sideKept img cv b s :
  (1 <= width img)%Z -> (1 <= height img)%Z ->
  runs (initialState img cv) b s ->
  sideKept (width img) (currentWidth s) /\
  sideKept (height img) (currentHeight s).
Proof.
  intros HW HH Hruns. induction Hruns as [| s Hruns [IHw IHh] Hguard].
  - destruct (initialState_fields toDataURL atob img cv) as (_ & Ew & Eh & _).
    cbn zeta in Ew, Eh. rewrite Ew, Eh. unfold sideKept. lia.
  - destruct (iteration_adjust toDataURL atob minFileSize maxFileSize s)
      as (_ & Ew & Eh & _).
    rewrite Ew, Eh.
    destruct (Qlt_le_dec 0.1 (currentQuality s)) as [Habove | Hat].
    + rewrite (adjust_quality_phase s Habove). cbn [fst snd]. split; assumption.
    + rewrite (adjust_dimension_phase s (Qle_not_lt _ _ Hat)). cbn [fst snd].
      split; apply sideKept_shrink; assumption.
Qed.

(** X5.  For an image of at least 1 x 1 pixels, each side the file-size
    branch ends with lies between 5 pixels (or the image's own side, if
    that is smaller) and the image's own side: the search never enlarges
    and never shrinks a side below 5 pixels. *)
Theorem search_keeps_sides fileName img cv :
  (1 <= width img)%Z -> (1 <= height img)%Z ->
  (Z.min (width img) 5
   <= currentWidth (fst (resizeToFileSize fileName img cv)) <= width img)%Z /\
  (Z.min (height img) 5
   <= currentHeight (fst (resizeToFileSize fileName img cv)) <= height img)%Z.
Proof.
  intros HW HH.
  change (sideKept (width img)
            (currentWidth (fst (resizeToFileSize fileName img cv))) /\
          sideKept (height img)
            (currentHeight (fst (resizeToFileSize fileName img cv)))).
  assert (sideKept (width img) (currentWidth (initialState img cv)) /\
          sideKept (height img) (currentHeight (initialState img cv))) as H0
    by (apply (runs_sideKept img cv false); [| | apply FileSize.runs_start];
        assumption).
  destruct (inEnvelope minFileSize maxFileSize
              (sizeKB (toDataURL (initialRender img)))) eqn:Hin.
  - rewrite (resizeToFileSize_satisfied toDataURL atob minFileSize maxFileSize
               fileName img cv Hin).
    exact H0.
  - destruct (Qlt_le_dec (sizeKB (toDataURL (initialRender img))) minFileSize)
      as [Hlt | Hge].
    + rewrite (resizeToFileSize_below_min toDataURL atob minFileSize maxFileSize
                 fileName img cv Hlt).
      exact H0.
    + rewrite (resizeToFileSize_search toDataURL atob minFileSize maxFileSize
                 fileName img cv Hin Hge).
      cbn zeta.
      destruct (search_runs toDataURL atob minFileSize maxFileSize img cv)
        as (b & Hruns & _).
      cbn zeta in Hruns.
      pose proof (runs_sideKept img cv b _ HW HH Hruns) as Hs.
      destruct (truthy _); exact Hs.
Qed.

(** X6.  Once the quality is at 0.1 and both sides are between 1 and 5
    pixels, a render over the maximum cannot be improved: every further
    pass renders the same thing, and the loop runs until its hundredth
    pass and ends with the same quality, sides and size. *)
Theorem search_stalls fuel : forall s,
  ~ 0.1 < currentQuality s ->
  (1 <= currentWidth s <= 5)%Z -> (1 <= currentHeight s <= 5)%Z ->
  currentFileSizeKB s = sizeKB (toDataURL (specOf s)) ->
  maxFileSize < currentFileSizeKB s ->
  (iterations s <= maxIterations)%Z ->
  (maxIterations - iterations s <= Z.of_nat fuel)%Z ->
  iterations (while fuel s) = maxIterations /\
  specOf (while fuel s) = specOf s /\
  currentFileSizeKB (while fuel s) = currentFileSizeKB s.
Proof.
  induction fuel as [| fuel IH]; intros s Hq Hw Hh Hs Hover Hi Hfuel.
  - cbn [FileSize.while]. repeat split. lia.
  - cbn [FileSize.while].
    destruct (loopGuard s) eqn:Hguard.
    + assert (adjust s = (currentQuality s, currentWidth s, currentHeight s))
        as Hadj.
      { rewrite (adjust_dimension_phase s Hq).
        rewrite !round_nine_tenths_small by assumption.
        rewrite !Z.max_r by lia. reflexivity. }
      destruct (iteration_adjust toDataURL atob minFileSize maxFileSize s)
        as (Eq & Ew & Eh & Ei).
      rewrite Hadj in Eq, Ew, Eh. cbn [fst snd] in Eq, Ew, Eh.
      assert (specOf (fst (iteration s)) = specOf s) as Hspec
        by (unfold specOf; rewrite Eq, Ew, Eh; reflexivity).
      assert (currentFileSizeKB (fst (iteration s)) = currentFileSizeKB s)
        as Hsize.
      { destruct (iteration_rerender toDataURL atob minFileSize maxFileSize s)
          as (_ & _ & _ & _ & _ & Es & _).
        destruct (rerender_fields toDataURL atob s)
          as (_ & _ & _ & _ & _ & Es' & _).
        cbn zeta in Es. rewrite Es, Es', <- specOf_iteration, Hspec, <- Hs.
        reflexivity. }
      apply loopGuard_true in Hguard. destruct Hguard as [_ Hlt].
      destruct (iteration s) as [s' brk] eqn:Hit. cbn [fst] in *.
      assert (brk = false) as ->.
      { destruct brk; [| reflexivity].
        pose proof (iteration_break s) as Hb. rewrite Hit in Hb.
        cbn [fst snd] in Hb. specialize (Hb eq_refl).
        apply (inEnvelope_true minFileSize maxFileSize) in Hb.
        rewrite Hsize in Hb. exfalso. lra. }
      destruct (IH s') as (Ri & Rs & Rz).
      * rewrite Eq. exact Hq.
      * rewrite Ew. exact Hw.
      * rewrite Eh. exact Hh.
      * rewrite Hsize, Hspec. exact Hs.
      * rewrite Hsize. exact Hover.
      * lia.
      * lia.
      * split; [exact Ri |]. split; [rewrite Rs; exact Hspec |].
        rewrite Rz. exact Hsize.
    + repeat split.
      unfold FileSize.loopGuard in Hguard.
      apply andb_false_iff in Hguard. destruct Hguard as [Hgt | Hlt].
      * exfalso. apply gt_false in Hgt. lra.
      * apply Z.ltb_ge in Hlt. lia.
Qed.

End SearchMore.

(** ** The dimension resizer: when each pass acts, and symmetry *)

Section DimensionMore.

Import JS Dimension.
Open Scope Q_scope.

(** X7.  An image whose sides both lie in the whole-pixel envelope is
    given back its own size. *)
Theorem resizeDimensions_within (W H minSize maxSize : Z) :
  (minSize <= W <= maxSize)%Z -> (minSize <= H <= maxSize)%Z ->
  resizeDimensions W H (inject_Z minSize) (inject_Z maxSize) = (W, H).
Proof.
  intros HW HH. unfold resizeDimensions, clamp, maxPass.
  replace (exceedsMax (inject_Z maxSize) (inject_Z W, inject_Z H)) with false
    by (symmetry; apply exceedsMax_false; rewrite <- !Zle_Qle; lia).
  unfold minPass.
  replace (belowMin (inject_Z minSize) (inject_Z W, inject_Z H)) with false
    by (symmetry; apply belowMin_false; rewrite <- !Zle_Qle; lia).
  rewrite !Math_round_Z. reflexivity.
Qed.

Lemma scale_down a b m : 0 < a -> 0 < b -> 0 < m -> m <= b -> (a / b) * m <= a.
Proof.
  intros Ha Hb Hm Hmb.
  setoid_replace ((a / b) * m) with ((m / b) * a) by (field; lra).
  setoid_replace a with (1 * a) at 2 by ring.
  apply Qmult_le_compat_r; [| lra].
  apply Qle_shift_div_r; lra.
Qed.

Lemma scale_up a b m : 0 < a -> 0 < b -> 0 < m -> b <= m -> a <= (a / b) * m.
Proof.
  intros Ha Hb Hm Hbm.
  setoid_replace ((a / b) * m) with ((m / b) * a) by (field; lra).
  setoid_replace a with (1 * a) at 1 by ring.
  apply Qmult_le_compat_r; [| lra].
  apply Qle_shift_div_l; lra.
Qed.

(** What the min pass does to a pair with a side below [minSize]. *)
Lemma minPass_fired m w h :
  w < m \/ h < m ->
  (w < h /\ minPass m (w, h) = (mul (div w h) m, m)) \/
  (h <= w /\ minPass m (w, h) = (m, mul (div h w) m)).
Proof.
  intros Hbelow. unfold minPass.
  replace (belowMin m (w, h)) with true
    by (symmetry; apply belowMin_true; exact Hbelow).
  destruct (lt w h) eqn:Hwh.
  - left. apply lt_true in Hwh. split; [exact Hwh | reflexivity].
  - right. apply lt_false in Hwh. split; [exact Hwh | reflexivity].
Qed.

(** The shorter side [a] of a pair [a <= b] after the min pass. *)
Lemma min_side (a b m : Z) :
  (0 < a <= b)%Z -> (b <= 2 ^ 50)%Z -> (0 < m <= 2 ^ 53)%Z ->
  (Math_round (mul (div (inject_Z a) (inject_Z b)) (inject_Z m)) <= m)%Z /\
  ((m <= b)%Z ->
   (Math_round (mul (div (inject_Z a) (inject_Z b)) (inject_Z m)) <= a)%Z) /\
  ((b <= m)%Z ->
   (a <= Math_round (mul (div (inject_Z a) (inject_Z b)) (inject_Z m)))%Z).
Proof.
  intros Hab Hb Hm.
  assert (1 <= inject_Z a) as Ha1
    by (change 1 with (inject_Z 1); rewrite <- Zle_Qle; lia).
  assert (inject_Z a <= inject_Z b) as Hab' by (rewrite <- Zle_Qle; lia).
  assert (inject_Z b <= 1125899906842624) as Hb'
    by (change 1125899906842624 with (inject_Z (2 ^ 50)); rewrite <- Zle_Qle; lia).
  assert (1 <= inject_Z m) as Hm1
    by (change 1 with (inject_Z 1); rewrite <- Zle_Qle; lia).
  destruct (scaled_side_le (inject_Z a) (inject_Z b) (inject_Z m)
              ltac:(lra) Hab' ltac:(lra) ltac:(lra) (round64_Z m Hm)) as [_ Hle].
  destruct (scaled_side_near (inject_Z a) (inject_Z b) (inject_Z m)
              Ha1 Hab' Hb' Hm1) as [Lo Hi].
  set (r := mul (div (inject_Z a) (inject_Z b)) (inject_Z m)) in *.
  split; [apply Math_round_le; exact Hle |]. split.
  - intros Hmb. apply Math_round_below.
    pose proof (scale_down (inject_Z a) (inject_Z b) (inject_Z m)
                  ltac:(lra) ltac:(lra) ltac:(lra)
                  ltac:(rewrite <- Zle_Qle; lia)) as Hx.
    set (x := inject_Z a / inject_Z b * inject_Z m) in *. lra.
  - intros Hbm. apply Math_round_above.
    pose proof (scale_up (inject_Z a) (inject_Z b) (inject_Z m)
                  ltac:(lra) ltac:(lra) ltac:(lra)
                  ltac:(rewrite <- Zle_Qle; lia)) as Hx.
    set (x := inject_Z a / inject_Z b * inject_Z m) in *. lra.
Qed.

(** X8.  For an image within [maxSize] on both sides but below [minSize]
    on at least one, the longer output side is exactly [minSize].  If the
    image's longer side was already at least [minSize] the image is
    thereby made smaller (no output side exceeds the image's); if it was
    at most [minSize] the image is made larger.  The sides are at most
    [2^50] pixels and [minSize] is a whole number up to [2^53]. *)
Theorem min_pass_sets_longer_side (W H minSize maxSize newWidth newHeight : Z) :
  (0 < W <= maxSize)%Z -> (0 < H <= maxSize)%Z ->
  (maxSize <= 2 ^ 50)%Z -> (0 < minSize <= 2 ^ 53)%Z ->
  (W < minSize \/ H < minSize)%Z ->
  resizeDimensions W H (inject_Z minSize) (inject_Z maxSize)
    = (newWidth, newHeight) ->
  Z.max newWidth newHeight = minSize /\
  ((minSize <= Z.max W H)%Z -> (newWidth <= W)%Z /\ (newHeight <= H)%Z) /\
  ((Z.max W H <= minSize)%Z -> (W <= newWidth)%Z /\ (H <= newHeight)%Z).
Proof.
  intros HW HH HM Hm Hbelow Hd.
  assert (inject_Z W < inject_Z minSize \/ inject_Z H < inject_Z minSize) as Hbelow'
    by (rewrite <- !Zlt_Qlt; exact Hbelow).
  unfold resizeDimensions, clamp, maxPass in Hd.
  replace (exceedsMax (inject_Z maxSize) (inject_Z W, inject_Z H)) with false in Hd
    by (symmetry; apply exceedsMax_false; rewrite <- !Zle_Qle; lia).
  destruct (minPass_fired _ _ _ Hbelow') as [[Hlt E] | [Hle E]];
    rewrite E in Hd; injection Hd as <- <-; rewrite Math_round_Z.
  - rewrite <- Zlt_Qlt in Hlt.
    destruct (min_side W H minSize) as (B & Down & Up); [lia | lia | lia |].
    split; [lia |]. split.
    + intros Hlong. split; [apply Down |]; lia.
    + intros Hshort. split; [apply Up |]; lia.
  - rewrite <- Zle_Qle in Hle.
    destruct (min_side H W minSize) as (B & Down & Up); [lia | lia | lia |].
    split; [lia |]. split.
    + intros Hlong. split; [| apply Down]; lia.
    + intros Hshort. split; [| apply Up]; lia.
Qed.


(** Beyond [2^50] pixels the rounding of the product can add a pixel. *)
Lemma min_pass_large_sides :
  resizeDimensions 4394419763815951 7647318868360753
    (inject_Z 7647318868360753) (inject_Z 7647318868360753)
  = (4394419763815952, 7647318868360753)%Z.
Proof. vm_compute. reflexivity. Qed.

(** What the max pass does to a pair with a side over [maxSize]. *)
Lemma maxPass_fired M w h :
  M < w \/ M < h ->
  (h < w /\ maxPass M (w, h) = (M, mul (div h w) M)) \/
  (w <= h /\ maxPass M (w, h) = (mul (div w h) M, M)).
Proof.
  intros Hover. unfold maxPass.
  replace (exceedsMax M (w, h)) with true
    by (symmetry; apply exceedsMax_true; exact Hover).
  destruct (gt w h) eqn:Hwh.
  - left. apply gt_true in Hwh. split; [exact Hwh | reflexivity].
  - right. apply gt_false in Hwh. split; [exact Hwh | reflexivity].
Qed.

(** The shorter side [s] of a pair [s <= l] after the max pass, when the
    pair fits the envelope with room to spare. *)
Lemma max_side (s l m M : Z) :
  (0 < s <= l)%Z -> (0 < m <= M)%Z -> (M < l)%Z ->
  (m * l < M * s)%Z -> (m * l <= 2 ^ 52)%Z ->
  inject_Z m <= mul (div (inject_Z s) (inject_Z l)) (inject_Z M) /\
  mul (div (inject_Z s) (inject_Z l)) (inject_Z M) <= inject_Z M.
Proof.
  intros Hsl HmM HMl Hfit Hsmall.
  assert (l <= 2 ^ 52)%Z as Hl by nia.
  assert (0 < inject_Z s) as Hs'
    by (change 0 with (inject_Z 0); rewrite <- Zlt_Qlt; lia).
  assert (inject_Z s <= inject_Z l) as Hsl' by (rewrite <- Zle_Qle; lia).
  assert (0 < inject_Z l) as Hl' by lra.
  assert (0 < inject_Z m) as Hm'
    by (change 0 with (inject_Z 0); rewrite <- Zlt_Qlt; lia).
  assert (0 < inject_Z M) as HM'
    by (change 0 with (inject_Z 0); rewrite <- Zlt_Qlt; lia).
  pose proof (round64_Z M ltac:(lia)) as DM.
  pose proof (round64_Z m ltac:(lia)) as Dm.
  split; [| apply scaled_side_le; try assumption; lra].
  unfold mul, div. rewrite <- Dm at 1.
  apply round64_mono; [lra |].
  assert (1 # 4503599627370496 <= inject_Z s / inject_Z l) as Hq.
  { apply Qle_shift_div_l; [exact Hl' |].
    assert (inject_Z l <= 4503599627370496) as H1
      by (change 4503599627370496 with (inject_Z (2 ^ 52)); rewrite <- Zle_Qle; lia).
    assert (1 <= inject_Z s) as H2
      by (change 1 with (inject_Z 1); rewrite <- Zle_Qle; lia).
    lra. }
  pose proof (pow2_le (-1022) (-52) ltac:(lia)) as Hn.
  change (2 ^ (-52)) with (1 # 4503599627370496) in Hn.
  destruct (round64_error (inject_Z s / inject_Z l)) as [Lo _]; [lra |].
  change (2 ^ (-53)) with (1 # 9007199254740992) in Lo.
  apply Qle_trans
    with (inject_Z s / inject_Z l * (1 - (1 # 9007199254740992)) * inject_Z M);
    [| apply Qmult_le_compat_r; lra].
  assert (inject_Z (m * l) + 1 <= inject_Z (M * s)) as HP
    by (change 1 with (inject_Z 1); rewrite <- inject_Z_plus, <- Zle_Qle; lia).
  assert (inject_Z (m * l) <= 4503599627370496) as HR
    by (change 4503599627370496 with (inject_Z (2 ^ 52)); rewrite <- Zle_Qle; lia).
  rewrite (inject_Z_mult m l), (inject_Z_mult M s) in HP.
  rewrite (inject_Z_mult m l) in HR.
  setoid_replace (inject_Z s / inject_Z l * (1 - (1 # 9007199254740992)) * inject_Z M)
    with (inject_Z M * inject_Z s * (1 - (1 # 9007199254740992)) / inject_Z l)
    by (field; lra).
  apply Qle_shift_div_l; [exact Hl' |]. lra.
Qed.

(** X9.  For an image with a side over [maxSize] whose sides are
    strictly closer together than the envelope allows
    ([minSize * longer < maxSize * shorter], with [minSize * longer] at
    most [2^52]), the output lies in the envelope and its longer side is
    exactly [maxSize]. *)
Theorem max_pass_fits_envelope (W H minSize maxSize newWidth newHeight : Z) :
  (0 < W)%Z -> (0 < H)%Z ->
  invalidEnvelope (inject_Z minSize) (inject_Z maxSize) = false ->
  (maxSize < W \/ maxSize < H)%Z ->
  (minSize * Z.max W H < maxSize * Z.min W H)%Z ->
  (minSize * Z.max W H <= 2 ^ 52)%Z ->
  resizeDimensions W H (inject_Z minSize) (inject_Z maxSize)
    = (newWidth, newHeight) ->
  withinEnvelope minSize maxSize (newWidth, newHeight) /\
  Z.max newWidth newHeight = maxSize.
Proof.
  intros HW HH Hvalid Hover Hfit Hsmall Hd.
  destruct (invalidEnvelope_false minSize maxSize Hvalid) as [Hm HmM].
  assert (inject_Z minSize <= inject_Z maxSize) as HmM'
    by (rewrite <- Zle_Qle; lia).
  assert (inject_Z maxSize < inject_Z W \/ inject_Z maxSize < inject_Z H) as Hover'
    by (rewrite <- !Zlt_Qlt; exact Hover).
  unfold resizeDimensions, clamp in Hd.
  destruct (maxPass_fired _ _ _ Hover') as [[Hlt E] | [Hle E]]; rewrite E in Hd.
  - rewrite <- Zlt_Qlt in Hlt.
    rewrite Z.max_l, Z.min_r in Hfit by lia. rewrite Z.max_l in Hsmall by lia.
    destruct (max_side H W minSize maxSize) as [Hlow Hhigh]; try lia.
    unfold minPass in Hd.
    replace (belowMin (inject_Z minSize)
               (inject_Z maxSize,
                mul (div (inject_Z H) (inject_Z W)) (inject_Z maxSize)))
      with false in Hd
      by (symmetry; apply belowMin_false; split; assumption).
    injection Hd as <- <-. rewrite Math_round_Z.
    pose proof (Math_round_ge _ _ Hlow). pose proof (Math_round_le _ _ Hhigh).
    unfold withinEnvelope. cbn [fst snd]. lia.
  - rewrite <- Zle_Qle in Hle.
    rewrite Z.max_r, Z.min_l in Hfit by lia. rewrite Z.max_r in Hsmall by lia.
    destruct (max_side W H minSize maxSize) as [Hlow Hhigh]; try lia.
    unfold minPass in Hd.
    replace (belowMin (inject_Z minSize)
               (mul (div (inject_Z W) (inject_Z H)) (inject_Z maxSize),
                inject_Z maxSize))
      with false in Hd
      by (symmetry; apply belowMin_false; split; assumption).
    injection Hd as <- <-. rewrite Math_round_Z.
    pose proof (Math_round_ge _ _ Hlow). pose proof (Math_round_le _ _ Hhigh).
    unfold withinEnvelope. cbn [fst snd]. lia.
Qed.

(** When the sides fit the envelope exactly the product can fall just
    under [minSize], and the min pass fires: [(200 / 9800) * 4900] is
    below 100 in binary64. *)
Lemma max_pass_exact_fit :
  resizeDimensions 9800 200 (inject_Z 100) (inject_Z 4900) = (100, 2)%Z.
Proof. vm_compute. reflexivity. Qed.

(** *** Width and height are treated alike *)

Lemma lt_comp a a' b b' : a == a' -> b == b' -> lt a b = lt a' b'.
Proof. intros Ea Eb. unfold lt. rewrite Ea, Eb. reflexivity. Qed.

Lemma scaled_side_proper a a' b b' m :
  a == a' -> b == b' -> mul (div a b) m == mul (div a' b') m.
Proof.
  intros Ea Eb. unfold mul, div. apply round64_proper.
  rewrite (round64_proper (a / b) (a' / b')) by (rewrite Ea, Eb; reflexivity).
  reflexivity.
Qed.

(** Equal sides: the quotient is 1 and the product is the bound. *)
Lemma scaled_side_equal a b m :
  0 < a -> a == b -> round64 m == m -> mul (div a b) m == m.
Proof.
  intros Ha E Dm. unfold mul, div.
  rewrite (round64_proper (round64 (a / b) * m) m); [exact Dm |].
  rewrite (round64_proper (a / b) 1) by (rewrite E; field; lra).
  rewrite round64_one. ring.
Qed.

(** The max pass on the transposed pair. *)
Lemma maxPass_transposed M w h :
  0 < w -> 0 < h -> 0 < M -> round64 M == M ->
  fst (maxPass M (h, w)) == snd (maxPass M (w, h)) /\
  snd (maxPass M (h, w)) == fst (maxPass M (w, h)) /\
  (0 < fst (maxPass M (w, h)) \/ 0 < snd (maxPass M (w, h))).
Proof.
  intros Hw Hh HM DM. unfold maxPass, exceedsMax.
  rewrite (orb_comm (gt h M) (gt w M)).
  destruct (gt w M || gt h M).
  - destruct (gt w h) eqn:Ewh; destruct (gt h w) eqn:Ehw; cbn [fst snd].
    + apply gt_true in Ewh, Ehw. exfalso. lra.
    + repeat split; try reflexivity. left; exact HM.
    + repeat split; try reflexivity. right; exact HM.
    + apply gt_false in Ewh, Ehw.
      assert (w == h) as E by (apply Qle_antisym; assumption).
      split; [apply scaled_side_equal; [exact Hh | symmetry; exact E | exact DM] |].
      split; [symmetry; apply scaled_side_equal; assumption |].
      right; exact HM.
  - cbn [fst snd]. repeat split; try reflexivity. left; exact Hw.
Qed.

(** The min pass on a transposed pair, up to equality of rationals. *)
Lemma minPass_transposed m w h w' h' :
  0 < w \/ 0 < h -> w == w' -> h == h' -> round64 m == m ->
  fst (minPass m (h', w')) == snd (minPass m (w, h)) /\
  snd (minPass m (h', w')) == fst (minPass m (w, h)).
Proof.
  intros Hpos Ew Eh Dm. unfold minPass, belowMin.
  rewrite (lt_comp h' h m m), (lt_comp w' w m m) by (reflexivity || (symmetry; assumption)).
  rewrite (lt_comp h' h w' w) by (symmetry; assumption).
  rewrite (orb_comm (lt h m) (lt w m)).
  destruct (lt w m || lt h m).
  - destruct (lt w h) eqn:Ewh; destruct (lt h w) eqn:Ehw; cbn [fst snd].
    + apply lt_true in Ewh, Ehw. exfalso. lra.
    + split; [reflexivity | apply scaled_side_proper; symmetry; assumption].
    + split; [apply scaled_side_proper; symmetry; assumption | reflexivity].
    + apply lt_false in Ewh, Ehw.
      assert (w == h) as E by (apply Qle_antisym; assumption).
      assert (0 < w) as Hw by (destruct Hpos; lra).
      split.
      * symmetry. apply scaled_side_equal; [lra | symmetry; exact E | exact Dm].
      * apply scaled_side_equal; [lra | lra | exact Dm].
  - cbn [fst snd]. split; symmetry; assumption.
Qed.

(** X10.  Transposing the image transposes the result: a [W] x [H] image
    comes out as [(a, b)] exactly when the [H] x [W] image comes out as
    [(b, a)], for any minimum and any positive maximum that are
    doubles. *)
Theorem resizeDimensions_transposed (W H : Z) (minSize maxSize : Q) :
  (0 < W)%Z -> (0 < H)%Z -> 0 < maxSize ->
  double minSize -> double maxSize ->
  resizeDimensions H W minSize maxSize
  = (snd (resizeDimensions W H minSize maxSize),
     fst (resizeDimensions W H minSize maxSize)).
Proof.
  intros HW HH HM [Dm _] [DM _].
  assert (0 < inject_Z W) as HW' by (change 0 with (inject_Z 0); rewrite <- Zlt_Qlt; lia).
  assert (0 < inject_Z H) as HH' by (change 0 with (inject_Z 0); rewrite <- Zlt_Qlt; lia).
  rewrite !resizeDimensions_eq. cbn [fst snd]. unfold clamp.
  destruct (maxPass_transposed maxSize _ _ HW' HH' HM DM) as (E1 & E2 & Hpos).
  destruct (maxPass maxSize (inject_Z W, inject_Z H)) as [w1 h1].
  destruct (maxPass maxSize (inject_Z H, inject_Z W)) as [h1' w1'].
  cbn [fst snd] in *.
  destruct (minPass_transposed minSize w1 h1 w1' h1' Hpos) as [F1 F2];
    [symmetry; exact E2 | symmetry; exact E1 | exact Dm |].
  f_equal; apply Math_round_comp; assumption.
Qed.

(** *** What every output looks like *)

(** After the max pass both sides lie between 0 and [maxSize]. *)
Lemma maxPass_bounds M w h :
  0 < w -> 0 < h -> 0 < M -> round64 M == M ->
  0 <= fst (maxPass M (w, h)) <= M /\ 0 <= snd (maxPass M (w, h)) <= M.
Proof.
  intros Hw Hh HM DM. unfold maxPass.
  destruct (exceedsMax M (w, h)) eqn:Hfire.
  - destruct (gt w h) eqn:Hwh; cbn [fst snd].
    + apply gt_true in Hwh.
      destruct (scaled_side_le h w M) as [L U]; try assumption; try lra.
    + apply gt_false in Hwh.
      destruct (scaled_side_le w h M) as [L U]; try assumption; try lra.
  - apply exceedsMax_false in Hfire. cbn [fst snd]. lra.
Qed.

(** After the min pass both sides are still within [maxSize]; either both
    reach [minSize], or one side is [minSize] and the other at most
    that. *)
Lemma minPass_shape m M w h :
  0 <= w <= M -> 0 <= h <= M -> 0 < m -> m <= M -> round64 m == m ->
  0 <= fst (minPass m (w, h)) <= M /\ 0 <= snd (minPass m (w, h)) <= M /\
  ((m <= fst (minPass m (w, h)) /\ m <= snd (minPass m (w, h))) \/
   (fst (minPass m (w, h)) = m /\ snd (minPass m (w, h)) <= m) \/
   (snd (minPass m (w, h)) = m /\ fst (minPass m (w, h)) <= m)).
Proof.
  intros Hw Hh Hm HmM Dm. unfold minPass.
  destruct (belowMin m (w, h)) eqn:Hfire.
  - destruct (lt w h) eqn:Hwh; cbn [fst snd].
    + apply lt_true in Hwh.
      destruct (scaled_side_le w h m) as [L U]; try assumption; try lra.
      split; [lra |]. split; [lra |]. right; right. split; [reflexivity | exact U].
    + apply lt_false in Hwh. apply belowMin_true in Hfire.
      destruct (Qeq_dec w 0) as [Z | NZ].
      * (* both sides are 0 *)
        assert (mul (div h w) m == 0) as E.
        { unfold mul, div. apply round64_zero.
          rewrite (round64_zero (h / w)); [ring |].
          assert (h == 0) as -> by lra. unfold Qdiv. ring. }
        split; [lra |]. split; [lra |]. right; left. split; [reflexivity | lra].
      * destruct (scaled_side_le h w m) as [L U]; try assumption; try lra.
        split; [lra |]. split; [lra |]. right; left. split; [reflexivity | exact U].
  - apply belowMin_false in Hfire. cbn [fst snd].
    split; [lra |]. split; [lra |]. left; lra.
Qed.

Lemma resizeDimensions_shape (W H minSize maxSize : Z) :
  (0 < W)%Z -> (0 < H)%Z -> (0 < minSize <= maxSize)%Z -> (maxSize <= 2 ^ 53)%Z ->
  (0 <= fst (resizeDimensions W H (inject_Z minSize) (inject_Z maxSize)) <= maxSize)%Z /\
  (0 <= snd (resizeDimensions W H (inject_Z minSize) (inject_Z maxSize)) <= maxSize)%Z /\
  ((minSize <= fst (resizeDimensions W H (inject_Z minSize) (inject_Z maxSize)) /\
    minSize <= snd (resizeDimensions W H (inject_Z minSize) (inject_Z maxSize))) \/
   (fst (resizeDimensions W H (inject_Z minSize) (inject_Z maxSize)) = minSize /\
    snd (resizeDimensions W H (inject_Z minSize) (inject_Z maxSize)) <= minSize) \/
   (snd (resizeDimensions W H (inject_Z minSize) (inject_Z maxSize)) = minSize /\
    fst (resizeDimensions W H (inject_Z minSize) (inject_Z maxSize)) <= minSize))%Z.
Proof.
  intros HW HH Hm HM. rewrite resizeDimensions_eq. cbn [fst snd]. unfold clamp.
  assert (0 < inject_Z W) as HW' by (change 0 with (inject_Z 0); rewrite <- Zlt_Qlt; lia).
  assert (0 < inject_Z H) as HH' by (change 0 with (inject_Z 0); rewrite <- Zlt_Qlt; lia).
  assert (0 < inject_Z minSize) as Hm'
    by (change 0 with (inject_Z 0); rewrite <- Zlt_Qlt; lia).
  assert (inject_Z minSize <= inject_Z maxSize) as HmM' by (rewrite <- Zle_Qle; lia).
  destruct (maxPass_bounds (inject_Z maxSize) _ _ HW' HH' ltac:(lra)
              (round64_Z maxSize ltac:(lia))) as [Bw Bh].
  destruct (maxPass (inject_Z maxSize) (inject_Z W, inject_Z H)) as [w1 h1].
  cbn [fst snd] in Bw, Bh.
  destruct (minPass_shape (inject_Z minSize) (inject_Z maxSize) w1 h1
              Bw Bh Hm' HmM' (round64_Z minSize ltac:(lia)))
    as (Cw & Ch & Cases).
  destruct (minPass (inject_Z minSize) (w1, h1)) as [w2 h2]. cbn [fst snd] in *.
  assert (0 <= Math_round w2)%Z as Pw
    by (apply Math_round_ge; change (inject_Z 0) with 0; lra).
  assert (0 <= Math_round h2)%Z as Ph
    by (apply Math_round_ge; change (inject_Z 0) with 0; lra).
  pose proof (Math_round_le w2 maxSize ltac:(lra)) as Uw.
  pose proof (Math_round_le h2 maxSize ltac:(lra)) as Uh.
  split; [lia |]. split; [lia |].
  destruct Cases as [[Lw Lh] | [[Ew' Lh] | [Eh' Lw]]].
  - left. split; apply Math_round_ge; assumption.
  - right; left. subst w2. split; [apply Math_round_Z | apply Math_round_le; exact Lh].
  - right; right. subst h2. split; [apply Math_round_Z | apply Math_round_le; exact Lw].
Qed.

(** The min pass gives a whole side [a <= b = minSize] back. *)
Lemma min_side_fixed (a m : Z) :
  (0 <= a <= m)%Z -> (0 < m <= 2 ^ 50)%Z ->
  Math_round (mul (div (inject_Z a) (inject_Z m)) (inject_Z m)) = a.
Proof.
  intros Ha Hm. destruct (Z.eq_dec a 0) as [-> | NZ].
  { rewrite (Math_round_comp _ 0); [reflexivity |].
    unfold mul, div. apply round64_zero.
    rewrite (round64_zero (inject_Z 0 / inject_Z m)); [ring | unfold Qdiv; ring]. }
  assert (1 <= inject_Z a) as Ha1
    by (change 1 with (inject_Z 1); rewrite <- Zle_Qle; lia).
  assert (inject_Z a <= inject_Z m) as Ham by (rewrite <- Zle_Qle; lia).
  assert (inject_Z m <= 1125899906842624) as Hm'
    by (change 1125899906842624 with (inject_Z (2 ^ 50)); rewrite <- Zle_Qle; lia).
  destruct (scaled_side_near (inject_Z a) (inject_Z m) (inject_Z m)
              Ha1 Ham Hm' ltac:(lra)) as [Lo Hi].
  assert (inject_Z a / inject_Z m * inject_Z m == inject_Z a) as E by (field; lra).
  rewrite E in Lo, Hi.
  apply Math_round_unique; lra.
Qed.

Lemma resizeDimensions_fixed (a b minSize maxSize : Z) :
  (0 < minSize)%Z -> (maxSize <= 2 ^ 50)%Z ->
  (0 <= a <= maxSize)%Z -> (0 <= b <= maxSize)%Z ->
  ((minSize <= a /\ minSize <= b) \/
   (a = minSize /\ b <= minSize) \/
   (b = minSize /\ a <= minSize))%Z ->
  exceedsMax (inject_Z maxSize) (inject_Z a, inject_Z b) = false /\
  resizeDimensions a b (inject_Z minSize) (inject_Z maxSize) = (a, b).
Proof.
  intros Hm HM Ha Hb Cases.
  assert (exceedsMax (inject_Z maxSize) (inject_Z a, inject_Z b) = false) as Hmax.
  { apply exceedsMax_false. rewrite <- !Zle_Qle. lia. }
  split; [exact Hmax |].
  unfold resizeDimensions, clamp, maxPass. rewrite Hmax.
  unfold minPass.
  destruct (belowMin (inject_Z minSize) (inject_Z a, inject_Z b)) eqn:Hfire.
  - apply belowMin_true in Hfire. rewrite <- !Zlt_Qlt in Hfire.
    destruct (lt (inject_Z a) (inject_Z b)) eqn:Hab.
    + apply lt_true in Hab. rewrite <- Zlt_Qlt in Hab.
      assert (b = minSize) as -> by lia.
      f_equal; [apply min_side_fixed; lia | apply Math_round_Z].
    + apply lt_false in Hab. rewrite <- Zle_Qle in Hab.
      assert (a = minSize) as -> by lia.
      f_equal; [apply Math_round_Z | apply min_side_fixed; lia].
  - f_equal; apply Math_round_Z.
Qed.

(** X17.  With a whole-pixel envelope no output side exceeds [maxSize],
    none is negative, and the longer output side is at least
    [minSize]. *)
Theorem resizeDimensions_bounds (W H minSize maxSize newWidth newHeight : Z) :
  (0 < W)%Z -> (0 < H)%Z ->
  invalidEnvelope (inject_Z minSize) (inject_Z maxSize) = false ->
  (maxSize <= 2 ^ 53)%Z ->
  resizeDimensions W H (inject_Z minSize) (inject_Z maxSize)
    = (newWidth, newHeight) ->
  (0 <= newWidth <= maxSize)%Z /\ (0 <= newHeight <= maxSize)%Z /\
  (minSize <= Z.max newWidth newHeight)%Z.
Proof.
  intros HW HH Hvalid HM Hd.
  destruct (invalidEnvelope_false minSize maxSize Hvalid) as [Hm HmM].
  pose proof (resizeDimensions_shape W H minSize maxSize HW HH ltac:(lia) HM)
    as Hshape.
  rewrite Hd in Hshape. cbn [fst snd] in Hshape. lia.
Qed.

(** X18.  With a whole-pixel envelope of at most [2^50] pixels, resizing
    the output again gives the same size. *)
Theorem resizeDimensions_again (W H minSize maxSize newWidth newHeight : Z) :
  (0 < W)%Z -> (0 < H)%Z ->
  invalidEnvelope (inject_Z minSize) (inject_Z maxSize) = false ->
  (maxSize <= 2 ^ 50)%Z ->
  resizeDimensions W H (inject_Z minSize) (inject_Z maxSize)
    = (newWidth, newHeight) ->
  resizeDimensions newWidth newHeight (inject_Z minSize) (inject_Z maxSize)
    = (newWidth, newHeight).
Proof.
  intros HW HH Hvalid HM Hd.
  destruct (invalidEnvelope_false minSize maxSize Hvalid) as [Hm HmM].
  pose proof (resizeDimensions_shape W H minSize maxSize HW HH ltac:(lia) ltac:(lia))
    as Hshape.
  rewrite Hd in Hshape. cbn [fst snd] in Hshape.
  destruct Hshape as (Bw & Bh & Cases).
  apply (resizeDimensions_fixed newWidth newHeight minSize maxSize Hm HM Bw Bh Cases).
Qed.

End DimensionMore.

(** ** Output names *)

Section NamesMore.

Import JS Browser Convert.
Open Scope string_scope.

Variable atob : string -> string.

Lemma pushed_name toDataURL cfg file img cv :
  startsWith "image/" (file_type file) = true ->
  option_map name (pushed (convertFile toDataURL atob cfg file img cv))
  = Some (match resizeMode cfg with
          | dimensions => "resized_dim_" ++ file_name file
          | fileSize => FileSize.outputFileName (file_name file)
          end).
Proof.
  intros Himg. unfold convertFile. rewrite Himg. cbn [negb].
  destruct (resizeMode cfg).
  - destruct (Dimension.resizeDimensions _ _ _ _). reflexivity.
  - destruct (FileSize.resizeToFileSize _ _ _ _ _ _ _). reflexivity.
Qed.

(** X11.  In file-size mode two image files whose names differ only
    after the last dot are pushed under one and the same name; in
    dimension mode two image files pushed under the same name have the
    same file name. *)
Theorem output_name_collisions cfg f1 f2 img1 img2 cv1 cv2 toDataURL1 toDataURL2 :
  startsWith "image/" (file_type f1) = true ->
  startsWith "image/" (file_type f2) = true ->
  (resizeMode cfg = fileSize ->
   forall base ext1 ext2,
     file_name f1 = base ++ "." ++ ext1 -> includes "." ext1 = false ->
     file_name f2 = base ++ "." ++ ext2 -> includes "." ext2 = false ->
     option_map name (pushed (convertFile toDataURL1 atob cfg f1 img1 cv1))
     = option_map name (pushed (convertFile toDataURL2 atob cfg f2 img2 cv2))) /\
  (resizeMode cfg = dimensions ->
   option_map name (pushed (convertFile toDataURL1 atob cfg f1 img1 cv1))
   = option_map name (pushed (convertFile toDataURL2 atob cfg f2 img2 cv2)) ->
   file_name f1 = file_name f2).
Proof.
  intros H1 H2.
  rewrite (pushed_name toDataURL1 cfg f1 img1 cv1 H1).
  rewrite (pushed_name toDataURL2 cfg f2 img2 cv2 H2).
  split.
  - intros -> base ext1 ext2 -> He1 -> He2.
    rewrite !outputFileName_with_extension by assumption. reflexivity.
  - intros -> Heq. injection Heq as Heq. exact Heq.
Qed.

End NamesMore.

(** ** [dataURLtoBlob] *)

Section DataUrlFacts.

Import JS DataUrl.
Open Scope string_scope.

Variable atob : string -> string.

Lemma store_length i v arr : List.length (store i v arr) = List.length arr.
Proof.
  unfold store. destruct (Nat.ltb_spec i (List.length arr)) as [Hlt | Hge];
    [| reflexivity].
  rewrite !length_app, length_firstn, length_skipn. cbn [List.length]. lia.
Qed.

Lemma get_nth (s : string) (i : nat) :
  (i < String.length s)%nat ->
  String.get i s = Some (nth i (list_ascii_of_string s) "000"%char).
Proof.
  revert i. induction s as [| c s IH]; intros i Hi; cbn in Hi; [lia |].
  destruct i as [| i]; cbn; [reflexivity |]. apply IH. lia.
Qed.

Lemma length_chars (s : string) :
  List.length (list_ascii_of_string s) = String.length s.
Proof. induction s as [| c s IH]; cbn; [reflexivity | rewrite IH; reflexivity]. Qed.

Lemma firstn_succ_nth {A : Type} (d : A) (l : list A) : forall n,
  (n < List.length l)%nat ->
  firstn (S n) l = (firstn n l ++ [nth n l d])%list.
Proof.
  induction l as [| x l IH]; intros n Hn; cbn in Hn; [lia |].
  destruct n as [| n]; [reflexivity |].
  cbn [firstn nth app]. rewrite <- IH by lia. reflexivity.
Qed.

(** The loop fills the array from the back: after the passes for the
    indices [n, ...] the tail from [n] on holds the character codes. *)
Lemma fill_spec (bstr : string) : forall n arr,
  (n <= String.length bstr)%nat ->
  List.length arr = String.length bstr ->
  fill n bstr arr
  = (map N_of_ascii (firstn n (list_ascii_of_string bstr)) ++ skipn n arr)%list.
Proof.
  induction n as [| n IH]; intros arr Hn Hlen; [reflexivity |].
  cbn [fill]. rewrite IH by (rewrite ?store_length; lia).
  unfold charCodeAt. rewrite get_nth by lia. cbn [option_map].
  unfold store. replace (n <? List.length arr)%nat with true
    by (symmetry; apply Nat.ltb_lt; lia).
  rewrite N.mod_small by apply N_ascii_bounded.
  rewrite skipn_app, skipn_firstn_comm, Nat.sub_diag, firstn_O.
  rewrite length_firstn, Nat.min_l, Nat.sub_diag by lia.
  cbn [skipn app].
  rewrite (firstn_succ_nth "000"%char (list_ascii_of_string bstr) n)
    by (rewrite length_chars; lia).
  rewrite map_app, <- app_assoc. reflexivity.
Qed.


Lemma bytes_of_dataURLtoBlob (dataurl : string) :
  bytes (dataURLtoBlob atob dataurl)
  = map N_of_ascii
      (list_ascii_of_string (atob (nth 1 (split "," dataurl) "undefined"))).
Proof.
  unfold dataURLtoBlob. cbn [bytes].
  rewrite fill_spec by (rewrite ?repeat_length; lia).
  rewrite <- length_chars, firstn_all.
  rewrite skipn_all2 by (rewrite repeat_length; lia).
  apply app_nil_r.
Qed.

(** X12.  The blob built from a data URL holds, in order, the character
    codes of [atob] of the text between the first and the second comma,
    so its size is the length of that decoded text: the size that the
    file-size search measures. *)
Theorem dataURLtoBlob_bytes (dataurl : string) :
  bytes (dataURLtoBlob atob dataurl)
  = map N_of_ascii
      (list_ascii_of_string (atob (nth 1 (split "," dataurl) "undefined"))) /\
  size (dataURLtoBlob atob dataurl) = FileSize.dataURLtoBlob_size atob dataurl.
Proof.
  pose proof (bytes_of_dataURLtoBlob dataurl) as Hbytes.
  split; [exact Hbytes |].
  unfold size. rewrite Hbytes, length_map, length_chars. reflexivity.
Qed.

(** *** The type *)

Lemma append_associative (a b c : string) : (a ++ b) ++ c = a ++ (b ++ c).
Proof. induction a as [| x a IH]; cbn; [reflexivity | rewrite IH; reflexivity]. Qed.

Lemma includes_app c a b : includes c (a ++ b) = includes c a || includes c b.
Proof.
  induction a as [| x a IH]; cbn; [reflexivity |].
  rewrite IH. apply orb_assoc.
Qed.

Lemma lazyUntilSemicolon_found mime rest :
  includes ";" mime = false ->
  includes "010" mime = false -> includes "013" mime = false ->
  lazyUntilSemicolon (mime ++ String ";" rest) = Some mime.
Proof.
  induction mime as [| c mime IH]; cbn; intros Hs Hn Hr; [reflexivity |].
  apply orb_false_iff in Hs, Hn, Hr.
  destruct Hs as [Hs1 Hs2], Hn as [Hn1 Hn2], Hr as [Hr1 Hr2].
  unfold isLineTerminator. rewrite Hs1, Hn1, Hr1. cbn [orb].
  rewrite IH by assumption. reflexivity.
Qed.

Lemma lazyUntilSemicolon_none s :
  includes ";" s = false -> lazyUntilSemicolon s = None.
Proof.
  induction s as [| c s IH]; cbn; intros H; [reflexivity |].
  apply orb_false_iff in H. destruct H as [H1 H2]. rewrite H1.
  destruct (isLineTerminator c); [reflexivity |].
  rewrite IH by assumption. reflexivity.
Qed.

Lemma matchMime_none s :
  includes ":" s = false \/ includes ";" s = false -> matchMime s = None.
Proof.
  induction s as [| c s IH]; cbn; intros H; [reflexivity |].
  destruct (Ascii.eqb c ":") eqn:Ec.
  - destruct H as [H | H]; [cbn in H; discriminate |].
    apply orb_false_iff in H. destruct H as [_ H].
    rewrite (lazyUntilSemicolon_none s H). apply IH. right. exact H.
  - apply IH. destruct H as [H | H]; [left | right];
      apply orb_false_iff in H; tauto.
Qed.

(** The text before the first separator has no character that the whole
    string lacks. *)
Lemma first_piece_includes sep c s :
  includes c s = false -> includes c (nth 0 (split sep s) EmptyString) = false.
Proof.
  induction s as [| x s IH]; cbn; intros H; [reflexivity |].
  apply orb_false_iff in H. destruct H as [H1 H2].
  destruct (Ascii.eqb x sep); [reflexivity |].
  specialize (IH H2).
  destruct (split sep s) as [| piece pieces]; cbn in *; rewrite H1;
    [reflexivity | exact IH].
Qed.

(** X13.  For a data URL of the form [data:<mime>;base64,<payload>],
    with no comma, semicolon or line break in the MIME type and no comma
    in the payload, the blob gets exactly that MIME type and the decoded
    payload.  For a data URL without a colon or without a semicolon (for
    instance ["data:,"], which a canvas of zero size gives) the type
    falls back to ["image/png"]. *)
Theorem dataURLtoBlob_type (dataurl : string) :
  (forall mime payload,
      dataurl = "data:" ++ mime ++ ";base64," ++ payload ->
      includes "," mime = false -> includes ";" mime = false ->
      includes "010" mime = false -> includes "013" mime = false ->
      includes "," payload = false ->
      type (dataURLtoBlob atob dataurl) = mime /\
      bytes (dataURLtoBlob atob dataurl)
      = map N_of_ascii (list_ascii_of_string (atob payload))) /\
  (includes ":" dataurl = false \/ includes ";" dataurl = false ->
   type (dataURLtoBlob atob dataurl) = "image/png").
Proof.
  split.
  - intros mime payload -> Hc Hs Hn Hr Hp.
    assert (split "," ("data:" ++ mime ++ ";base64," ++ payload)
            = ["data:" ++ mime ++ ";base64"; payload]) as Hsplit.
    { change ("data:" ++ mime ++ ";base64," ++ payload)
        with ("data:" ++ (mime ++ ";base64" ++ String "," payload)).
      replace ("data:" ++ (mime ++ ";base64" ++ String "," payload))
        with (("data:" ++ mime ++ ";base64") ++ String "," payload)
        by (cbn; rewrite !append_associative; reflexivity).
      rewrite split_app, (split_without _ _ Hp).
      rewrite split_without; [reflexivity |].
      change ("data:" ++ mime ++ ";base64") with ("data:" ++ (mime ++ ";base64")).
      rewrite !includes_app, Hc. reflexivity. }
    split.
    + unfold dataURLtoBlob. rewrite Hsplit. cbn [nth type].
      change ("data:" ++ mime ++ ";base64")
        with (String "d" (String "a" (String "t" (String "a"
                (String ":" (mime ++ String ";" "base64")))))).
      cbn [matchMime Ascii.eqb Bool.eqb].
      rewrite lazyUntilSemicolon_found by assumption. reflexivity.
    + rewrite bytes_of_dataURLtoBlob, Hsplit. reflexivity.
  - intros Hnone. unfold dataURLtoBlob. cbn [type].
    rewrite matchMime_none; [reflexivity |].
    destruct Hnone as [H | H]; [left | right];
      apply first_piece_includes; exact H.
Qed.

End DataUrlFacts.

(** ** The result for a file does not depend on the canvas it finds *)

Section CanvasIndependence.

Import JS Browser FileSize.
Open Scope Q_scope.

Variable toDataURL : Encode -> string.
Variable atob : string -> string.
Variables minFileSize maxFileSize : Q.

Local Abbreviation rerender := (rerender toDataURL atob).
Local Abbreviation iteration := (iteration toDataURL atob minFileSize maxFileSize).
Local Abbreviation loopGuard := (loopGuard maxFileSize).
Local Abbreviation while := (while toDataURL atob minFileSize maxFileSize).
Local Abbreviation initialState := (initialState toDataURL atob).
Local Abbreviation resizeToFileSize :=
  (resizeToFileSize toDataURL atob minFileSize maxFileSize).

Lemma variablesOf_rerender s t :
  variablesOf s = variablesOf t -> variablesOf (rerender s) = variablesOf (rerender t).
Proof.
  destruct s, t. unfold variablesOf. cbn [currentQuality currentWidth currentHeight
    currentFileSizeKB iterations resizedDataUrl lastValidDataUrl lastValidFileSizeKB].
  intros H. injection H as -> -> -> -> -> -> -> ->.
  unfold FileSize.rerender, adjust.
  cbn [currentQuality currentWidth currentHeight iterations lastValidDataUrl
       lastValidFileSizeKB FileSize.canvas].
  match goal with |- context [gt ?q 0.1] => destruct (gt q 0.1) end; reflexivity.
Qed.

Lemma variablesOf_iteration s t :
  variablesOf s = variablesOf t ->
  variablesOf (fst (iteration s)) = variablesOf (fst (iteration t)) /\
  snd (iteration s) = snd (iteration t).
Proof.
  intros H. pose proof (variablesOf_rerender s t H) as Hr.
  unfold FileSize.iteration.
  assert (currentFileSizeKB (rerender s) = currentFileSizeKB (rerender t)) as Hs
    by (unfold variablesOf in Hr; congruence).
  rewrite Hs.
  destruct (le (currentFileSizeKB (rerender t)) maxFileSize); cbn [fst snd].
  - split; [| reflexivity].
    unfold variablesOf in *. unfold recordValid.
    cbn [currentQuality currentWidth currentHeight currentFileSizeKB iterations
         resizedDataUrl lastValidDataUrl lastValidFileSizeKB].
    congruence.
  - split; [exact Hr | reflexivity].
Qed.

Lemma variablesOf_while fuel : forall s t,
  variablesOf s = variablesOf t ->
  variablesOf (while fuel s) = variablesOf (while fuel t).
Proof.
  induction fuel as [| fuel IH]; intros s t H; [exact H |].
  cbn [FileSize.while].
  assert (loopGuard s = loopGuard t) as Hg
    by (unfold FileSize.loopGuard, variablesOf in *; congruence).
  rewrite Hg. destruct (loopGuard t); [| exact H].
  destruct (variablesOf_iteration s t H) as [Hv Hb].
  destruct (iteration s) as [s' bs], (iteration t) as [t' bt].
  cbn [fst snd] in Hv, Hb. subst bt.
  destruct bs; [exact Hv | apply IH; exact Hv].
Qed.

Lemma variablesOf_resizeToFileSize fileName img cv cv' :
  variablesOf (fst (resizeToFileSize fileName img cv))
  = variablesOf (fst (resizeToFileSize fileName img cv')) /\
  snd (resizeToFileSize fileName img cv) = snd (resizeToFileSize fileName img cv').
Proof.
  assert (variablesOf (initialState img cv) = variablesOf (initialState img cv'))
    as H0 by reflexivity.
  pose proof (variablesOf_while (Z.to_nat maxIterations) _ _ H0) as HL.
  unfold FileSize.resizeToFileSize.
  change (currentFileSizeKB (initialState img cv'))
    with (currentFileSizeKB (initialState img cv)).
  destruct (inEnvelope minFileSize maxFileSize
              (currentFileSizeKB (initialState img cv))).
  { split; reflexivity. }
  destruct (lt (currentFileSizeKB (initialState img cv)) minFileSize).
  { split; reflexivity. }
  set (s := while (Z.to_nat maxIterations) (initialState img cv)) in *.
  set (t := while (Z.to_nat maxIterations) (initialState img cv')) in *.
  assert (lastValidDataUrl s = lastValidDataUrl t) as Hl
    by (unfold variablesOf in HL; congruence).
  rewrite Hl. destruct (truthy (lastValidDataUrl t)); cbn [fst snd].
  - split; [| reflexivity]. unfold variablesOf in *. unfold useLastValid.
    cbn [currentQuality currentWidth currentHeight currentFileSizeKB iterations
         resizedDataUrl lastValidDataUrl lastValidFileSizeKB].
    congruence.
  - split; [exact HL |]. unfold variablesOf in HL. congruence.
Qed.

End CanvasIndependence.

(** ** [handleConvert] *)

Section AppFacts.

Import JS Browser Convert App.
Open Scope string_scope.

Variable load : File -> option Img.
Variable toDataURL : File -> Encode -> string.
Variable atob : string -> string.
Variable hasContext : bool.

Local Abbreviation forFile := (forFile load toDataURL atob hasContext).
Local Abbreviation forFiles := (forFiles load toDataURL atob hasContext).
Local Abbreviation handleConvert := (handleConvert load toDataURL atob hasContext).
Local Abbreviation alone := (alone load toDataURL atob).

(** The entry pushed for a file is the same on any canvas. *)
Lemma pushed_any_canvas encode cfg file img cv cv' :
  pushed (convertFile encode atob cfg file img cv)
  = pushed (convertFile encode atob cfg file img cv').
Proof.
  unfold convertFile.
  destruct (negb (startsWith "image/" (file_type file))); [reflexivity |].
  destruct (resizeMode cfg).
  - destruct (Dimension.resizeDimensions _ _ _ _). reflexivity.
  - destruct (variablesOf_resizeToFileSize encode atob (minFileSize cfg)
                (maxFileSize cfg) (file_name file) img cv cv') as [Hv _].
    destruct (FileSize.resizeToFileSize encode atob (minFileSize cfg)
                (maxFileSize cfg) (file_name file) img cv) as [s msgs].
    destruct (FileSize.resizeToFileSize encode atob (minFileSize cfg)
                (maxFileSize cfg) (file_name file) img cv') as [s' msgs'].
    cbn [fst] in Hv. cbn [pushed]. unfold variablesOf in Hv.
    replace (FileSize.resizedDataUrl s') with (FileSize.resizedDataUrl s)
      by congruence.
    reflexivity.
Qed.

Lemma forFile_entry cfg file canvasRef :
  fst (fst (forFile cfg file canvasRef))
  = alone cfg (available hasContext canvasRef) file /\
  available hasContext (snd (forFile cfg file canvasRef))
  = available hasContext canvasRef.
Proof.
  unfold App.forFile, App.alone.
  destruct (negb (startsWith "image/" (file_type file))); [split; reflexivity |].
  destruct (load file) as [img |]; [| split; reflexivity].
  destruct canvasRef as [cv |]; [| split; reflexivity].
  cbn [available]. destruct hasContext; cbn [negb fst snd available];
    [| split; reflexivity].
  split; [apply pushed_any_canvas | reflexivity].
Qed.

Lemma forFiles_entries cfg files : forall canvasRef,
  fst (fst (forFiles cfg files canvasRef))
  = flat_map (fun file =>
                match alone cfg (available hasContext canvasRef) file with
                | Some e => [e]
                | None => []
                end) files.
Proof.
  induction files as [| file rest IH]; intros canvasRef; [reflexivity |].
  cbn [App.forFiles flat_map].
  destruct (forFile_entry cfg file canvasRef) as [He Ha].
  destruct (forFile cfg file canvasRef) as [[entry notes] canvasRef'].
  cbn [fst snd] in He, Ha.
  specialize (IH canvasRef'). rewrite Ha in IH.
  destruct (forFiles cfg rest canvasRef') as [[entries notes'] canvasRef''].
  cbn [fst] in IH |- *. rewrite <- He, IH.
  destruct entry; reflexivity.
Qed.

(** X14.  When [handleConvert] accepts the selection, the list it leaves
    in [resizedImages] holds, in the order of the selection, for each
    file exactly what that file gives when converted on its own on a
    fresh canvas: nothing for a file that is not of an image type, fails
    to load, or finds no canvas or context.  The message it ends with is
    the success message and [loading] is off, whatever happened to the
    single files. *)
Theorem handleConvert_accepted st canvasRef :
  selectedFiles st <> [] ->
  invalidBounds (settings st) = false ->
  resizedImages (state (handleConvert st canvasRef))
  = flat_map (fun file =>
                match alone (settings st) (available hasContext canvasRef) file with
                | Some e => [e]
                | None => []
                end) (selectedFiles st) /\
  message (state (handleConvert st canvasRef)) = Success /\
  loading (state (handleConvert st canvasRef)) = false.
Proof.
  intros Hfiles Hvalid. unfold App.handleConvert.
  destruct (selectedFiles st) as [| file rest] eqn:Efiles; [contradiction |].
  cbn [List.length Nat.eqb]. rewrite Hvalid.
  pose proof (forFiles_entries (settings st) (file :: rest) canvasRef) as He.
  destruct (forFiles (settings st) (file :: rest) canvasRef)
    as [[entries notes] canvasRef'].
  cbn [fst] in He. cbn [state resizedImages message loading].
  split; [exact He | split; reflexivity].
Qed.

(** X15.  With nothing being converted, the Convert button is disabled
    exactly when [handleConvert] would refuse: then [handleConvert] sets
    one message and leaves the earlier results and the canvas as they
    are; otherwise it starts with the "resizing" message and ends with
    the success message. *)
Theorem convert_button_matches_validation st canvasRef :
  loading st = false ->
  (convertDisabled st = true ->
   handleConvert st canvasRef
   = {| state := withMessage (message (state (handleConvert st canvasRef))) st;
        notices := [message (state (handleConvert st canvasRef))];
        canvas := canvasRef |} /\
   message (state (handleConvert st canvasRef)) <> Success) /\
  (convertDisabled st = false ->
   message (state (handleConvert st canvasRef)) = Success /\
   hd NoNotice (notices (handleConvert st canvasRef)) = Resizing).
Proof.
  intros Hload.
  assert (convertDisabled st
          = (List.length (selectedFiles st) =? 0)%nat || invalidBounds (settings st))
    as ->.
  { unfold convertDisabled, invalidBounds. rewrite Hload.
    destruct (resizeMode (settings st)); cbn [modeIs andb orb];
      rewrite ?orb_false_r; reflexivity. }
  unfold App.handleConvert.
  destruct (List.length (selectedFiles st) =? 0)%nat; cbn [orb].
  - split; [| discriminate]. intros _. split; [reflexivity | discriminate].
  - destruct (invalidBounds (settings st)) eqn:Hinv.
    + split; [| discriminate]. intros _. split; [reflexivity |].
      cbn. unfold invalidNotice. destruct (resizeMode (settings st)); discriminate.
    + split; [discriminate |]. intros _.
      destruct (forFiles (settings st) (selectedFiles st) canvasRef)
        as [[entries notes] canvasRef'].
      split; reflexivity.
Qed.


(** *** How many renders a batch takes *)

Lemma convertFile_renders encode cfg file img cv :
  startsWith "image/" (file_type file) = true ->
  exists encs,
    cv_encodes (canvasAfter (convertFile encode atob cfg file img cv))
    = (cv_encodes cv ++ encs)%list /\
    (1 <= List.length encs <= rendersPerFile (resizeMode cfg))%nat /\
    pushed (convertFile encode atob cfg file img cv) <> None.
Proof.
  intros Himg. unfold convertFile. rewrite Himg. cbn [negb].
  destruct (resizeMode cfg); cbn [rendersPerFile].
  - destruct (Dimension.resizeDimensions _ _ _ _) as [newWidth newHeight].
    eexists. cbn. split; [reflexivity |]. split; [cbn; lia | discriminate].
  - pose proof (resizeToFileSize_history encode atob (minFileSize cfg)
                  (maxFileSize cfg) (file_name file) img cv)
      as (encs & Hlog & _ & Hlen & Hmax & _).
    destruct (FileSize.resizeToFileSize encode atob (minFileSize cfg)
                (maxFileSize cfg) (file_name file) img cv) as [s msgs].
    cbn [fst] in Hlog, Hlen, Hmax. cbn [canvasAfter pushed].
    exists (encs ++ [SearchInvariants.specOf s])%list.
    split; [exact Hlog |]. split; [| discriminate].
    rewrite length_app. cbn [List.length].
    unfold FileSize.maxIterations in Hmax. lia.
Qed.

Lemma forFile_renders cfg file cv :
  exists cv' encs,
    snd (forFile cfg file (Some cv)) = Some cv' /\
    cv_encodes cv' = (cv_encodes cv ++ encs)%list /\
    match fst (fst (forFile cfg file (Some cv))) with
    | Some _ =>
        (1 <= List.length encs <= rendersPerFile (resizeMode cfg))%nat
    | None => encs = []
    end.
Proof.
  unfold App.forFile.
  destruct (startsWith "image/" (file_type file)) eqn:Himg; cbn [negb];
    [| exists cv, []; cbn; rewrite app_nil_r; repeat split].
  destruct (load file) as [img |];
    [| exists cv, []; cbn; rewrite app_nil_r; repeat split].
  destruct hasContext; cbn [negb];
    [| exists cv, []; cbn; rewrite app_nil_r; repeat split].
  destruct (convertFile_renders (toDataURL file) cfg file img cv Himg)
    as (encs & Hlog & Hlen & Hsome).
  eexists. exists encs. cbn [fst snd]. split; [reflexivity |].
  split; [exact Hlog |].
  destruct (pushed (convertFile (toDataURL file) atob cfg file img cv));
    [exact Hlen | contradiction].
Qed.

Lemma forFiles_renders cfg files : forall cv,
  exists cv' perFile,
    snd (forFiles cfg files (Some cv)) = Some cv' /\
    cv_encodes cv' = (cv_encodes cv ++ concat perFile)%list /\
    Forall2 (fun file encs =>
               match alone cfg hasContext file with
               | Some _ =>
                   (1 <= List.length encs
                    <= rendersPerFile (resizeMode cfg))%nat
               | None => encs = []
               end) files perFile /\
    (List.length (fst (fst (forFiles cfg files (Some cv))))
     <= List.length (concat perFile)
     <= rendersPerFile (resizeMode cfg)
        * List.length (fst (fst (forFiles cfg files (Some cv)))))%nat.
Proof.
  induction files as [| file rest IH]; intros cv.
  - exists cv, []. cbn. rewrite app_nil_r. repeat split; (constructor || lia).
  - cbn [App.forFiles].
    destruct (forFile_renders cfg file cv) as (cv1 & encs1 & Hc1 & Hlog1 & Hn1).
    destruct (forFile_entry cfg file (Some cv)) as [He _].
    cbn [available] in He.
    destruct (forFile cfg file (Some cv)) as [[entry notes] canvasRef].
    cbn [fst snd] in Hc1, Hn1, He. subst canvasRef.
    destruct (IH cv1) as (cv2 & perFile & Hc2 & Hlog2 & Hper & Hn2).
    destruct (forFiles cfg rest (Some cv1)) as [[entries notes'] canvasRef].
    cbn [fst snd] in Hc2, Hn2 |- *. subst canvasRef.
    exists cv2, (encs1 :: perFile).
    split; [reflexivity |].
    split; [cbn [concat]; rewrite Hlog2, Hlog1, app_assoc; reflexivity |].
    split.
    + constructor; [rewrite <- He; exact Hn1 | exact Hper].
    + cbn [concat]. rewrite length_app.
      destruct entry; [cbn [List.length]; nia | subst encs1; cbn [List.length]; lia].
Qed.

(** X16.  An accepted batch that finds a canvas leaves it with the
    renders of the batch appended to those it had, file after file in the
    order of the selection.  A file that gives no entry (it is not of an
    image type, fails to load, or finds no context) costs no render; a
    file that gives one costs at least one render and at most
    [rendersPerFile]: one in dimension mode, 101 in file-size mode.  In
    total there is at least one render per entry of [resizedImages] and
    at most [rendersPerFile] per entry. *)
Theorem batch_render_budget st cv :
  selectedFiles st <> [] ->
  invalidBounds (settings st) = false ->
  exists cv' perFile,
    canvas (handleConvert st (Some cv)) = Some cv' /\
    cv_encodes cv' = (cv_encodes cv ++ concat perFile)%list /\
    Forall2 (fun file encs =>
               match alone (settings st) hasContext file with
               | Some _ =>
                   (1 <= List.length encs
                    <= rendersPerFile (resizeMode (settings st)))%nat
               | None => encs = []
               end) (selectedFiles st) perFile /\
    (List.length (resizedImages (state (handleConvert st (Some cv))))
     <= List.length (concat perFile)
     <= rendersPerFile (resizeMode (settings st))
        * List.length (resizedImages (state (handleConvert st (Some cv)))))%nat.
Proof.
  intros Hfiles Hvalid. unfold App.handleConvert.
  destruct (selectedFiles st) as [| file rest] eqn:Efiles; [contradiction |].
  cbn [List.length Nat.eqb]. rewrite Hvalid.
  destruct (forFiles_renders (settings st) (file :: rest) cv)
    as (cv' & perFile & Hc & Hlog & Hper & Hn).
  destruct (forFiles (settings st) (file :: rest) (Some cv))
    as [[entries notes] canvasRef].
  cbn [fst snd] in Hc, Hn. cbn [canvas state resizedImages].
  exists cv', perFile. repeat split; try assumption; lia.
Qed.

End AppFacts.

(** ** Further examples *)

Section MoreExamples.

Import JS Browser Convert.
Open Scope Q_scope.

(** Every render of the banner is 3 KB and the envelope is [1, 2]. *)
Lemma over_max_only_after_budget_witness :
  FileSize.iterations
    (fst (FileSize.resizeToFileSize (Toy.toDataURL 0) Toy.atob 1 2
            "photo.final.png" Toy.banner emptyCanvas)) = FileSize.maxIterations /\
  List.length
    (cv_encodes
       (FileSize.canvas
          (fst (FileSize.resizeToFileSize (Toy.toDataURL 0) Toy.atob 1 2
                  "photo.final.png" Toy.banner emptyCanvas)))) = 101%nat.
Proof.
  destruct (over_max_only_after_budget (Toy.toDataURL 0) Toy.atob 1 2
              "photo.final.png" Toy.banner emptyCanvas
              (FileSize.resizeToFileSize (Toy.toDataURL 0) Toy.atob 1 2
                 "photo.final.png" Toy.banner emptyCanvas))
    as (Hit & _ & encs & Hlog & Hlen & _).
  - vm_compute. discriminate.
  - reflexivity.
  - vm_compute. reflexivity.
  - split; [exact Hit |]. rewrite Hlog. exact Hlen.
Defined.

(** The icon stalls at 4 x 3; the banner goes from 60000 x 100 to
    54000 x 90. *)
Lemma shrink_pass_witness :
  FileSize.adjust ToyBatch.stalled = (FileSize.currentQuality ToyBatch.stalled, 4, 3)%Z /\
  (5 <= Math_round (inject_Z (FileSize.currentWidth ToyBatch.shrinking) * 0.9)
   < FileSize.currentWidth ToyBatch.shrinking)%Z.
Proof.
  split.
  - destruct (shrink_pass ToyBatch.stalled) as (Hadj & Hw & _ & Hh & _).
    + vm_compute. discriminate.
    + vm_compute. discriminate.
    + vm_compute. discriminate.
    + rewrite Hadj, Hw, Hh; [reflexivity | |]; vm_compute; discriminate.
  - destruct (shrink_pass ToyBatch.shrinking) as (_ & _ & Hw & _).
    + vm_compute. discriminate.
    + vm_compute. discriminate.
    + vm_compute. discriminate.
    + apply Hw. vm_compute. discriminate.
Defined.

Lemma search_keeps_sides_witness :
  (Z.min 60000 5
   <= FileSize.currentWidth
        (fst (FileSize.resizeToFileSize (Toy.toDataURL 10) Toy.atob 1 2
                "photo.final.png" Toy.banner emptyCanvas)) <= 60000)%Z /\
  (Z.min 100 5
   <= FileSize.currentHeight
        (fst (FileSize.resizeToFileSize (Toy.toDataURL 10) Toy.atob 1 2
                "photo.final.png" Toy.banner emptyCanvas)) <= 100)%Z.
Proof.
  apply (search_keeps_sides (Toy.toDataURL 10) Toy.atob 1 2
           "photo.final.png" Toy.banner emptyCanvas);
    vm_compute; discriminate.
Defined.

(** The icon at quality 0.1: the remaining 84 passes change nothing. *)
Lemma search_stalls_witness :
  FileSize.iterations
    (FileSize.while (Toy.toDataURL 0) Toy.atob 1 2 84 ToyBatch.stalled)
  = FileSize.maxIterations /\
  SearchInvariants.specOf
    (FileSize.while (Toy.toDataURL 0) Toy.atob 1 2 84 ToyBatch.stalled)
  = SearchInvariants.specOf ToyBatch.stalled.
Proof.
  destruct (search_stalls (Toy.toDataURL 0) Toy.atob 1 2 84 ToyBatch.stalled)
    as (Hit & Hspec & _).
  - vm_compute. discriminate.
  - vm_compute. split; discriminate.
  - vm_compute. split; discriminate.
  - vm_compute. reflexivity.
  - vm_compute. reflexivity.
  - vm_compute. discriminate.
  - vm_compute. discriminate.
  - split; [exact Hit | exact Hspec].
Defined.

(** A 3 KB initial render within [1, 4]: no pass, the banner's own size. *)
Lemma search_schedule_witness :
  FileSize.currentWidth
    (fst (FileSize.resizeToFileSize (Toy.toDataURL 0) Toy.atob 1 4
            "photo.final.png" Toy.banner emptyCanvas)) = 60000%Z /\
  FileSize.currentHeight
    (fst (FileSize.resizeToFileSize (Toy.toDataURL 0) Toy.atob 1 4
            "photo.final.png" Toy.banner emptyCanvas)) = 100%Z.
Proof.
  destruct (search_schedule (Toy.toDataURL 0) Toy.atob 1 4
              "photo.final.png" Toy.banner emptyCanvas) as [_ Hsides].
  apply Hsides. vm_compute. discriminate.
Defined.

Lemma resizeDimensions_within_witness :
  Dimension.resizeDimensions 300 200 (inject_Z 100) (inject_Z 800) = (300, 200)%Z.
Proof. apply (resizeDimensions_within 300 200 100 800); lia. Defined.

(** A 1000 x 2 strip is made smaller, a 50 x 80 image larger. *)
Lemma min_pass_sets_longer_side_witness :
  (Z.max 100 0 = 100 /\ (100 <= 1000 /\ 0 <= 2))%Z /\
  (Z.max 63 100 = 100 /\ (50 <= 63 /\ 80 <= 100))%Z.
Proof.
  split.
  - destruct (min_pass_sets_longer_side 1000 2 100 2000 100 0)
      as (Hmax & Hsmaller & _);
      [lia | lia | vm_compute; discriminate
      | split; [lia | vm_compute; discriminate] | lia | vm_compute; reflexivity |].
    split; [exact Hmax | apply Hsmaller; lia].
  - destruct (min_pass_sets_longer_side 50 80 100 800 63 100)
      as (Hmax & _ & Hlarger);
      [lia | lia | vm_compute; discriminate
      | split; [lia | vm_compute; discriminate] | lia | vm_compute; reflexivity |].
    split; [exact Hmax | apply Hlarger; lia].
Defined.

Lemma max_pass_fits_envelope_witness :
  Dimension.withinEnvelope 100 800 (800, 400)%Z /\ Z.max 800 400 = 800%Z.
Proof.
  apply (max_pass_fits_envelope 4000 2000 100 800 800 400);
    [lia | lia | reflexivity | lia | lia | vm_compute; discriminate
    | vm_compute; reflexivity].
Defined.

Lemma resizeDimensions_transposed_witness :
  Dimension.resizeDimensions 10 4000 (inject_Z 100) (inject_Z 800)
  = (snd (Dimension.resizeDimensions 4000 10 (inject_Z 100) (inject_Z 800)),
     fst (Dimension.resizeDimensions 4000 10 (inject_Z 100) (inject_Z 800))).
Proof.
  apply (resizeDimensions_transposed 4000 10 (inject_Z 100) (inject_Z 800));
    [lia | lia | reflexivity | split; vm_compute; reflexivity
    | split; vm_compute; reflexivity].
Defined.

(** The 4000 x 10 strip again: 100 x 0 is within the maximum, its longer
    side on the minimum, and it is reproduced. *)
Lemma resizeDimensions_bounds_witness :
  (0 <= 100 <= 800)%Z /\ (0 <= 0 <= 800)%Z /\ (100 <= Z.max 100 0)%Z.
Proof.
  apply (resizeDimensions_bounds 4000 10 100 800 100 0);
    [lia | lia | reflexivity | vm_compute; discriminate | vm_compute; reflexivity].
Defined.

Lemma resizeDimensions_again_witness :
  Dimension.resizeDimensions 100 0 (inject_Z 100) (inject_Z 800) = (100, 0)%Z.
Proof.
  apply (resizeDimensions_again 4000 10 100 800 100 0);
    [lia | lia | reflexivity | vm_compute; discriminate | vm_compute; reflexivity].
Defined.

(** ["photo.final.png"] and ["photo.final.jpg"] get one name. *)
Lemma output_name_collisions_witness :
  option_map name
    (pushed (convertFile (Toy.toDataURL 0) Toy.atob Toy.bySize
               Toy.photo Toy.banner emptyCanvas))
  = option_map name
      (pushed (convertFile (Toy.toDataURL 0) Toy.atob Toy.bySize
                 ToyBatch.photoJpg Toy.banner emptyCanvas)).
Proof.
  destruct (output_name_collisions Toy.atob Toy.bySize Toy.photo ToyBatch.photoJpg
              Toy.banner Toy.banner emptyCanvas emptyCanvas
              (Toy.toDataURL 0) (Toy.toDataURL 0)) as [Hsame _];
    [reflexivity | reflexivity |].
  apply (Hsame eq_refl "photo.final"%string "png"%string "jpg"%string);
    reflexivity.
Defined.

Lemma dataURLtoBlob_type_witness :
  DataUrl.type (DataUrl.dataURLtoBlob Toy.atob "data:image/jpeg;base64,L")
  = "image/jpeg"%string /\
  DataUrl.type (DataUrl.dataURLtoBlob Toy.atob "data:,") = "image/png"%string.
Proof.
  split.
  - destruct (dataURLtoBlob_type Toy.atob "data:image/jpeg;base64,L") as [Hwell _].
    destruct (Hwell "image/jpeg"%string "L"%string) as [Htype _];
      [reflexivity | reflexivity | reflexivity | reflexivity | reflexivity
      | reflexivity |].
    exact Htype.
  - destruct (dataURLtoBlob_type Toy.atob "data:,") as [_ Hnone].
    apply Hnone. right. reflexivity.
Defined.

(** A selection of a photo, a text file, an image that fails to load and
    a scan, in file-size mode. *)
Lemma handleConvert_accepted_witness :
  map name
    (App.resizedImages
       (App.state (App.handleConvert ToyBatch.load ToyBatch.toDataURL Toy.atob true
                     ToyBatch.selection (Some emptyCanvas))))
  = ["resized_filesize_photo.final.jpeg"; "resized_filesize_.jpeg"]%string /\
  App.message
    (App.state (App.handleConvert ToyBatch.load ToyBatch.toDataURL Toy.atob true
                  ToyBatch.selection (Some emptyCanvas))) = App.Success.
Proof.
  destruct (handleConvert_accepted ToyBatch.load ToyBatch.toDataURL Toy.atob true
              ToyBatch.selection (Some emptyCanvas)) as (Himgs & Hmsg & _).
  - discriminate.
  - reflexivity.
  - split; [rewrite Himgs; reflexivity | exact Hmsg].
Defined.

Lemma convert_button_matches_validation_witness :
  App.message
    (App.state (App.handleConvert ToyBatch.load ToyBatch.toDataURL Toy.atob true
                  ToyBatch.selection (Some emptyCanvas))) = App.Success /\
  App.message
    (App.state (App.handleConvert ToyBatch.load ToyBatch.toDataURL Toy.atob true
                  (App.handleFileChange (Some []) ToyBatch.selection)
                  (Some emptyCanvas))) <> App.Success.
Proof.
  split.
  - destruct (convert_button_matches_validation ToyBatch.load ToyBatch.toDataURL
                Toy.atob true ToyBatch.selection (Some emptyCanvas))
      as [_ Henabled]; [reflexivity |].
    apply Henabled. reflexivity.
  - destruct (convert_button_matches_validation ToyBatch.load ToyBatch.toDataURL
                Toy.atob true (App.handleFileChange (Some []) ToyBatch.selection)
                (Some emptyCanvas))
      as [Hdisabled _]; [reflexivity |].
    apply Hdisabled. reflexivity.
Defined.

(** The photo and the scan take one render each, the text file and the
    image that fails to load none. *)
Lemma batch_render_budget_witness :
  exists cv' perFile,
    App.canvas (App.handleConvert ToyBatch.load ToyBatch.toDataURL Toy.atob true
                  ToyBatch.selection (Some emptyCanvas)) = Some cv' /\
    cv_encodes cv' = ([] ++ concat perFile)%list /\
    Forall2 (fun file encs =>
               match App.alone ToyBatch.load ToyBatch.toDataURL Toy.atob
                       Toy.bySize true file with
               | Some _ => (1 <= List.length encs <= 101)%nat
               | None => encs = []
               end)
      [Toy.photo; ToyBatch.notes; ToyBatch.broken; Toy.scan] perFile /\
    (List.length
       (App.resizedImages
          (App.state (App.handleConvert ToyBatch.load ToyBatch.toDataURL Toy.atob
                        true ToyBatch.selection (Some emptyCanvas))))
     <= List.length (concat perFile)
     <= 101 * List.length
          (App.resizedImages
             (App.state (App.handleConvert ToyBatch.load ToyBatch.toDataURL Toy.atob
                           true ToyBatch.selection (Some emptyCanvas)))))%nat.
Proof.
  apply (batch_render_budget ToyBatch.load ToyBatch.toDataURL Toy.atob true
           ToyBatch.selection emptyCanvas).
  - discriminate.
  - reflexivity.
Defined.

End MoreExamples.
